(** * Obsidian-to-latex: the block scanner and the inline transformer

    A shallow embedding of [parser_utils.py]: the line classifier
    ([detect_header], [is_list_item], ...), the block scanner [to_blocks]
    and the inline transformer [format_text], together with the part of
    Python's [str] and [re] libraries these functions rely on.

    Conventions of the embedding.
    - A Python [str] is a list of characters [str := list ascii]; a
      character is a code point in the range 0..255, classified the way
      Python classifies it ([str.isspace], the classes [\s], [\w], [\d]
      and [.] of [re] on [str] patterns).
    - Exceptions are values of [exn], carried by [result]; the [assert]
      statements are taken as enabled.
    - The [while] loops take a fuel argument; [loops_terminate] shows that
      the fuel the top-level functions pass is enough.
    - [str.lower] is taken on the code points 0..255: the capitals A..Z
      and those of the range 192..222, the multiplication sign apart.
    - The definitions whose name begins with [spec_] follow the words of
      the specification, to be compared with the code. *)

From Stdlib Require Import List Ascii Bool Arith Lia.
Import ListNotations.

(* ================================================================== *)
(** * Strings *)

Definition str := list ascii.

Declare Scope str_scope.
Delimit Scope str_scope with str.
Bind Scope str_scope with str.

(** String literals for [str]: ["abc"] is the list of its three characters. *)
Inductive literal := LNil | LCons (c : ascii) (l : literal).

Fixpoint literal_of_bytes (l : list Byte.byte) : literal :=
  match l with
  | [] => LNil
  | b :: t => LCons (ascii_of_byte b) (literal_of_bytes t)
  end.

Fixpoint bytes_of_literal (s : literal) : list Byte.byte :=
  match s with
  | LNil => []
  | LCons c t => byte_of_ascii c :: bytes_of_literal t
  end.

#[warning="-via-type-remapping,-via-type-mismatch"]
String Notation str literal_of_bytes bytes_of_literal
  (via literal mapping [[nil] => LNil, [cons] => LCons]) : str_scope.

Open Scope str_scope.

(** The double quote and the line feed, which a literal cannot hold. *)
Definition dquote : ascii := "034"%char.
Definition LF : ascii := "010"%char.
Definition CR : ascii := "013"%char.

Definition code (c : ascii) : nat := nat_of_ascii c.

(** [str.isspace] on one character; also the class [\s] of [re]. *)
Definition isspace (c : ascii) : bool :=
  let n := code c in
  ((9 <=? n) && (n <=? 13)) || ((28 <=? n) && (n <=? 32))
  || (n =? 133) || (n =? 160).

(** The class [\d] of [re]: the decimal digits. *)
Definition isdigit (c : ascii) : bool :=
  let n := code c in (48 <=? n) && (n <=? 57).

(** The class [\w] of [re]: alphanumeric characters and the underscore. *)
Definition isword (c : ascii) : bool :=
  let n := code c in
  isdigit c || ((65 <=? n) && (n <=? 90)) || (n =? 95)
  || ((97 <=? n) && (n <=? 122))
  || (n =? 170) || (n =? 178) || (n =? 179) || (n =? 181)
  || (n =? 185) || (n =? 186) || ((188 <=? n) && (n <=? 190))
  || ((192 <=? n) && (n <=? 214)) || ((216 <=? n) && (n <=? 246))
  || (248 <=? n).

(** The class [.] of [re] (no DOTALL flag): anything but a line feed. *)
Definition isdot (c : ascii) : bool := negb (Ascii.eqb c LF).

(** The line boundaries of [str.splitlines]. *)
Definition islinebreak (c : ascii) : bool :=
  let n := code c in
  ((10 <=? n) && (n <=? 13)) || ((28 <=? n) && (n <=? 30)) || (n =? 133).

Fixpoint dropwhile (p : ascii -> bool) (s : str) : str :=
  match s with
  | c :: t => if p c then dropwhile p t else s
  | [] => []
  end.

(** [s.lstrip()], [s.rstrip()], [s.strip()] *)
Definition lstrip (s : str) : str := dropwhile isspace s.
Definition rstrip (s : str) : str := rev (dropwhile isspace (rev s)).
Definition strip (s : str) : str := rstrip (lstrip s).

Definition mem (c : ascii) (chars : str) : bool := existsb (Ascii.eqb c) chars.

(** [s.lstrip(chars)] *)
Definition lstrip_chars (chars : str) (s : str) : str :=
  dropwhile (fun c => mem c chars) s.

Fixpoint str_eqb (a b : str) : bool :=
  match a, b with
  | [], [] => true
  | x :: a', y :: b' => Ascii.eqb x y && str_eqb a' b'
  | _, _ => false
  end.

(** [l[a:b]] for [0 <= a] and [0 <= b]. *)
Definition slice {A} (a b : nat) (l : list A) : list A :=
  firstn (b - a) (skipn a l).

(** [s.splitlines()]; [cur] is the line being read, reversed. *)
Fixpoint splitlines_from (s : str) (cur : str) : list str :=
  match s with
  | [] => match cur with [] => [] | _ => [rev cur] end
  | c :: t =>
    if Ascii.eqb c CR then
      match t with
      | d :: t' =>
        if Ascii.eqb d LF then rev cur :: splitlines_from t' []
        else rev cur :: splitlines_from t []
      | [] => rev cur :: splitlines_from t []
      end
    else if islinebreak c then rev cur :: splitlines_from t []
    else splitlines_from t (c :: cur)
  end.

Definition splitlines (s : str) : list str := splitlines_from s [].

(** [s.split(' ')]: the fields between single spaces, empty ones kept. *)
Fixpoint split_from (sep : ascii) (s : str) (cur : str) : list str :=
  match s with
  | [] => [rev cur]
  | c :: t =>
    if Ascii.eqb c sep then rev cur :: split_from sep t []
    else split_from sep t (c :: cur)
  end.

Definition split (sep : ascii) (s : str) : list str := split_from sep s [].

(** [s.startswith(p)] *)
Fixpoint startswith (p s : str) : bool :=
  match p, s with
  | [], _ => true
  | x :: p', y :: s' => Ascii.eqb x y && startswith p' s'
  | _ :: _, [] => false
  end.

(** [p in s] *)
Fixpoint contains (p s : str) : bool :=
  startswith p s || match s with [] => false | _ :: t => contains p t end.

(** [s.replace(old, new)] for a non-empty [old]: every occurrence, left to
    right, without overlap.  [skip] counts the characters of the occurrence
    just replaced that are still to be passed over. *)
Fixpoint replace_go (old new : str) (s : str) (skip : nat) : str :=
  match skip with
  | S n => match s with _ :: t => replace_go old new t n | [] => [] end
  | 0 =>
    match s with
    | [] => []
    | c :: t =>
      if startswith old s then new ++ replace_go old new t (length old - 1)
      else c :: replace_go old new t 0
    end
  end.

Definition replace (old new : str) (s : str) : str := replace_go old new s 0.

(** [s.replace(old, new, 1)] for a non-empty [old]: the first occurrence. *)
Fixpoint replace_first (old new : str) (s : str) : str :=
  match s with
  | [] => []
  | c :: t =>
    if startswith old s then new ++ skipn (length old) s
    else c :: replace_first old new t
  end.

(* ================================================================== *)
(** * Regular expressions

    The fragment of Python's [re] the program uses, with the backtracking
    semantics of [re]: alternatives are tried left to right, a greedy
    quantifier tries the longest repetition first and a lazy one the
    shortest.  In every pattern of the program a quantifier applies to a
    single character class, which is what [Rep] holds.  Where a comment
    quotes a pattern of the source, a blank is put between a star and the
    closing parenthesis after it; the blank is not part of the pattern. *)

Inductive regex : Type :=
| Eps
| Chr (p : ascii -> bool)                    (* one character of a class *)
| Rep (p : ascii -> bool) (lo : nat) (hi : option nat) (greedy : bool)
| Seq (r1 r2 : regex)
| Alt (r1 r2 : regex)
| Grp (n : nat) (r : regex)                  (* capturing group number n *)
| Bol                                        (* ^ *)
| Eol                                        (* $ *)
| NotBehind (p : ascii -> bool)              (* (?<!c) *)
| NotAhead (p : ascii -> bool).              (* (?!c) *)

Definition ch (c : ascii) : ascii -> bool := fun x => Ascii.eqb x c.
Definition not_ch (c : ascii) : ascii -> bool := fun x => negb (Ascii.eqb x c).
Definition one_of (chars : str) : ascii -> bool := fun x => mem x chars.

(** A literal string. *)
Fixpoint lit (s : str) : regex :=
  match s with
  | [] => Eps
  | c :: t => Seq (Chr (ch c)) (lit t)
  end.

Notation "r1 ;; r2" := (Seq r1 r2) (at level 61, right associativity).
Definition star p := Rep p 0 None true.        (* x*  *)
Definition plus p := Rep p 1 None true.        (* x+  *)
Definition star_lazy p := Rep p 0 None false.  (* x*? *)
Definition plus_lazy p := Rep p 1 None false.  (* x+? *)
Definition times p n := Rep p n (Some n) true. (* x{n} *)

(** The state of a match attempt: the characters of the subject before the
    current position (nearest first), those from the current position on,
    and the text of the groups captured so far. *)
Record mstate : Type := MState {
  seen : str;
  rest : str;
  groups : list (nat * str)
}.

Definition advance (c : ascii) (t : str) (st : mstate) : mstate :=
  MState (c :: seen st) t (groups st).

(** The text between two states of one attempt. *)
Definition between (st st' : mstate) : str :=
  rev (firstn (length (seen st') - length (seen st)) (seen st')).

Definition capture (n : nat) (st st' : mstate) : mstate :=
  MState (seen st') (rest st') ((n, between st st') :: groups st').

Fixpoint assoc (n : nat) (g : list (nat * str)) : option str :=
  match g with
  | [] => None
  | (m, s) :: t => if m =? n then Some s else assoc n t
  end.

(** [m.group(n)] for a group that took part in the match. *)
Definition group (n : nat) (st : mstate) : str :=
  match assoc n (groups st) with Some s => s | None => [] end.

Definition dec (hi : option nat) : option nat := option_map pred hi.

Definition exhausted (hi : option nat) : bool :=
  match hi with Some 0 => true | _ => false end.

Section Repeat.
Variable p : ascii -> bool.
Variable g : list (nat * str).
Variable k : mstate -> option mstate.

Fixpoint rep_greedy (lo : nat) (hi : option nat) (sn rs : str)
  : option mstate :=
  let stop := if lo =? 0 then k (MState sn rs g) else None in
  if exhausted hi then stop else
  match rs with
  | c :: t =>
    if p c then
      match rep_greedy (pred lo) (dec hi) (c :: sn) t with
      | Some r => Some r
      | None => stop
      end
    else stop
  | [] => stop
  end.

Fixpoint rep_lazy (lo : nat) (hi : option nat) (sn rs : str)
  : option mstate :=
  let more :=
    if exhausted hi then None else
    match rs with
    | c :: t => if p c then rep_lazy (pred lo) (dec hi) (c :: sn) t else None
    | [] => None
    end in
  if lo =? 0 then
    match k (MState sn rs g) with
    | Some r => Some r
    | None => more
    end
  else more.
End Repeat.

(** [exec r st k]: match [r] from [st], then go on with [k]; [None] when every
    way of matching [r] makes [k] fail. *)
Fixpoint exec (r : regex) (st : mstate) (k : mstate -> option mstate)
  : option mstate :=
  match r with
  | Eps => k st
  | Chr p =>
    match rest st with
    | c :: t => if p c then k (advance c t st) else None
    | [] => None
    end
  | Rep p lo hi true => rep_greedy p (groups st) k lo hi (seen st) (rest st)
  | Rep p lo hi false => rep_lazy p (groups st) k lo hi (seen st) (rest st)
  | Seq r1 r2 => exec r1 st (fun st' => exec r2 st' k)
  | Alt r1 r2 =>
    match exec r1 st k with
    | Some res => Some res
    | None => exec r2 st k
    end
  | Grp n r1 => exec r1 st (fun st' => k (capture n st st'))
  | Bol => match seen st with [] => k st | _ :: _ => None end
  | Eol =>
    match rest st with
    | [] => k st
    | [c] => if Ascii.eqb c LF then k st else None
    | _ => None
    end
  | NotBehind p =>
    match seen st with
    | c :: _ => if p c then None else k st
    | [] => k st
    end
  | NotAhead p =>
    match rest st with
    | c :: _ => if p c then None else k st
    | [] => k st
    end
  end.

(** One attempt at the current position of the subject. *)
Definition attempt (r : regex) (sn rs : str) : option mstate :=
  exec r (MState sn rs []) Some.

(** [re.match(r, s)] *)
Definition re_match (r : regex) (s : str) : option mstate := attempt r [] s.

(** The length of the text a successful attempt from [sn] consumed. *)
Definition consumed (sn : str) (st : mstate) : nat :=
  length (seen st) - length sn.

(** A replacement template: literal text and group references. *)
Inductive titem : Type := TLit (s : str) | TGrp (n : nat).

Fixpoint expand (tpl : list titem) (st : mstate) : str :=
  match tpl with
  | [] => []
  | TLit s :: t => s ++ expand t st
  | TGrp n :: t => group n st ++ expand t st
  end.

(** [re.sub(r, tpl, s)]: the matches are searched left to right and do not
    overlap; [skip] counts the characters of the last match that are still
    to be passed over.  An empty match is replaced and the next character
    copied (no pattern of the program matches the empty string). *)
Fixpoint sub_go (r : regex) (tpl : list titem) (sn rs : str) (skip : nat)
  : str :=
  match skip with
  | S n => match rs with c :: t => sub_go r tpl (c :: sn) t n | [] => [] end
  | 0 =>
    match attempt r sn rs with
    | Some st =>
      expand tpl st ++
      match consumed sn st, rs with
      | S n, c :: t => sub_go r tpl (c :: sn) t n
      | 0, c :: t => c :: sub_go r tpl (c :: sn) t 0
      | _, [] => []
      end
    | None =>
      match rs with
      | c :: t => c :: sub_go r tpl (c :: sn) t 0
      | [] => []
      end
    end
  end.

Definition re_sub (r : regex) (tpl : list titem) (s : str) : str :=
  sub_go r tpl [] s 0.

(** [re.findall(r, s)] for a pattern without groups: the matched texts. *)
Fixpoint findall_go (r : regex) (sn rs : str) (skip : nat) : list str :=
  match skip with
  | S n => match rs with c :: t => findall_go r (c :: sn) t n | [] => [] end
  | 0 =>
    match attempt r sn rs with
    | Some st =>
      firstn (consumed sn st) rs ::
      match consumed sn st, rs with
      | S n, c :: t => findall_go r (c :: sn) t n
      | 0, c :: t => findall_go r (c :: sn) t 0
      | _, [] => []
      end
    | None =>
      match rs with
      | c :: t => findall_go r (c :: sn) t 0
      | [] => []
      end
    end
  end.

Definition re_findall (r : regex) (s : str) : list str := findall_go r [] s 0.

(* ================================================================== *)
(** * The line classifier *)

(** Python's truth value of a string: non-empty. *)
Definition truthy (s : str) : bool :=
  match s with [] => false | _ :: _ => true end.

Definition is_some {A} (o : option A) : bool :=
  match o with Some _ => true | None => false end.

(** The pattern [^(#{1,3})\s(.* )]. *)
Definition header_re : regex :=
  Bol ;; Grp 1 (Rep (ch "#") 1 (Some 3) true) ;; Chr isspace ;;
  Grp 2 (star isdot).

(** The pattern [^(#{level})\s(.* )], for an integer [level]. *)
Definition header_level_re (level : nat) : regex :=
  Bol ;; Grp 1 (times (ch "#") level) ;; Chr isspace ;; Grp 2 (star isdot).

(** [detect_header(line, level)]: the pair [(h_level, title)] of the
    dictionary, [None] for [False].  [level] is [None] for the default
    argument; [if level:] holds for an integer other than 0. *)
Definition detect_header (line : str) (level : option nat)
  : option (nat * str) :=
  let m :=
    match level with
    | Some (S n) => re_match (header_level_re (S n)) line
    | _ => re_match header_re line
    end in
  match m with
  | Some st => Some (length (group 1 st), group 2 st)
  | None => None
  end.

(** The pattern [^\[\^(.+?)]:(.* )]. *)
Definition footnote_re : regex :=
  Bol ;; lit "[^" ;; Grp 1 (plus_lazy isdot) ;; lit "]:" ;; Grp 2 (star isdot).

Definition detect_footnote (line : str) : option (str * str) :=
  match re_match footnote_re line with
  | Some st => Some (group 1 st, strip (group 2 st))
  | None => None
  end.

(** The pattern [^#{4}\s(.* )]. *)
Definition command_re : regex :=
  Bol ;; times (ch "#") 4 ;; Chr isspace ;; Grp 1 (star isdot).

Definition detect_command (line : str) : option str :=
  match re_match command_re line with
  | Some st => Some (group 1 st)
  | None => None
  end.

(** The pattern [^!\[\[(.+\.png|.+\.jpg)\]\](.* )$]. *)
Definition figure_re : regex :=
  Bol ;; lit "![[" ;;
  Grp 1 (Alt (plus isdot ;; lit ".png") (plus isdot ;; lit ".jpg")) ;;
  lit "]]" ;; Grp 2 (star isdot) ;; Eol.

(** [detect_figure(line)]: the list [[name] + settings]. *)
Definition detect_figure (line : str) : option (list str) :=
  match re_match figure_re (strip line) with
  | Some st =>
    let name := group 1 st in
    let settings :=
      if str_eqb (group 2 st) "" then [] else split " " (group 2 st) in
    Some (name :: settings)
  | None => None
  end.

(** The pattern [`eq_label:(\S.* )`]. *)
Definition labeled_equation_re : regex :=
  lit "`eq_label:" ;;
  Grp 1 (Chr (fun c => negb (isspace c)) ;; star isdot) ;; lit "`".

Definition detect_labeled_equation (line : str) : option str :=
  match re_match labeled_equation_re (strip line) with
  | Some st => Some ("eq:" ++ strip (group 1 st))
  | None => None
  end.

(** The truth value of what [detect_command] returns: the empty string
    counts as false. *)
Definition is_comment (line : str) : bool :=
  match detect_command line with
  | Some cmd => truthy cmd
  | None => false
  end.

(** [str.lower] on one character. *)
Definition lower_char (c : ascii) : ascii :=
  let n := code c in
  if ((65 <=? n) && (n <=? 90))
     || ((192 <=? n) && (n <=? 222) && negb (n =? 215))
  then ascii_of_nat (n + 32)
  else c.

(** [s.lower()] *)
Definition lower (s : str) : str := map lower_char s.

(** [if cmd := detect_command(line)] takes the truth value of the text of
    the command, as [is_comment] does. *)
Definition is_command (line command : str) : bool :=
  match detect_command line with
  | Some cmd => truthy cmd && str_eqb (lower (strip cmd)) command
  | None => false
  end.

Definition is_equation_dollars (line : str) : bool :=
  str_eqb (firstn 2 (strip line)) "$$".

Definition is_list_item (line : str) : bool :=
  match strip line with
  | [] => false
  | c :: _ => Ascii.eqb c "-"
  end.

Definition is_quote (line : str) : bool :=
  match strip line with
  | [] => false
  | c :: _ => Ascii.eqb c ">"
  end.

Definition is_ignore_line (line : str) : bool :=
  (length (strip line) =? 0) || is_comment line.

Definition is_separator_line (line : str) : bool :=
  str_eqb (strip line) "---".

Definition is_end_paragraph (line : str) : bool :=
  is_ignore_line line || is_separator_line line || is_equation_dollars line
  || is_list_item line || is_quote line || is_comment line
  || is_some (detect_labeled_equation line)
  || is_some (detect_header line None).

(** The first index from [start] on at which [expr] holds, counting from
    the start of the list. *)
Fixpoint find_from {A} (expr : A -> bool) (l : list A) (i : nat)
  : option nat :=
  match l with
  | [] => None
  | x :: t => if expr x then Some i else find_from expr t (S i)
  end.

Definition find_next_index {A} (lst : list A) (expr : A -> bool)
  (start : nat) : nat :=
  match find_from expr (skipn start lst) start with
  | Some i => i
  | None => length lst
  end.

(* ================================================================== *)
(** * The block scanner *)

(** The constructor calls of the [blocks] module, with their keyword
    arguments; [label] is [None] where the call passes none. *)
Inductive block_ctor : Type :=
| Section (h_level : nat) (title : str) (content : list str) (fig_path : str)
| Paragraph (content : list str)
| Equation (content : list str) (label : option str)
| List (content : list str)
| Quote (content : list str)
| Figure (settings : list str) (label caption : str) (path : str)
| Footnote (footnote_mark : str) (content : list str).

(** A block with its [parent] attribute; [handle] stands for the reference
    to the parent block. *)
Definition handle := nat.

Record block : Type := Block {
  made_by : block_ctor;
  parent : option handle
}.

Inductive exn : Type :=
| AssertionError (msg : str)
| IndexError.

Inductive result (A : Type) : Type :=
| Ret (a : A)
| Raise (e : exn).
Arguments Ret {A} a.
Arguments Raise {A} e.

Definition bind {A B} (r : result A) (f : A -> result B) : result B :=
  match r with
  | Ret a => f a
  | Raise e => Raise e
  end.

Notation "x <- r ;;; f" := (bind r (fun x => f))
  (at level 62, r at next level, right associativity).

(** [lst[i]] *)
Definition get {A} (lst : list A) (i : nat) : result A :=
  match nth_error lst i with
  | Some x => Ret x
  | None => Raise IndexError
  end.

(** [assert cond, msg] *)
Definition assert (cond : bool) (msg : str) : result unit :=
  if cond then Ret tt else Raise (AssertionError msg).

(** The pattern [^`(.*?)`:(.* )]. *)
Definition caption_re : regex :=
  Bol ;; lit "`" ;; Grp 1 (star_lazy isdot) ;; lit "`:" ;; Grp 2 (star isdot).

(** The local variables of [to_blocks] that live across iterations. *)
Record scan_state : Type := ScanState {
  content_blocks : list block;
  is_ignoring : bool;
  i : nat
}.

(** What the [if]/[elif] chain of one iteration leaves in [block],
    [is_ignoring] and [i]. *)
Record chain_result : Type := Chain {
  new_block : option block_ctor;
  new_ignoring : bool;
  new_i : nat
}.

Section Scanner.
Variable text_lines : list str.
Variable fig_path : str.
Variable parent_arg : option handle.

Definition chain (is_ignoring : bool) (i : nat) : result chain_result :=
  line <- get text_lines i ;;;
  if is_ignore_line line then
    Ret (Chain None is_ignoring (i + 1))
  else if is_separator_line line then
    Ret (Chain None (negb is_ignoring) (i + 1))
  else
  match detect_header line None with
  | Some (h_level, title) =>
    let end_section_i :=
      find_next_index text_lines
        (fun l => is_some (detect_header l (Some h_level))) (i + 1) in
    Ret (Chain
           (Some (Section h_level title
                    (slice (i + 1) end_section_i text_lines) fig_path))
           is_ignoring end_section_i)
  | None =>
  if is_equation_dollars line then
    let end_equation_i :=
      find_next_index text_lines is_equation_dollars (i + 1) in
    Ret (Chain
           (Some (Equation (slice (i + 1) end_equation_i text_lines) None))
           is_ignoring (end_equation_i + 1))
  else
  match detect_labeled_equation line with
  | Some label =>
    next <- get text_lines (i + 1) ;;;
    _ <- assert (is_equation_dollars next)
           "Equation dollars must be alone in a line" ;;;
    let i := i + 1 in
    let end_equation_i :=
      find_next_index text_lines is_equation_dollars (i + 1) in
    Ret (Chain
           (Some (Equation (slice (i + 1) end_equation_i text_lines)
                    (Some label)))
           is_ignoring (end_equation_i + 1))
  | None =>
  if is_list_item line then
    let end_list_i :=
      find_next_index text_lines (fun l => negb (is_list_item l)) (i + 1) in
    Ret (Chain (Some (List (slice i end_list_i text_lines)))
           is_ignoring end_list_i)
  else if is_quote line then
    let end_quote_i :=
      find_next_index text_lines (fun l => negb (is_quote l)) (i + 1) in
    Ret (Chain
           (Some (Quote (map (lstrip_chars "> ")
                           (slice i end_quote_i text_lines))))
           is_ignoring end_quote_i)
  else
  match detect_figure line with
  | Some settings =>
    next <- get text_lines (i + 1) ;;;
    let alt_data := re_match caption_re next in
    _ <- assert (is_some alt_data)
           ("Caption of figure <" ++ hd "" settings ++ "> badly formed") ;;;
    let label := strip (match alt_data with
                        | Some m => group 1 m | None => "" end) in
    let caption := strip (match alt_data with
                          | Some m => group 2 m | None => "" end) in
    Ret (Chain (Some (Figure settings label caption fig_path))
           is_ignoring (i + 2))
  | None =>
  match detect_footnote line with
  | Some (mark, text) =>
    Ret (Chain (Some (Footnote mark [text])) is_ignoring (i + 1))
  | None =>
    let end_paragraph_i :=
      find_next_index text_lines is_end_paragraph (i + 1) in
    Ret (Chain (Some (Paragraph (slice i end_paragraph_i text_lines)))
           is_ignoring end_paragraph_i)
  end end end end.

(** The end of an iteration: the block, when there is one, gets its
    parent and is appended unless the scanner is ignoring. *)
Definition append_block (st : scan_state) (c : chain_result) : scan_state :=
  match new_block c with
  | Some b =>
    if negb (new_ignoring c) then
      ScanState (content_blocks st ++ [Block b parent_arg])
                (new_ignoring c) (new_i c)
    else ScanState (content_blocks st) (new_ignoring c) (new_i c)
  | None => ScanState (content_blocks st) (new_ignoring c) (new_i c)
  end.

(** One iteration of the [while] loop. *)
Definition iteration (st : scan_state) : result scan_state :=
  c <- chain (is_ignoring st) (i st) ;;;
  Ret (append_block st c).

(** The [while] loop; [None] when the fuel runs out before the loop ends. *)
Fixpoint scan (fuel : nat) (st : scan_state) : option (result scan_state) :=
  if i st <? length text_lines then
    match fuel with
    | 0 => None
    | S fuel' =>
      match iteration st with
      | Ret st' => scan fuel' st'
      | Raise e => Some (Raise e)
      end
    end
  else Some (Ret st).
End Scanner.

(** The first argument of [to_blocks]: a string or a list of lines. *)
Inductive text_arg : Type :=
| Text (s : str)
| Lines (l : list str).

Definition lines_of (t : text_arg) : list str :=
  match t with
  | Text s => splitlines s
  | Lines l => l
  end.

Definition TAB : ascii := "009"%char.

Definition warning : str :=
  [TAB; TAB] ++ "WARNING: did not find a matching separator".

(** [to_blocks(text_lines, fig_path, parent)]: what is printed and the list
    returned, or the exception raised. *)
Definition to_blocks (text : text_arg) (fig_path : str)
  (parent_arg : option handle) : option (result (list str * list block)) :=
  let text_lines := lines_of text in
  match scan text_lines fig_path parent_arg (length text_lines)
          (ScanState [] false 0) with
  | Some (Ret st) =>
    Some (Ret (if is_ignoring st then [warning] else [],
               content_blocks st))
  | Some (Raise e) => Some (Raise e)
  | None => None
  end.

(* ================================================================== *)
(** * The inline transformer *)

Definition LATEX_SPECIAL_CHARS : str := "$%_}&#{".

Definition backslash : ascii := "\"%char.

(** The patterns of [format_text], in the order of their first use. *)

(** [\$.*?\$] *)
Definition equation_re : regex := lit "$" ;; star_lazy isdot ;; lit "$".
(** [\[\[.*?]]] *)
Definition link_re : regex := lit "[[" ;; star_lazy isdot ;; lit "]]".
(** [`.*?`] *)
Definition code_re : regex := lit "`" ;; star_lazy isdot ;; lit "`".

(** [(?<!\[)(\[.*])(?!])], replaced by [{\1}] *)
Definition bracket_re : regex :=
  NotBehind (ch "[") ;; Grp 1 (lit "[" ;; star isdot ;; lit "]") ;;
  NotAhead (ch "]").

(** The class [[18|19|20]]: one character out of 1, 8, |, 9, 2 and 0. *)
Definition year_class : ascii -> bool := one_of "18|19|20".

(** [`(\w+[18|19|20]\d{2}\w* )`], replaced by [[[\1]]] *)
Definition code_key_re : regex :=
  lit "`" ;;
  Grp 1 (plus isword ;; Chr year_class ;; times isdigit 2 ;; star isword) ;;
  lit "`".

(** The class [[,|\s]]. *)
Definition join_class : ascii -> bool :=
  fun c => one_of ",|" c || isspace c.

(** [(\w+[18|19|20]\d{2}\w*?)\]\][,|\s]{0,2}\[\[(\w+[18|19|20]\d{2}\w*?)],
    replaced by [\1,\2] *)
Definition join_re : regex :=
  Grp 1 (plus isword ;; Chr year_class ;; times isdigit 2 ;;
         star_lazy isword) ;;
  lit "]]" ;; Rep join_class 0 (Some 2) true ;; lit "[[" ;;
  Grp 2 (plus isword ;; Chr year_class ;; times isdigit 2 ;;
         star_lazy isword).

(** [\[\[(\w+[18|19|20]\d{2}\S*?)\]\]], replaced by [\\cite{\1}] *)
Definition note_key_re : regex :=
  lit "[[" ;;
  Grp 1 (plus isword ;; Chr year_class ;; times isdigit 2 ;;
         star_lazy (fun c => negb (isspace c))) ;;
  lit "]]".

(** [`(fig:\S*?)`] and [`(eq:\S*?)`], replaced by [\\ref{\1}] *)
Definition ref_re (prefix : str) : regex :=
  lit "`" ;; Grp 1 (lit prefix ;; star_lazy (fun c => negb (isspace c))) ;;
  lit "`".

(** [`(.*?)`], replaced by [\\texttt{\1}] *)
Definition monospace_re : regex :=
  lit "`" ;; Grp 1 (star_lazy isdot) ;; lit "`".

(** [(?<!\* )\*Q([^\*].*?)Q\*(?!\* )] with Q the double quote, replaced by
    [\\textquote{\1}] *)
Definition quoted_italic_re : regex :=
  NotBehind (ch "*") ;; lit "*" ;; Chr (ch dquote) ;;
  Grp 1 (Chr (not_ch "*") ;; star_lazy isdot) ;;
  Chr (ch dquote) ;; lit "*" ;; NotAhead (ch "*").

(** [(?<!\* )\*([^\*].*?)\*(?!\* )], replaced by [\\textit{\1}] *)
Definition italic_re : regex :=
  NotBehind (ch "*") ;; lit "*" ;;
  Grp 1 (Chr (not_ch "*") ;; star_lazy isdot) ;;
  lit "*" ;; NotAhead (ch "*").

(** [\*\*([^\*].*?)\*\*], replaced by [\\textbf{\1}] *)
Definition bold_re : regex :=
  lit "**" ;; Grp 1 (Chr (not_ch "*") ;; star_lazy isdot) ;; lit "**".

(** [==([^=].*?)==], replaced by [\\hl{\1}] *)
Definition highlight_re : regex :=
  lit "==" ;; Grp 1 (Chr (not_ch "=") ;; star_lazy isdot) ;; lit "==".

(** A replacement [\\name{\1}]. *)
Definition command (name : str) : list titem :=
  [TLit (backslash :: name ++ "{"); TGrp 1; TLit "}"].

(** The placeholders. *)
Definition EQ_PLACEHOLDER : str := "<EQ-PLACEHOLDER>".
Definition LINK_PLACEHOLDER : str := "<LINK-PLACEHOLDER>".
Definition CODE_PLACEHOLDER : str := "<CODE-PLACEHOLDER>".

(** The three lists [re.findall] fills and the line with the placeholders
    in their place. *)
Record protected : Type := Protected {
  equations : list str;
  links : list str;
  codes : list str;
  masked : str
}.

Definition protect (line : str) : protected :=
  let equations := re_findall equation_re line in
  let links := re_findall link_re line in
  let codes := re_findall code_re line in
  let line := re_sub equation_re [TLit EQ_PLACEHOLDER] line in
  let line := re_sub link_re [TLit LINK_PLACEHOLDER] line in
  let line := re_sub code_re [TLit CODE_PLACEHOLDER] line in
  Protected equations links codes line.

(** [for special_char in LATEX_SPECIAL_CHARS: line = line.replace(...)] *)
Definition escape (line : str) : str :=
  fold_left (fun l special_char =>
               replace [special_char] [backslash; special_char] l)
            LATEX_SPECIAL_CHARS line.

Definition guard_brackets (line : str) : str :=
  re_sub bracket_re [TLit "{"; TGrp 1; TLit "}"] line.

(** [for x in queue: line = line.replace(placeholder, x, 1)] *)
Definition put_back (placeholder : str) (queue : list str) (line : str) : str :=
  fold_left (fun l x => replace_first placeholder x l) queue line.

Definition restore (p : protected) (line : str) : str :=
  let line := put_back LINK_PLACEHOLDER (links p) line in
  let line := put_back EQ_PLACEHOLDER (equations p) line in
  put_back CODE_PLACEHOLDER (codes p) line.

(** The part of the loop body under SPECIAL CHARACTERS. *)
Definition special_characters (line : str) : str :=
  let p := protect line in
  restore p (guard_brackets (escape (masked p))).

Definition join_step (line : str) : str :=
  re_sub join_re [TGrp 1; TLit ","; TGrp 2] line.

(** [while joining: ...]; [None] when the fuel runs out first. *)
Fixpoint join_loop (fuel : nat) (line : str) : option str :=
  match fuel with
  | 0 => None
  | S fuel' =>
    let length_before := length line in
    let line := join_step line in
    if negb (length line =? length_before) then join_loop fuel' line
    else Some line
  end.

Definition citation_keys (line : str) : str :=
  re_sub code_key_re [TLit "[["; TGrp 1; TLit "]]"] line.

Definition lower_citations (line : str) : str :=
  re_sub note_key_re (command "cite") line.

Definition lower_references (line : str) : str :=
  let line := re_sub (ref_re "fig:") (command "ref") line in
  re_sub (ref_re "eq:") (command "ref") line.

(** The part of the loop body under TEXT FORMATTING. *)
Definition text_formatting (line : str) : str :=
  let line := re_sub monospace_re (command "texttt") line in
  let line := re_sub quoted_italic_re (command "textquote") line in
  let line := re_sub italic_re (command "textit") line in
  let line := re_sub bold_re (command "textbf") line in
  re_sub highlight_re (command "hl") line.

(** The body of the [for] loop of [format_text], on one line; the joining
    loop gets a fuel of one more than the length of the line it starts
    from. *)
Definition format_line (line : str) : option str :=
  let line := special_characters line in
  let line := citation_keys line in
  match join_loop (S (length line)) line with
  | Some line =>
    Some (text_formatting (lower_references (lower_citations line)))
  | None => None
  end.

Fixpoint all_some {A} (l : list (option A)) : option (list A) :=
  match l with
  | [] => Some []
  | Some x :: t =>
    match all_some t with Some r => Some (x :: r) | None => None end
  | None :: _ => None
  end.

(** [format_text(text_lines_origin)] *)
Definition format_text (text_lines_origin : list str) : option (list str) :=
  all_some (map format_line text_lines_origin).

(* ================================================================== *)
(** * The run of a scan

    The iterations a scan goes through, for the statements about the lines
    it consumes: where the pointer stood, where the iteration left it, the
    flag after the iteration and the block it built, if any. *)

Record event : Type := Event {
  from_i : nat;
  upto_i : nat;
  ignoring : bool;
  built : option block_ctor
}.

Section Run.
Variable text_lines : list str.
Variable fig_path : str.
Variable parent_arg : option handle.

(** The events of [scan fuel st], up to the end of the loop or the
    iteration that raises. *)
Fixpoint run (fuel : nat) (st : scan_state) : list event :=
  if i st <? length text_lines then
    match fuel with
    | 0 => []
    | S fuel' =>
      match chain text_lines fig_path (is_ignoring st) (i st) with
      | Ret c =>
        Event (i st) (new_i c) (new_ignoring c) (new_block c)
        :: run fuel' (append_block parent_arg st c)
      | Raise _ => []
      end
    end
  else [].

(** The states the loop of [to_blocks] goes through. *)
Inductive reachable : scan_state -> Prop :=
| reach_init : reachable (ScanState [] false 0)
| reach_step st st' :
    reachable st -> i st < length text_lines ->
    iteration text_lines fig_path parent_arg st = Ret st' ->
    reachable st'.
End Run.

(** A stretch of iterations that all begin with the ignore flag set. *)
Inductive ignored_stretch (text_lines : list str) (fig_path : str)
  (parent_arg : option handle) : scan_state -> scan_state -> Prop :=
| stretch_nil st : ignored_stretch text_lines fig_path parent_arg st st
| stretch_step st st1 st2 :
    is_ignoring st = true -> i st < length text_lines ->
    iteration text_lines fig_path parent_arg st = Ret st1 ->
    ignored_stretch text_lines fig_path parent_arg st1 st2 ->
    ignored_stretch text_lines fig_path parent_arg st st2.

(** [tiles a es c]: the events [es] consume the lines from [a] up to [c]
    one range after the other, each range starting where the one before it
    ends and none of them empty. *)
Inductive tiles : nat -> list event -> nat -> Prop :=
| tiles_nil a : tiles a [] a
| tiles_cons a e es c :
    from_i e = a -> a < upto_i e -> tiles (upto_i e) es c ->
    tiles a (e :: es) c.

(** The lines an event consumed. *)
Definition lines_of_event (text_lines : list str) (e : event) : list str :=
  slice (from_i e) (upto_i e) text_lines.

(** The blocks of the events that were not ignored. *)
Definition surfaced (parent_arg : option handle) (es : list event)
  : list block :=
  flat_map (fun e =>
              match built e with
              | Some b => if ignoring e then [] else [Block b parent_arg]
              | None => []
              end) es.

(* ================================================================== *)
(** * The priority order of the detectors, as the specification words it *)

Inductive detector : Type :=
| D_ignore_line | D_separator | D_header | D_unlabeled_equation
| D_labeled_equation | D_list | D_quote | D_figure | D_footnote
| D_paragraph.

Definition fires (d : detector) (line : str) : bool :=
  match d with
  | D_ignore_line => is_ignore_line line
  | D_separator => is_separator_line line
  | D_header => is_some (detect_header line None)
  | D_unlabeled_equation => is_equation_dollars line
  | D_labeled_equation => is_some (detect_labeled_equation line)
  | D_list => is_list_item line
  | D_quote => is_quote line
  | D_figure => is_some (detect_figure line)
  | D_footnote => is_some (detect_footnote line)
  | D_paragraph => true
  end.

Definition spec_priority_order : list detector :=
  [D_ignore_line; D_separator; D_header; D_unlabeled_equation;
   D_labeled_equation; D_list; D_quote; D_figure; D_footnote; D_paragraph].

(** The earliest detector of the order that fires on the line. *)
Definition spec_first_firing (line : str) : option detector :=
  find (fun d => fires d line) spec_priority_order.

(** What kind of step a chain result is: the detector whose branch leaves
    such a result. *)
Definition branch_taken (ign : bool) (r : result chain_result)
  : detector -> Prop :=
  fun d =>
    match d, r with
    | D_ignore_line, Ret (Chain None ign' _) => ign' = ign
    | D_separator, Ret (Chain None ign' _) => ign' = negb ign
    | D_header, Ret (Chain (Some (Section _ _ _ _)) _ _) => True
    | D_unlabeled_equation, Ret (Chain (Some (Equation _ None)) _ _) => True
    | D_labeled_equation, Ret (Chain (Some (Equation _ (Some _))) _ _) => True
    | D_labeled_equation, Raise e =>
      e = IndexError
      \/ e = AssertionError "Equation dollars must be alone in a line"
    | D_list, Ret (Chain (Some (List _)) _ _) => True
    | D_quote, Ret (Chain (Some (Quote _)) _ _) => True
    | D_figure, Ret (Chain (Some (Figure _ _ _ _)) _ _) => True
    | D_figure, Raise e =>
      e = IndexError
      \/ exists name,
           e = AssertionError
                 ("Caption of figure <" ++ name ++ "> badly formed")
    | D_footnote, Ret (Chain (Some (Footnote _ _)) _ _) => True
    | D_paragraph, Ret (Chain (Some (Paragraph _)) _ _) => True
    | _, _ => False
    end.

(* ================================================================== *)
(** * The first character of a match

    For the proofs by evaluation on lines given in part only. *)

(** The patterns that read nothing. *)
Definition assertion (r : regex) : bool :=
  match r with
  | Eps | Bol | Eol | NotBehind _ | NotAhead _ => true
  | _ => false
  end.

(** A class the first character of every match of the pattern belongs to,
    where the shape of the pattern gives one. *)
Fixpoint first_class (r : regex) : option (ascii -> bool) :=
  match r with
  | Chr p => Some p
  | Rep p (S _) _ _ => Some p
  | Seq r1 r2 =>
    match first_class r1 with
    | Some p => Some p
    | None => if assertion r1 then first_class r2 else None
    end
  | Grp _ r1 => first_class r1
  | _ => None
  end.

(** The least number of characters a match of the pattern reads. *)
Fixpoint min_length (r : regex) : nat :=
  match r with
  | Chr _ => 1
  | Rep _ lo _ _ => lo
  | Seq r1 r2 => min_length r1 + min_length r2
  | Alt r1 r2 => Nat.min (min_length r1) (min_length r2)
  | Grp _ r1 => min_length r1
  | _ => 0
  end.

(** The patterns [format_text] substitutes or searches for. *)
Definition patterns_of_format_text : list regex :=
  [equation_re; link_re; code_re; bracket_re; code_key_re; join_re;
   note_key_re; ref_re "fig:"; ref_re "eq:"; monospace_re; quoted_italic_re;
   italic_re; bold_re; highlight_re].

(** The characters of the texts the statements on protected spans are
    about: no line feed and none of the characters that open or close a
    span or a placeholder. *)
Definition quiet (c : ascii) : bool := isdot c && negb (mem c "`$[]<").

(** The texts that do not hold the character that opens a placeholder. *)
Definition no_opening (s : str) : bool :=
  forallb (fun y => negb (ch "<" y)) s.

(** The characters of the texts the statements on emphasis are about: no
    line feed, backtick, star, equals sign or double quote. *)
Definition calm (c : ascii) : bool :=
  isdot c && negb (mem c ("`*=" ++ [dquote])).

(* ================================================================== *)
(** * The keys of citations *)

(** The texts the pattern of a key accepts, as the code has the pattern:
    word characters, at least one, then one character of the class
    [year_class], two digits, and word characters. *)
Definition loose_key (s : str) : Prop :=
  exists w y d1 d2 v,
    s = w ++ y :: d1 :: d2 :: v /\ w <> [] /\ forallb isword w = true /\
    year_class y = true /\ isdigit d1 = true /\ isdigit d2 = true /\
    forallb isword v = true.

(** The keys as the specification words them: a word that holds a year of
    four digits with the prefix 18, 19 or 20. *)
Definition spec_year_key (s : str) : Prop :=
  exists w p d1 d2 v,
    s = w ++ p ++ d1 :: d2 :: v /\ In p ["18"; "19"; "20"] /\
    forallb isword w = true /\ isdigit d1 = true /\ isdigit d2 = true /\
    forallb isword v = true.

(* ================================================================== *)
(** * Failures, well-formed blocks and running text *)

(** The two ways a branch that looks at the next line fails at line [i]:
    there is no next line, or the next line is not what the branch
    asserts. *)
Definition lookahead_failure (text_lines : list str) (i : nat) (line : str)
  (e : exn) : Prop :=
  (exists label,
     detect_labeled_equation line = Some label /\
     (nth_error text_lines (i + 1) = None /\ e = IndexError
      \/ exists next,
           nth_error text_lines (i + 1) = Some next /\
           is_equation_dollars next = false /\
           e = AssertionError "Equation dollars must be alone in a line"))
  \/
  (exists settings,
     detect_figure line = Some settings /\
     (nth_error text_lines (i + 1) = None /\ e = IndexError
      \/ exists next,
           nth_error text_lines (i + 1) = Some next /\
           re_match caption_re next = None /\
           e = AssertionError
                 ("Caption of figure <" ++ hd "" settings
                  ++ "> badly formed"))).

(** What holds of the content of every block the scanner builds. *)
Definition well_formed (b : block_ctor) : bool :=
  match b with
  | Section h_level title content _ =>
    (1 <=? h_level) && (h_level <=? 3)
    && forallb (fun l => negb (is_some (detect_header l (Some h_level))))
         content
  | Paragraph content =>
    negb (length content =? 0)
    && forallb (fun l => negb (is_end_paragraph l)) content
  | Equation content _ =>
    forallb (fun l => negb (is_equation_dollars l)) content
  | List content =>
    negb (length content =? 0) && forallb is_list_item content
  | Quote content =>
    negb (length content =? 0)
    && forallb (fun l => negb (startswith ">" l) && negb (startswith " " l))
         content
  | Figure settings _ _ _ => negb (length settings =? 0)
  | Footnote footnote_mark content =>
    negb (length footnote_mark =? 0) && (length content =? 1)
  end.

(** A chain result with the pointer moved by [n]. *)
Definition moved (n : nat) (r : result chain_result) : result chain_result :=
  match r with
  | Ret c => Ret (Chain (new_block c) (new_ignoring c) (n + new_i c))
  | Raise e => Raise e
  end.

(** A state of the scan behind a prefix of [n] lines that gave the blocks
    [cs]. *)
Definition resumed (cs : list block) (n : nat) (st : scan_state)
  : scan_state :=
  ScanState (cs ++ content_blocks st) (is_ignoring st) (n + i st).

(** The characters that open no markup of the inline transformer. *)
Definition plain (c : ascii) : bool := negb (mem c "$[`*=").

(** The characters of a key. *)
Definition key_char (c : ascii) : bool := isword c || year_class c.

(** The characters of running text: no line feed and none of the
    characters of the markup of the inline transformer. *)
Definition prose (c : ascii) : bool := quiet c && calm c.

(** The characters of the key of a reference. *)
Definition label_char (c : ascii) : bool := prose c && negb (isspace c).

(* ================================================================== *)
(** * What a match is

    [matches r st st']: the pattern [r] can take the attempt from the state
    [st] to the state [st'].  [exec] finds such a state (lemma
    [exec_sound]); which one it finds is fixed by the order of its search. *)

Inductive matches : regex -> mstate -> mstate -> Prop :=
| M_Eps st : matches Eps st st
| M_Chr p c t st :
    rest st = c :: t -> p c = true -> matches (Chr p) st (advance c t st)
| M_Rep p lo hi greedy m st rs :
    rest st = m ++ rs -> forallb p m = true -> lo <= length m ->
    (forall h, hi = Some h -> length m <= h) ->
    matches (Rep p lo hi greedy) st (MState (rev m ++ seen st) rs (groups st))
| M_Seq r1 r2 st st1 st2 :
    matches r1 st st1 -> matches r2 st1 st2 -> matches (Seq r1 r2) st st2
| M_Alt_l r1 r2 st st' : matches r1 st st' -> matches (Alt r1 r2) st st'
| M_Alt_r r1 r2 st st' : matches r2 st st' -> matches (Alt r1 r2) st st'
| M_Grp n r st st' : matches r st st' -> matches (Grp n r) st (capture n st st')
| M_Bol st : seen st = [] -> matches Bol st st
| M_Eol st : rest st = [] \/ rest st = [LF] -> matches Eol st st
| M_NotBehind p st :
    (forall c t, seen st = c :: t -> p c = false) -> matches (NotBehind p) st st
| M_NotAhead p st :
    (forall c t, rest st = c :: t -> p c = false) -> matches (NotAhead p) st st.

(** [st'] continues the attempt of [st]: it has read the text [m] more. *)
Definition reads (m : str) (st st' : mstate) : Prop :=
  seen st' = rev m ++ seen st /\ rest st = m ++ rest st'.

(* ================================================================== *)
(** * Properties of the string functions *)

Lemma dropwhile_app_stop p l c :
  p c = false -> exists x, dropwhile p (l ++ [c]) = x ++ [c].
Proof.
  intros Hc. induction l as [|a l IH]; simpl.
  - rewrite Hc. now exists [].
  - destruct (p a).
    + exact IH.
    + now exists (a :: l).
Qed.

(** A string that starts with a character that is no space keeps it under
    [strip]. *)
Lemma strip_cons c t :
  isspace c = false -> exists t', strip (c :: t) = c :: t'.
Proof.
  intros Hc. unfold strip, lstrip, rstrip. simpl. rewrite Hc. simpl.
  destruct (dropwhile_app_stop isspace (rev t) c Hc) as [x Hx].
  rewrite Hx, rev_app_distr. simpl. now exists (rev x).
Qed.

Lemma dropwhile_hd p s c t :
  dropwhile p s = c :: t -> p c = false.
Proof.
  induction s as [|a s IH]; simpl; [discriminate|].
  destruct (p a) eqn:E; [exact IH|]. intros H. now inversion H; subst.
Qed.

Lemma rev_dropwhile_hd p s c t :
  rev (dropwhile p (rev s)) = c :: t -> exists t', s = c :: t'.
Proof.
  intros H.
  assert (Hs : exists y, rev s = y ++ dropwhile p (rev s)).
  { generalize (rev s). intros l. induction l as [|a l [y Hy]]; simpl.
    - now exists [].
    - destruct (p a); [|now exists []].
      exists (a :: y). simpl. now rewrite <- Hy. }
  destruct Hs as [y Hy].
  apply (f_equal (@rev ascii)) in Hy.
  rewrite rev_involutive, rev_app_distr, H in Hy. simpl in Hy.
  now exists (t ++ rev y).
Qed.

(** The first character of [strip s] is the first character of [s] that is
    no space. *)
Lemma strip_hd s c t :
  strip s = c :: t ->
  isspace c = false /\
  match s with
  | [] => False
  | x :: _ => x = c \/ isspace x = true
  end.
Proof.
  unfold strip, rstrip, lstrip. intros H.
  destruct (rev_dropwhile_hd _ _ _ _ H) as [t' Ht'].
  split; [exact (dropwhile_hd _ _ _ _ Ht')|].
  destruct s as [|x s]; simpl in Ht'; [discriminate|].
  destruct (isspace x) eqn:E; [now right|].
  left. now inversion Ht'.
Qed.

Lemma str_eqb_eq a b : str_eqb a b = true <-> a = b.
Proof.
  revert b. induction a as [|x a IH]; intros [|y b]; simpl; split;
    try discriminate; try reflexivity.
  - intros H. apply andb_true_iff in H. destruct H as [H1 H2].
    apply Ascii.eqb_eq in H1. apply IH in H2. now subst.
  - intros H. inversion H; subst. rewrite Ascii.eqb_refl. simpl. now apply IH.
Qed.

(* ================================================================== *)
(** * Properties of the matcher *)

Lemma rep_greedy_sound p g k rs : forall lo hi sn res,
  rep_greedy p g k lo hi sn rs = Some res ->
  exists m rs', rs = m ++ rs' /\ forallb p m = true /\ lo <= length m /\
    (forall h, hi = Some h -> length m <= h) /\
    k (MState (rev m ++ sn) rs' g) = Some res.
Proof.
  assert (Stop : forall lo (hi : option nat) sn rs0 res,
    (if lo =? 0 then k (MState sn rs0 g) else None) = Some res ->
    exists m rs', rs0 = m ++ rs' /\ forallb p m = true /\ lo <= length m /\
      (forall h, hi = Some h -> length m <= h) /\
      k (MState (rev m ++ sn) rs' g) = Some res).
  { intros lo hi sn rs0 res H. destruct (Nat.eqb_spec lo 0); [|discriminate].
    exists [], rs0. simpl. repeat split; auto; intros; lia. }
  induction rs as [|c t IH]; intros lo hi sn res H; simpl in H.
  - destruct (exhausted hi); now apply Stop.
  - destruct (exhausted hi) eqn:Ex; [now apply Stop|].
    destruct (p c) eqn:Pc; [|now apply Stop].
    destruct (rep_greedy p g k (pred lo) (dec hi) (c :: sn) t) eqn:R;
      [|now apply Stop].
    inversion H; subst. apply IH in R.
    destruct R as (m & rs' & -> & Hm & Hlo & Hhi & Hk).
    exists (c :: m), rs'. simpl. rewrite Pc, Hm. rewrite <- app_assoc.
    repeat split; auto; try lia.
    intros h ->. destruct h; [discriminate|].
    specialize (Hhi h eq_refl). lia.
Qed.

Lemma rep_lazy_sound p g k rs : forall lo hi sn res,
  rep_lazy p g k lo hi sn rs = Some res ->
  exists m rs', rs = m ++ rs' /\ forallb p m = true /\ lo <= length m /\
    (forall h, hi = Some h -> length m <= h) /\
    k (MState (rev m ++ sn) rs' g) = Some res.
Proof.
  induction rs as [|c t IH]; intros lo hi sn res H; simpl in H.
  - destruct (Nat.eqb_spec lo 0).
    + destruct (k (MState sn [] g)) eqn:K.
      * inversion H; subst. exists [], []. simpl.
        repeat split; auto; intros; lia.
      * destruct (exhausted hi); discriminate.
    + destruct (exhausted hi); discriminate.
  - assert (More :
      (if exhausted hi then None
       else if p c then rep_lazy p g k (pred lo) (dec hi) (c :: sn) t
            else None) = Some res ->
      exists m rs', c :: t = m ++ rs' /\ forallb p m = true /\
        lo <= length m /\ (forall h, hi = Some h -> length m <= h) /\
        k (MState (rev m ++ sn) rs' g) = Some res).
    { intros M. destruct (exhausted hi) eqn:Ex; [discriminate|].
      destruct (p c) eqn:Pc; [|discriminate].
      apply IH in M. destruct M as (m & rs' & -> & Hm & Hlo & Hhi & Hk).
      exists (c :: m), rs'. simpl. rewrite Pc, Hm, <- app_assoc.
      repeat split; auto; try lia.
      intros h ->. destruct h; [discriminate|].
      specialize (Hhi h eq_refl). lia. }
    destruct (Nat.eqb_spec lo 0); [|now apply More].
    destruct (k (MState sn (c :: t) g)) eqn:K; [|now apply More].
    inversion H; subst. exists [], (c :: t). simpl.
    repeat split; auto; intros; lia.
Qed.

(** Whatever [exec] returns comes from a match of the pattern followed by a
    success of the continuation. *)
Lemma exec_sound r : forall st k res,
  exec r st k = Some res ->
  exists st', matches r st st' /\ k st' = Some res.
Proof.
  induction r; intros st k res H; simpl in H.
  - exists st. split; [constructor|assumption].
  - destruct (rest st) as [|c t] eqn:R; [discriminate|].
    destruct (p c) eqn:Pc; [|discriminate].
    exists (advance c t st). split; [now constructor|assumption].
  - destruct greedy;
      [apply rep_greedy_sound in H | apply rep_lazy_sound in H];
      destruct H as (m & rs' & R & Hm & Hlo & Hhi & Hk);
      (eexists; split; [now apply M_Rep with (m := m) (rs := rs')|exact Hk]).
  - apply IHr1 in H. destruct H as (st1 & M1 & H).
    apply IHr2 in H. destruct H as (st2 & M2 & H).
    exists st2. split; [now apply M_Seq with st1|assumption].
  - destruct (exec r1 st k) eqn:E.
    + inversion H; subst. apply IHr1 in E. destruct E as (st' & M & K).
      exists st'. split; [now apply M_Alt_l|assumption].
    + apply IHr2 in H. destruct H as (st' & M & K).
      exists st'. split; [now apply M_Alt_r|assumption].
  - apply IHr in H. destruct H as (st' & M & K).
    exists (capture n st st'). split; [now constructor|assumption].
  - destruct (seen st) eqn:S; [|discriminate].
    exists st. split; [now constructor|assumption].
  - exists st. split; [constructor|].
    + destruct (rest st) as [|c [|d t]]; [now left| |discriminate].
      destruct (Ascii.eqb_spec c LF); [subst; now right|discriminate].
    + destruct (rest st) as [|c [|d t]]; [assumption| |discriminate].
      destruct (Ascii.eqb c LF); [assumption|discriminate].
  - exists st. split.
    + constructor. intros c t S. rewrite S in H. now destruct (p c).
    + destruct (seen st) as [|c t]; [assumption|]. now destruct (p c).
  - exists st. split.
    + constructor. intros c t S. rewrite S in H. now destruct (p c).
    + destruct (rest st) as [|c t]; [assumption|]. now destruct (p c).
Qed.

(** A match reads a piece of the subject and nothing else. *)
Lemma matches_reads r st st' :
  matches r st st' -> exists m, reads m st st'.
Proof.
  induction 1; unfold reads in *; simpl.
  - now exists [].
  - exists [c]. simpl. now rewrite H.
  - now exists m.
  - destruct IHmatches1 as (m1 & S1 & R1), IHmatches2 as (m2 & S2 & R2).
    exists (m1 ++ m2). rewrite S2, S1, R1, R2, rev_app_distr, !app_assoc.
    now split.
  - assumption.
  - assumption.
  - assumption.
  - now exists [].
  - now exists [].
  - now exists [].
  - now exists [].
Qed.

Lemma matches_min_length r st st' :
  matches r st st' ->
  length (seen st) + min_length r <= length (seen st').
Proof.
  induction 1; simpl; try lia.
  rewrite length_app, length_rev. lia.
Qed.

(** No pattern of [format_text] matches the empty string: the case of an
    empty match in [sub_go] and [findall_go] does not arise. *)
Lemma patterns_read_something r sn rs st :
  In r patterns_of_format_text ->
  attempt r sn rs = Some st -> 0 < consumed sn st.
Proof.
  intros Hr A. unfold attempt in A. apply exec_sound in A.
  destruct A as (st' & M & K). inversion K; subst; clear K.
  apply matches_min_length in M. unfold consumed. simpl in M.
  assert (1 <= min_length r); [|lia].
  unfold patterns_of_format_text in Hr. simpl in Hr.
  repeat (destruct Hr as [<-|Hr]; [simpl; lia|]). contradiction.
Qed.

(* ================================================================== *)
(** * Properties of the scanner *)

Lemma find_from_spec {A} (expr : A -> bool) l : forall i j,
  find_from expr l i = Some j ->
  i <= j < i + length l /\
  (exists x, nth_error l (j - i) = Some x /\ expr x = true) /\
  (forall k x, k < j - i -> nth_error l k = Some x -> expr x = false).
Proof.
  induction l as [|a l IH]; intros i j H; simpl in H; [discriminate|].
  destruct (expr a) eqn:E.
  - inversion H; subst. simpl. rewrite Nat.sub_diag. split; [lia|split].
    + now exists a.
    + intros k x Hk. lia.
  - apply IH in H. destruct H as (B & (x & Hx & Ex) & Before).
    simpl. split; [lia|split].
    + exists x. replace (j - i) with (S (j - S i)) by lia. now split.
    + intros k y Hk Hy. destruct k as [|k]; simpl in Hy.
      * now inversion Hy; subst.
      * apply (Before k); [lia|assumption].
Qed.

Lemma find_from_none {A} (expr : A -> bool) l : forall i,
  find_from expr l i = None -> forall x, In x l -> expr x = false.
Proof.
  induction l as [|a l IH]; intros i H x Hin; simpl in *; [contradiction|].
  destruct (expr a) eqn:E; [discriminate|].
  destruct Hin as [->|Hin]; [assumption|]. now apply (IH (S i)).
Qed.

(** [find_next_index] returns the first index from [start] on at which
    [expr] holds, and the length of the list when there is none. *)
Lemma find_next_index_spec {A} (lst : list A) expr start :
  start <= length lst ->
  let e := find_next_index lst expr start in
  start <= e <= length lst /\
  (forall j x, start <= j < e -> nth_error lst j = Some x -> expr x = false) /\
  (e < length lst -> exists x, nth_error lst e = Some x /\ expr x = true).
Proof.
  intros Hs e. unfold find_next_index in e.
  destruct (find_from expr (skipn start lst) start) as [j|] eqn:F; subst e.
  - apply find_from_spec in F. rewrite length_skipn in F.
    destruct F as (B & (x & Hx & Ex) & Before).
    rewrite nth_error_skipn in Hx.
    replace (start + (j - start)) with j in Hx by lia.
    split; [lia|split].
    + intros k y Hk Hy. apply (Before (k - start)); [lia|].
      rewrite nth_error_skipn. now replace (start + (k - start)) with k by lia.
    + intros _. now exists x.
  - split; [lia|split; [|lia]].
    intros j x Hj Hx. apply (find_from_none _ _ _ F).
    apply nth_error_In with (n := j - start).
    rewrite nth_error_skipn. now replace (start + (j - start)) with j by lia.
Qed.

Lemma find_next_index_bounds {A} (lst : list A) expr start :
  start <= length lst ->
  start <= find_next_index lst expr start <= length lst.
Proof. intros Hs. now destruct (find_next_index_spec lst expr start Hs). Qed.

Lemma get_Ret {A} (l : list A) n x : get l n = Ret x -> nth_error l n = Some x.
Proof. unfold get. now destruct (nth_error l n); intros H; inversion H. Qed.

Lemma get_lt {A} (l : list A) n x : get l n = Ret x -> n < length l.
Proof.
  intros H. apply get_Ret in H. apply nth_error_Some. now rewrite H.
Qed.

(** Splits the hypothesis [H] on the tests it goes through. *)
Ltac split_tests H :=
  repeat match type of H with
         | context [match ?x with _ => _ end] =>
           destruct x eqn:?; try discriminate H
         end.

Section ScannerFacts.
Variable text_lines : list str.
Variable fig_path : str.


(** An iteration of the chain that does not raise moves the pointer
    forward, and by no more than one past the end of the lines. *)
Lemma chain_progress ign i c :
  chain text_lines fig_path ign i = Ret c ->
  i < new_i c <= S (length text_lines).
Proof.
  unfold chain, bind, assert. intros H.
  destruct (get text_lines i) as [line|] eqn:G; [|discriminate].
  pose proof (get_lt _ _ _ G) as Hi.
  split_tests H; inversion H; subst; clear H; simpl;
    try match goal with
        | G' : get text_lines (i + 1) = Ret _ |- _ => apply get_lt in G'
        end;
    try match goal with
        | |- context [find_next_index ?l ?e ?s] =>
          pose proof (@find_next_index_bounds _ l e s)
        end;
    lia.
Qed.
End ScannerFacts.

Section ScanFacts.
Variable text_lines : list str.
Variable fig_path : str.
Variable parent_arg : option handle.

Local Abbreviation step := (iteration text_lines fig_path parent_arg).
Local Abbreviation loop := (scan text_lines fig_path parent_arg).

Lemma i_append_block st c : i (append_block parent_arg st c) = new_i c.
Proof.
  unfold append_block. destruct (new_block c); [|reflexivity].
  now destruct (negb (new_ignoring c)).
Qed.

Lemma iteration_progress st st' :
  step st = Ret st' -> i st < i st' <= S (length text_lines).
Proof.
  unfold iteration, bind. intros H.
  destruct (chain text_lines fig_path (is_ignoring st) (i st)) as [c|] eqn:C;
    [|discriminate].
  inversion H; subst. rewrite i_append_block.
  exact (chain_progress _ _ _ _ _ C).
Qed.

(** The loop ends within as many iterations as there are lines left. *)
Lemma scan_terminates fuel : forall st,
  length text_lines - i st <= fuel -> exists r, loop fuel st = Some r.
Proof.
  induction fuel as [|fuel IH]; intros st Hf; simpl.
  - destruct (Nat.ltb_spec (i st) (length text_lines)); [lia|].
    now eexists.
  - destruct (Nat.ltb_spec (i st) (length text_lines)); [|now eexists].
    destruct (step st) as [st'|e] eqn:It; [|now eexists].
    apply IH. apply iteration_progress in It. lia.
Qed.

Lemma scan_more_fuel fuel : forall st r fuel',
  loop fuel st = Some r -> fuel <= fuel' -> loop fuel' st = Some r.
Proof.
  induction fuel as [|fuel IH]; intros st r fuel' H Hle; simpl in H.
  - destruct fuel'; simpl;
      destruct (i st <? length text_lines); try discriminate; assumption.
  - destruct fuel' as [|fuel']; [lia|]. simpl.
    destruct (i st <? length text_lines); [|assumption].
    destruct (step st); [|assumption].
    apply IH; [assumption|lia].
Qed.

(** From a state the loop goes through, the loop ends the way the whole
    scan does. *)
Lemma scan_reachable st :
  reachable text_lines fig_path parent_arg st ->
  loop (length text_lines) st
  = loop (length text_lines) (ScanState [] false 0).
Proof.
  induction 1 as [|st st' R IH Hi It]; [reflexivity|].
  rewrite <- IH.
  destruct (scan_terminates (length text_lines) st) as [r Hr]; [lia|].
  assert (Hs : loop (S (length text_lines)) st = Some r)
    by (apply scan_more_fuel with (fuel := length text_lines);
        [assumption|lia]).
  simpl in Hs. destruct (Nat.ltb_spec (i st) (length text_lines)); [|lia].
  rewrite It in Hs. congruence.
Qed.
End ScanFacts.

Lemma firstn_firstn_skipn {A} n m (l : list A) :
  firstn n l ++ firstn m (skipn n l) = firstn (n + m) l.
Proof.
  revert l. induction n as [|n IH]; intros l; [reflexivity|].
  destruct l as [|a l]; simpl.
  - now rewrite firstn_nil.
  - now rewrite IH.
Qed.

Lemma slice_app {A} a b c (l : list A) :
  a <= b <= c -> slice a b l ++ slice b c l = slice a c l.
Proof.
  intros H. unfold slice.
  replace (skipn b l) with (skipn (b - a) (skipn a l))
    by (rewrite skipn_skipn; f_equal; lia).
  rewrite firstn_firstn_skipn. f_equal. lia.
Qed.

Lemma slice_empty {A} a (l : list A) : slice a a l = [].
Proof. unfold slice. now rewrite Nat.sub_diag. Qed.

Lemma slice_all {A} c (l : list A) : length l <= c -> slice 0 c l = l.
Proof. intros H. unfold slice. simpl. rewrite Nat.sub_0_r.
now apply firstn_all2. Qed.

Lemma tiles_le a es c : tiles a es c -> a <= c.
Proof. induction 1; lia. Qed.

Lemma surfaced_cons parent_arg e es :
  surfaced parent_arg (e :: es)
  = surfaced parent_arg [e] ++ surfaced parent_arg es.
Proof. unfold surfaced. simpl. now rewrite app_nil_r. Qed.

Section RunFacts.
Variable text_lines : list str.
Variable fig_path : str.
Variable parent_arg : option handle.

Local Abbreviation loop := (scan text_lines fig_path parent_arg).
Local Abbreviation events := (run text_lines fig_path parent_arg).

Lemma surfaced_append_block st c :
  content_blocks (append_block parent_arg st c)
  = content_blocks st
    ++ surfaced parent_arg
         [Event (i st) (new_i c) (new_ignoring c) (new_block c)].
Proof.
  unfold append_block, surfaced. simpl.
  destruct (new_block c); simpl; [|now rewrite app_nil_r].
  destruct (new_ignoring c); simpl; now rewrite ?app_nil_r.
Qed.

(** The events of a scan consume the lines from the pointer on, range
    after range; a scan that returns has consumed them all and returns
    the blocks of its events that were not ignored. *)
Lemma run_spec fuel : forall st,
  length text_lines - i st <= fuel ->
  exists stop,
    tiles (i st) (events fuel st) stop /\
    concat (map (lines_of_event text_lines) (events fuel st))
    = slice (i st) stop text_lines /\
    forall st', loop fuel st = Some (Ret st') ->
      i st' = stop /\ length text_lines <= stop /\
      content_blocks st'
      = content_blocks st ++ surfaced parent_arg (events fuel st).
Proof.
  induction fuel as [|fuel IH]; intros st Hf.
  - exists (i st). simpl.
    destruct (Nat.ltb_spec (i st) (length text_lines)); [lia|].
    split; [constructor|]. split; [now rewrite slice_empty|].
    intros st' E. inversion E; subst. now rewrite app_nil_r.
  - simpl. unfold iteration, bind.
    destruct (Nat.ltb_spec (i st) (length text_lines)).
    2:{ exists (i st). split; [constructor|].
        split; [now rewrite slice_empty|].
        intros st' E. inversion E; subst. now rewrite app_nil_r. }
    destruct (chain text_lines fig_path (is_ignoring st) (i st))
      as [c|e] eqn:C.
    2:{ exists (i st). split; [constructor|].
        split; [now rewrite slice_empty|]. discriminate. }
    pose proof (chain_progress _ _ _ _ _ C) as P.
    destruct (IH (append_block parent_arg st c)) as (stop & T & L & F).
    { rewrite i_append_block. lia. }
    rewrite i_append_block in T, L.
    exists stop. split; [|split].
    + constructor; simpl; [reflexivity|lia|assumption].
    + simpl. rewrite L. unfold lines_of_event at 1. simpl.
      apply slice_app. apply tiles_le in T. lia.
    + intros st' E. destruct (F st' E) as (F1 & F2 & F3).
      split; [assumption|]. split; [assumption|].
      rewrite F3, surfaced_append_block, <- app_assoc.
      now rewrite <- surfaced_cons.
Qed.
End RunFacts.



(** C2.  At a scan position the chain of [to_blocks] takes the branch of the
    earliest detector, in the order ignore line, separator, header,
    unlabeled equation, labeled equation, list, quote, figure, footnote,
    paragraph, that fires on the line at the pointer: what the iteration
    leaves (the kind of block built, the flag, or the exception of the
    labeled-equation and figure branches) is what the branch of that
    detector leaves. *)
Theorem chain_takes_first_firing_detector text_lines fig_path ign i line :
  nth_error text_lines i = Some line ->
  exists d,
    spec_first_firing line = Some d /\
    branch_taken ign (chain text_lines fig_path ign i) d.
Proof.
  intros Hl. unfold spec_first_firing, spec_priority_order, chain, get.
  rewrite Hl. simpl.
  destruct (is_ignore_line line); [now exists D_ignore_line|].
  destruct (is_separator_line line); [now exists D_separator|].
  destruct (detect_header line None) as [[h_level title]|];
    [now exists D_header|]. simpl.
  destruct (is_equation_dollars line); [now exists D_unlabeled_equation|].
  destruct (detect_labeled_equation line) as [label|]; simpl.
  { exists D_labeled_equation. split; [reflexivity|].
    destruct (nth_error text_lines (i + 1)) as [next|]; simpl; [|now left].
    destruct (is_equation_dollars next); simpl; [exact I|now right]. }
  destruct (is_list_item line); [now exists D_list|].
  destruct (is_quote line); [now exists D_quote|].
  destruct (detect_figure line) as [settings|]; simpl.
  { exists D_figure. split; [reflexivity|].
    destruct (nth_error text_lines (i + 1)) as [next|]; simpl; [|now left].
    destruct (re_match caption_re next); simpl; [exact I|].
    right. now exists (hd "" settings). }
  destruct (detect_footnote line) as [[mark text]|];
    [now exists D_footnote|].
  now exists D_paragraph.
Qed.

(** The theorem at the line "---", on which the separator and the list
    detectors both fire. *)
Lemma chain_takes_first_firing_detector_witness :
  exists d,
    spec_first_firing "---" = Some d /\
    branch_taken false (chain ["---"; "- a"] "" false 0) d.
Proof.
  apply (chain_takes_first_firing_detector ["---"; "- a"] "" false 0 "---").
  reflexivity.
Defined.

(* ================================================================== *)
(** * Properties of the line classifier *)

(** Takes apart the hypotheses [matches r st st'] on a pattern whose head
    constructor is known. *)
Ltac inv_matches :=
  repeat match goal with
         | H : matches (Seq _ _) _ _ |- _ => inversion H; subst; clear H
         | H : matches (Alt _ _) _ _ |- _ => inversion H; subst; clear H
         | H : matches (Grp _ _) _ _ |- _ => inversion H; subst; clear H
         | H : matches (Chr _) _ _ |- _ => inversion H; subst; clear H
         | H : matches (Rep _ _ _ _) _ _ |- _ => inversion H; subst; clear H
         | H : matches Eps _ _ |- _ => inversion H; subst; clear H
         | H : matches Bol _ _ |- _ => inversion H; subst; clear H
         | H : matches Eol _ _ |- _ => inversion H; subst; clear H
         | H : matches (NotBehind _) _ _ |- _ => inversion H; subst; clear H
         | H : matches (NotAhead _) _ _ |- _ => inversion H; subst; clear H
         end.

(** Puts the upper bound of a repetition to use. *)
Ltac use_bounds :=
  repeat match goal with
         | H : forall h, Some ?n = Some h -> _ |- _ =>
           specialize (H n eq_refl)
         | H : forall h, None = Some h -> _ |- _ => clear H
         end.

Lemma between_read m s r g r' g' :
  between (MState s r g) (MState (rev m ++ s) r' g') = m.
Proof.
  unfold between. simpl. rewrite length_app, Nat.add_sub.
  rewrite firstn_app, Nat.sub_diag, firstn_all. simpl.
  rewrite app_nil_r. apply rev_involutive.
Qed.

(** A greedy repetition that may be empty, before a continuation that
    always succeeds, succeeds. *)
Lemma rep_greedy_total p g k rs : forall hi sn,
  (forall st, k st <> None) -> rep_greedy p g k 0 hi sn rs <> None.
Proof.
  intros hi sn Hk. revert hi sn.
  induction rs as [|c t IH]; intros hi sn; simpl.
  - destruct (exhausted hi); apply Hk.
  - destruct (exhausted hi); [apply Hk|].
    destruct (p c); [|apply Hk].
    destruct (rep_greedy p g k 0 (dec hi) (c :: sn) t) eqn:E; [discriminate|].
    now apply IH in E.
Qed.

Ltac greedy_tail_succeeds :=
  match goal with
  | |- context [rep_greedy ?p ?g ?k 0 ?hi ?sn ?rs] =>
    let E := fresh in
    destruct (rep_greedy p g k 0 hi sn rs) eqn:E;
    [discriminate | exfalso; revert E; apply rep_greedy_total; discriminate]
  end.

Lemma ch_eq c x : ch c x = true -> x = c.
Proof. unfold ch. apply Ascii.eqb_eq. Qed.

Lemma space_not c x : isspace c = false -> isspace x = true -> ch c x = false.
Proof.
  intros Hc Hx. unfold ch.
  destruct (Ascii.eqb_spec x c); [subst; congruence|reflexivity].
Qed.

(** Splits a hypothesis [forallb p [a; b; ...] = true] on a list of known
    length into its facts on [a], [b], ... *)
Ltac split_forallb Hm :=
  simpl in Hm;
  repeat match type of Hm with
         | (_ && _ = true) =>
           let H := fresh in
           apply andb_true_iff in Hm; destruct Hm as [H Hm]
         end;
  repeat match goal with
         | H : ch _ _ = true |- _ => apply ch_eq in H; subst
         end.

(** The lines [detect_header] accepts: one to three sharps, a space
    character, and the title up to the first line feed. *)
Lemma header_shape line lvl title :
  detect_header line None = Some (lvl, title) ->
  exists m c t,
    line = m ++ c :: t /\ forallb (ch "#") m = true /\ length m = lvl /\
    1 <= lvl <= 3 /\ isspace c = true.
Proof.
  unfold detect_header, re_match, attempt. intros H.
  destruct (exec header_re (MState [] line []) Some) as [res|] eqn:E;
    [|discriminate].
  apply exec_sound in E. destruct E as (st' & M & K).
  inversion K; subst; clear K.
  unfold header_re, star in M. inv_matches.
  unfold capture, advance, group in *. simpl in *.
  rewrite !between_read in H. inversion H; subst; clear H.
  use_bounds.
  do 3 eexists. split; [reflexivity|]. repeat split; auto.
Qed.

Lemma header_level_shape line n lvl title :
  detect_header line (Some (S n)) = Some (lvl, title) ->
  exists m c t,
    line = m ++ c :: t /\ forallb (ch "#") m = true /\ length m = S n /\
    lvl = S n /\ isspace c = true.
Proof.
  unfold detect_header, re_match, attempt. intros H.
  destruct (exec (header_level_re (S n)) (MState [] line []) Some)
    as [res|] eqn:E; [|discriminate].
  apply exec_sound in E. destruct E as (st' & M & K).
  inversion K; subst; clear K.
  unfold header_level_re, star, times in M. inv_matches.
  unfold capture, advance, group in *. simpl in *.
  rewrite !between_read in H. inversion H; subst; clear H.
  use_bounds.
  do 3 eexists. split; [reflexivity|]. repeat split; auto; lia.
Qed.

Lemma header_complete m c t :
  forallb (ch "#") m = true -> 1 <= length m <= 3 -> isspace c = true ->
  re_match header_re (m ++ c :: t) <> None /\
  re_match (header_level_re (length m)) (m ++ c :: t) <> None.
Proof.
  intros Hm Hl Hc.
  pose proof (space_not "#" c eq_refl Hc) as Hh.
  destruct m as [|a [|b [|d [|]]]]; simpl in Hl; try lia;
    split_forallb Hm;
    unfold re_match, attempt, header_re, header_level_re, star, times;
    simpl; rewrite ?Hh, ?Hc; simpl; split; greedy_tail_succeeds.
Qed.

(** Two ways of cutting a line into sharps and a first other character
    agree. *)
Lemma sharps_unique m : forall m' c c' t t',
  m ++ c :: t = m' ++ c' :: t' ->
  forallb (ch "#") m = true -> forallb (ch "#") m' = true ->
  ch "#" c = false -> ch "#" c' = false ->
  m = m'.
Proof.
  induction m as [|a m IH]; intros [|a' m'] c c' t t' E Hm Hm' Hc Hc';
    simpl in *.
  - reflexivity.
  - inversion E; subst. apply andb_true_iff in Hm'. destruct Hm'. congruence.
  - inversion E; subst. apply andb_true_iff in Hm. destruct Hm. congruence.
  - inversion E; subst.
    apply andb_true_iff in Hm. apply andb_true_iff in Hm'.
    f_equal. now apply (IH m' c c' t t'); tauto.
Qed.

(** [detect_header(l, n)] holds on the headers of level [n]. *)
Lemma header_same_level l n :
  1 <= n <= 3 ->
  is_some (detect_header l (Some n)) = true <->
  exists title, detect_header l None = Some (n, title).
Proof.
  intros Hn. destruct n as [|n]; [lia|]. split.
  - intros H. destruct (detect_header l (Some (S n))) as [[lvl t0]|] eqn:D;
      [|discriminate].
    apply header_level_shape in D.
    destruct D as (m & c & t & -> & Hm & Hl & _ & Hc).
    destruct (header_complete m c t Hm) as [G _]; [lia|assumption|].
    destruct (detect_header (m ++ c :: t) None) as [[lvl' t1]|] eqn:D'.
    + exists t1. f_equal. f_equal.
      apply header_shape in D'.
      destruct D' as (m' & c' & t' & E & Hm' & Hl' & _ & Hc').
      rewrite <- Hl', <- Hl. f_equal. symmetry.
      apply (sharps_unique m m' c c' t t' E Hm Hm');
        now apply space_not.
    + exfalso. unfold detect_header in D'.
      destruct (re_match header_re (m ++ c :: t)); [discriminate|].
      now apply G.
  - intros [title D]. apply header_shape in D.
    destruct D as (m & c & t & -> & Hm & Hl & Hb & Hc).
    destruct (header_complete m c t Hm) as [_ G]; [lia|assumption|].
    rewrite Hl in G. unfold detect_header.
    now destruct (re_match (header_level_re (S n)) (m ++ c :: t)).
Qed.

Lemma command_shape line cmd :
  detect_command line = Some cmd ->
  exists m c t,
    line = m ++ c :: t /\ forallb (ch "#") m = true /\ length m = 4 /\
    isspace c = true.
Proof.
  unfold detect_command, re_match, attempt. intros H.
  destruct (exec command_re (MState [] line []) Some) as [res|] eqn:E;
    [|discriminate].
  apply exec_sound in E. destruct E as (st' & M & K).
  inversion K; subst; clear K.
  unfold command_re, star, times in M. inv_matches.
  unfold capture, advance, group in *. simpl in *.
  use_bounds. subst.
  do 3 eexists. split; [reflexivity|]. repeat split; auto; lia.
Qed.

(** A header line is no ignore line and no separator: the header branch of
    the chain is the one it takes. *)
Lemma header_not_skipped line lvl title :
  detect_header line None = Some (lvl, title) ->
  is_ignore_line line = false /\ is_separator_line line = false.
Proof.
  intros D. apply header_shape in D.
  destruct D as (m & c & t & -> & Hm & Hl & Hb & Hc).
  destruct m as [|a m]; [simpl in Hl; lia|].
  pose proof Hm as Hm0. simpl in Hm0. apply andb_true_iff in Hm0.
  destruct Hm0 as [Ha Hm']. apply ch_eq in Ha. subst a.
  destruct (strip_cons "#" (m ++ c :: t) eq_refl) as [t' St].
  unfold is_ignore_line, is_separator_line, is_comment.
  change (("#"%char :: m) ++ c :: t) with ("#"%char :: m ++ c :: t).
  rewrite St. simpl. split; [|reflexivity].
  destruct (detect_command ("#"%char :: m ++ c :: t)) as [cmd|] eqn:D;
    [|reflexivity].
  exfalso. apply command_shape in D.
  destruct D as (m4 & c4 & t4 & E & Hm4 & Hl4 & Hc4).
  assert (m4 = "#"%char :: m).
  { symmetry. apply (sharps_unique ("#"%char :: m) m4 c c4 t t4); auto;
      now apply space_not. }
  subst m4. simpl in Hl, Hl4. lia.
Qed.

(** C4.  On a header line the chain builds a Section block with the level
    and the title of the header and, as content, the lines strictly
    between the header and the next line after it that is a header of the
    same level, or the end of the input when there is none; the pointer is
    left on that line, not past it.  The input of two lines "# Title" and
    "Body line" gives one Section block of level 1, titled "Title", with
    the content ["Body line"]. *)
Theorem header_builds_section text_lines fig_path ign i line h_level title :
  nth_error text_lines i = Some line ->
  detect_header line None = Some (h_level, title) ->
  (exists e,
     chain text_lines fig_path ign i
     = Ret (Chain (Some (Section h_level title
                           (slice (i + 1) e text_lines) fig_path)) ign e) /\
     i < e <= length text_lines /\
     (forall j l t, i < j < e -> nth_error text_lines j = Some l ->
                    detect_header l None <> Some (h_level, t)) /\
     (e < length text_lines ->
      exists l t, nth_error text_lines e = Some l /\
                  detect_header l None = Some (h_level, t))) /\
  forall path parent_arg,
    to_blocks (Text ("# Title" ++ [LF] ++ "Body line")) path parent_arg
    = Some (Ret ([], [Block (Section 1 "Title" ["Body line"] path)
                            parent_arg])).
Proof.
  intros Hl D. split; [|reflexivity].
  destruct (header_not_skipped _ _ _ D) as [NI NS].
  pose proof (header_shape _ _ _ D) as (m & c & t & _ & _ & _ & Hlvl & _).
  assert (Hi : i + 1 <= length text_lines).
  { assert (i < length text_lines); [|lia].
    apply nth_error_Some. now rewrite Hl. }
  pose proof (find_next_index_spec text_lines
                (fun l => is_some (detect_header l (Some h_level)))
                (i + 1) Hi) as (B & Before & At).
  eexists. split; [|split; [|split]].
  - unfold chain, get. rewrite Hl. simpl. rewrite NI, NS, D. reflexivity.
  - lia.
  - intros j l t0 Hj Hjl E.
    assert (F : is_some (detect_header l (Some h_level)) = false)
      by (apply (Before j); [lia|assumption]).
    assert (T : is_some (detect_header l (Some h_level)) = true)
      by (apply header_same_level; [assumption|now exists t0]).
    congruence.
  - intros He. destruct (At He) as (l & Hel & T).
    apply header_same_level in T; [|assumption].
    destruct T as [t0 T]. now exists l, t0.
Qed.

(** The theorem at the header "# Title" of the input of the claim. *)
Lemma header_builds_section_witness :
  exists e,
    chain ["# Title"; "Body line"] "" false 0
    = Ret (Chain (Some (Section 1 "Title"
                          (slice (0 + 1) e ["# Title"; "Body line"]) ""))
                 false e) /\
    0 < e <= 2.
Proof.
  destruct (header_builds_section ["# Title"; "Body line"] "" false 0
              "# Title" 1 "Title" eq_refl eq_refl)
    as [(e & C & B & _) _].
  exists e. split; [exact C|exact B].
Defined.

(** A line whose first character other than a space is no sharp is
    neither a comment nor a header. *)
Lemma no_sharp_first line c t :
  strip line = c :: t -> ch "#" c = false ->
  detect_command line = None /\ detect_header line None = None.
Proof.
  intros St Hc. apply strip_hd in St. destruct St as [Sc Hx].
  destruct line as [|x l]; [contradiction|].
  assert (Hs : ch "#" x = false).
  { destruct Hx as [->|Hx]; [assumption|now apply space_not]. }
  unfold detect_command, detect_header, re_match, attempt, command_re,
    header_re, times.
  simpl. now rewrite Hs.
Qed.

Lemma labeled_equation_shape line label :
  detect_labeled_equation line = Some label ->
  exists t, strip line = "`"%char :: t.
Proof.
  unfold detect_labeled_equation, re_match, attempt. intros H.
  destruct (exec labeled_equation_re (MState [] (strip line) []) Some)
    as [res|] eqn:E; [|discriminate].
  apply exec_sound in E. destruct E as (st' & M & _).
  unfold labeled_equation_re in M. simpl in M.
  inv_matches; simpl in *.
  repeat match goal with H : ch _ _ = true |- _ => apply ch_eq in H end.
  subst.
  match goal with H : strip line = _ :: ?t |- _ => now exists t end.
Qed.

Lemma figure_shape line settings :
  detect_figure line = Some settings ->
  exists t, strip line = "!"%char :: t.
Proof.
  unfold detect_figure, re_match, attempt. intros H.
  destruct (exec figure_re (MState [] (strip line) []) Some)
    as [res|] eqn:E; [|discriminate].
  apply exec_sound in E. destruct E as (st' & M & _).
  unfold figure_re in M. simpl in M.
  inv_matches; simpl in *;
    repeat match goal with H : ch _ _ = true |- _ => apply ch_eq in H end;
    subst;
    match goal with H : strip line = _ :: ?t |- _ => now exists t end.
Qed.

Section Branches.
Variable text_lines : list str.
Variable fig_path : str.

(** On a labeled-equation marker the chain takes the labeled-equation
    branch. *)
Lemma chain_labeled_equation ign i line label :
  nth_error text_lines i = Some line ->
  detect_labeled_equation line = Some label ->
  chain text_lines fig_path ign i
  = (next <- get text_lines (i + 1) ;;;
     _ <- assert (is_equation_dollars next)
            "Equation dollars must be alone in a line" ;;;
     let end_equation_i :=
       find_next_index text_lines is_equation_dollars (i + 1 + 1) in
     Ret (Chain
            (Some (Equation (slice (i + 1 + 1) end_equation_i text_lines)
                     (Some label)))
            ign (end_equation_i + 1))).
Proof.
  intros Hl D. destruct (labeled_equation_shape _ _ D) as [t St].
  destruct (no_sharp_first _ _ _ St eq_refl) as [NC NH].
  unfold chain, get. rewrite Hl. simpl.
  unfold is_ignore_line, is_comment, is_separator_line, is_equation_dollars
    at 1.
  rewrite NC, NH, St, D. reflexivity.
Qed.

(** On a figure embed line the chain takes the figure branch. *)
Lemma chain_figure ign i line settings :
  nth_error text_lines i = Some line ->
  detect_figure line = Some settings ->
  chain text_lines fig_path ign i
  = (next <- get text_lines (i + 1) ;;;
     let alt_data := re_match caption_re next in
     _ <- assert (is_some alt_data)
            ("Caption of figure <" ++ hd "" settings ++ "> badly formed") ;;;
     let label := strip (match alt_data with
                         | Some m => group 1 m | None => "" end) in
     let caption := strip (match alt_data with
                           | Some m => group 2 m | None => "" end) in
     Ret (Chain (Some (Figure settings label caption fig_path))
            ign (i + 2))).
Proof.
  intros Hl D. destruct (figure_shape _ _ D) as [t St].
  destruct (no_sharp_first _ _ _ St eq_refl) as [NC NH].
  unfold chain, get. rewrite Hl. simpl.
  unfold is_ignore_line, is_comment, is_separator_line, is_equation_dollars
    at 1.
  unfold is_list_item, is_quote, detect_labeled_equation, re_match, attempt.
  rewrite NC, NH, St, D. reflexivity.
Qed.
End Branches.

(** An exception raised at a position the loop reaches is what [to_blocks]
    ends with. *)
Lemma to_blocks_raises text fig_path parent_arg st e :
  reachable (lines_of text) fig_path parent_arg st ->
  i st < length (lines_of text) ->
  chain (lines_of text) fig_path (is_ignoring st) (i st) = Raise e ->
  to_blocks text fig_path parent_arg = Some (Raise e).
Proof.
  intros R Hi C. unfold to_blocks.
  rewrite <- (scan_reachable _ _ _ _ R).
  destruct (length (lines_of text)) as [|n] eqn:L; [lia|].
  simpl. rewrite L.
  destruct (Nat.ltb_spec (i st) (S n)); [|lia].
  unfold iteration. now rewrite C.
Qed.

(** C10.  When the scan pointer comes to the last line of the input and
    that line is a labeled-equation marker or a figure embed line, the
    lookahead [text_lines[i + 1]] is out of range and [to_blocks] raises
    IndexError, not the assertion error of a malformed block. *)
Theorem lookahead_past_last_line_raises_IndexError
  text fig_path parent_arg st line :
  reachable (lines_of text) fig_path parent_arg st ->
  nth_error (lines_of text) (i st) = Some line ->
  S (i st) = length (lines_of text) ->
  is_some (detect_labeled_equation line) || is_some (detect_figure line)
  = true ->
  to_blocks text fig_path parent_arg = Some (Raise IndexError).
Proof.
  intros R Hl Hlast D.
  assert (G : get (lines_of text) (i st + 1) = Raise IndexError).
  { unfold get.
    destruct (nth_error (lines_of text) (i st + 1)) eqn:N; [|reflexivity].
    assert (i st + 1 < length (lines_of text))
      by (apply nth_error_Some; now rewrite N).
    lia. }
  apply (to_blocks_raises text fig_path parent_arg st); [assumption|lia|].
  destruct (detect_labeled_equation line) as [label|] eqn:DL.
  - rewrite (chain_labeled_equation _ _ _ _ _ _ Hl DL). now rewrite G.
  - destruct (detect_figure line) as [settings|] eqn:DF; [|discriminate].
    rewrite (chain_figure _ _ _ _ _ _ Hl DF). now rewrite G.
Qed.

(** The theorem on an input that ends with a labeled-equation marker,
    after the iteration that reads the paragraph before it. *)
Lemma lookahead_past_last_line_raises_IndexError_witness :
  to_blocks (Lines ["some text"; "`eq_label:foo`"]) "" None
  = Some (Raise IndexError).
Proof.
  apply (lookahead_past_last_line_raises_IndexError
           (Lines ["some text"; "`eq_label:foo`"]) "" None
           (ScanState [Block (Paragraph ["some text"]) None] false 1)
           "`eq_label:foo`").
  - apply (reach_step _ _ _ (ScanState [] false 0)).
    + apply reach_init.
    + simpl. lia.
    + reflexivity.
  - reflexivity.
  - reflexivity.
  - reflexivity.
Defined.




(** A separator line is no ignore line: the separator branch of the chain
    is the one it takes. *)
Lemma separator_not_ignored line :
  is_separator_line line = true -> is_ignore_line line = false.
Proof.
  unfold is_separator_line. intros H. apply str_eqb_eq in H.
  destruct (no_sharp_first _ _ _ H eq_refl) as [NC _].
  unfold is_ignore_line, is_comment. now rewrite H, NC.
Qed.

(** The flag has no part in what the chain detects or in where it leaves
    the pointer. *)
Lemma chain_whatever_the_flag text_lines fig_path ign i :
  chain text_lines fig_path ign i
  = match chain text_lines fig_path false i with
    | Ret c => Ret (Chain (new_block c) (xorb ign (new_ignoring c)) (new_i c))
    | Raise e => Raise e
    end.
Proof.
  unfold chain, bind, assert.
  repeat match goal with
         | |- context [match ?x with _ => _ end] => destruct x
         end;
    simpl; try reflexivity; now destruct ign.
Qed.

Lemma iteration_while_ignoring text_lines fig_path parent_arg st st' :
  iteration text_lines fig_path parent_arg st = Ret st' ->
  is_ignoring st = true ->
  content_blocks st' = content_blocks st.
Proof.
  unfold iteration, bind. intros H Ign.
  rewrite chain_whatever_the_flag, Ign in H.
  destruct (chain text_lines fig_path false (i st)) as [c|e] eqn:C;
    [|discriminate].
  inversion H; subst; clear H. unfold append_block. simpl.
  destruct (new_block c) as [b|] eqn:B; [|reflexivity].
  destruct (new_ignoring c) eqn:N; [|reflexivity].
  exfalso. revert C. unfold chain, bind, assert. intros C.
  split_tests C; inversion C; subst; simpl in *; discriminate.
Qed.



(** A line "---" counts as a separator where the pointer stops on it.
    Inside the lines a list has collected it is content of the list (the
    first character of the line is the one of a list item), and so it is
    inside a section or an equation: such a line does not toggle the flag
    of this scan. *)
Remark separator_inside_a_list :
  to_blocks (Lines ["- x"; "---"; "body"; "---"]) "" None
  = Some (Ret ([warning], [Block (List ["- x"; "---"]) None;
                           Block (Paragraph ["body"]) None])).
Proof. reflexivity. Qed.

(* ================================================================== *)
(** * Properties of the substitution *)

Lemma length_between st st' :
  length (between st st') = length (seen st') - length (seen st).
Proof. unfold between. rewrite length_rev, length_firstn. lia. Qed.

(** A successful attempt has read a piece of what was left to read. *)
Lemma attempt_reads r sn rs st :
  attempt r sn rs = Some st ->
  exists m, seen st = rev m ++ sn /\ rs = m ++ rest st.
Proof.
  unfold attempt. intros H. apply exec_sound in H.
  destruct H as (st' & M & K). inversion K; subst.
  apply matches_reads in M. destruct M as (m & S & R). now exists m.
Qed.

Lemma consumed_le r sn rs st :
  attempt r sn rs = Some st -> consumed sn st <= length rs.
Proof.
  intros H. apply attempt_reads in H. destruct H as (m & S & R).
  unfold consumed. rewrite S, R, !length_app, length_rev. lia.
Qed.

Ltac lengths :=
  repeat progress (rewrite ?length_app, ?length_rev, ?length_between; simpl).

Section Shrinking.
Variable r : regex.
Variable tpl : list titem.

(** Every match is replaced by a text shorter than itself. *)
Hypothesis shrinks : forall sn rs st,
  attempt r sn rs = Some st -> length (expand tpl st) < consumed sn st.

(** Then a substitution changes nothing or makes the text shorter. *)
Lemma sub_go_shrinks rs : forall sn skip,
  skip <= length rs ->
  sub_go r tpl sn rs skip = skipn skip rs \/
  length (sub_go r tpl sn rs skip) + skip < length rs.
Proof.
  induction rs as [|c t IH]; intros sn skip Hs.
  - simpl in Hs. assert (skip = 0) by lia. subst. simpl.
    destruct (attempt r sn []) as [st|] eqn:A; [|now left].
    pose proof (shrinks _ _ _ A). pose proof (consumed_le _ _ _ _ A).
    simpl in *. lia.
  - destruct skip as [|n]; simpl.
    + destruct (attempt r sn (c :: t)) as [st|] eqn:A.
      * right. pose proof (shrinks _ _ _ A) as Sh.
        pose proof (consumed_le _ _ _ _ A) as Le. simpl in Le.
        destruct (consumed sn st) as [|n]; [lia|].
        rewrite length_app.
        destruct (IH (c :: sn) n) as [E|L]; [lia| |lia].
        rewrite E, length_skipn. lia.
      * destruct (IH (c :: sn) 0) as [E|L]; [lia| |].
        -- left. now rewrite E.
        -- right. simpl. lia.
    + simpl in Hs. destruct (IH (c :: sn) n) as [E|L]; [lia| |].
      * now left.
      * right. lia.
Qed.
End Shrinking.

(** The text a citation merge puts in is shorter than the match. *)
Lemma join_shrinks sn rs st :
  attempt join_re sn rs = Some st ->
  length (expand [TGrp 1; TLit ","; TGrp 2] st) < consumed sn st.
Proof.
  unfold attempt. intros H. apply exec_sound in H.
  destruct H as (st' & M & K). inversion K; subst; clear K.
  unfold join_re, plus, star_lazy, times in M. simpl in M. inv_matches.
  unfold consumed, expand, group, capture, advance in *. simpl in *.
  lengths. lia.
Qed.

(** One pass of the merge changes nothing or shortens the line. *)
Lemma join_step_shrinks line :
  join_step line = line \/ length (join_step line) < length line.
Proof.
  unfold join_step, re_sub.
  destruct (sub_go_shrinks join_re _ join_shrinks line [] 0) as [E|L];
    [lia| |].
  - now left.
  - right. lia.
Qed.

Lemma join_loop_terminates fuel : forall line,
  length line < fuel -> exists r, join_loop fuel line = Some r.
Proof.
  induction fuel as [|fuel IH]; intros line Hf; [lia|]. simpl.
  destruct (Nat.eqb_spec (length (join_step line)) (length line)) as [E|N];
    simpl; [now eexists|].
  apply IH. destruct (join_step_shrinks line) as [E|L]; [|lia].
  now rewrite E in N.
Qed.

Lemma format_line_returns line : exists r, format_line line = Some r.
Proof.
  unfold format_line.
  destruct (join_loop_terminates
              (S (length (citation_keys (special_characters line))))
              (citation_keys (special_characters line))) as [r Hr]; [lia|].
  rewrite Hr. now eexists.
Qed.

Lemma format_text_returns text_lines :
  exists r, format_text text_lines = Some r /\ length r = length text_lines.
Proof.
  unfold format_text. induction text_lines as [|l t [r [Hr Hl]]]; simpl.
  - now exists [].
  - destruct (format_line_returns l) as [x Hx]. rewrite Hx, Hr.
    exists (x :: r). simpl. now rewrite Hl.
Qed.

(** C9.  The loops end on every input.  An iteration of the scan loop that
    does not raise moves the pointer strictly forward, the loop runs while
    the pointer is below the number of lines, and [to_blocks] ends, with a
    list or an exception, within as many iterations as there are lines.  A
    pass of the citation merge leaves the line as it is or strictly
    shorter, the loop goes on only after a pass that changed the length,
    and it ends within one more pass than the line is long; so
    [format_text] returns, a line for each line. *)
Theorem loops_terminate :
  (forall text_lines fig_path parent_arg st st',
     iteration text_lines fig_path parent_arg st = Ret st' ->
     i st < i st') /\
  (forall text fig_path parent_arg,
     exists r, to_blocks text fig_path parent_arg = Some r) /\
  (forall line,
     join_step line = line \/ length (join_step line) < length line) /\
  (forall line, exists r, join_loop (S (length line)) line = Some r) /\
  (forall text_lines,
     exists r, format_text text_lines = Some r /\
               length r = length text_lines).
Proof.
  split; [|split; [|split; [|split]]].
  - intros text_lines fig_path parent_arg st st' It.
    now apply iteration_progress in It.
  - intros text fig_path parent_arg. unfold to_blocks.
    destruct (scan_terminates (lines_of text) fig_path parent_arg
                (length (lines_of text)) (ScanState [] false 0))
      as [r Hr]; [simpl; lia|].
    rewrite Hr. destruct r; now eexists.
  - apply join_step_shrinks.
  - intros line. apply join_loop_terminates. lia.
  - apply format_text_returns.
Qed.

(** The theorem on the first iteration of a scan and on a line whose two
    keys one pass of the merge joins. *)
Lemma loops_terminate_witness :
  i (ScanState [] false 0)
  < i (ScanState [Block (Paragraph ["a"; "b"]) None] false 2) /\
  length (join_step "[[a2020]], [[b1999]]") < length "[[a2020]], [[b1999]]".
Proof.
  destruct loops_terminate as (Step & _ & Join & _).
  split.
  - exact (Step ["a"; "b"] "" None (ScanState [] false 0) _ eq_refl).
  - destruct (Join "[[a2020]], [[b1999]]") as [E|L]; [discriminate E|exact L].
Defined.

(* ================================================================== *)
(** * Evaluating a pattern on a line given in part *)

Lemma assertion_exec r st k :
  assertion r = true -> exec r st k = None \/ exec r st k = k st.
Proof.
  destruct r; simpl; try discriminate; intros _.
  - now right.
  - destruct (seen st); [now right|now left].
  - destruct (rest st) as [|c [|d t]]; [now right| |now left].
    destruct (Ascii.eqb c LF); [now right|now left].
  - destruct (seen st) as [|c t]; [now right|].
    destruct (p c); [now left|now right].
  - destruct (rest st) as [|c t]; [now right|].
    destruct (p c); [now left|now right].
Qed.

(** A pattern does not match where the next character is outside its
    first class, nor at the end of the subject. *)
Lemma first_class_fail r : forall p st k,
  first_class r = Some p ->
  (forall c t, rest st = c :: t -> p c = false) ->
  exec r st k = None.
Proof.
  induction r; intros q st k F Hq; simpl in F; try discriminate.
  - inversion F; subst. simpl.
    destruct (rest st) as [|c t] eqn:R; [reflexivity|].
    now rewrite (Hq c t eq_refl).
  - destruct lo as [|lo]; [discriminate|]. inversion F; subst. simpl.
    destruct greedy; destruct (rest st) as [|c t] eqn:R; simpl;
      destruct (exhausted hi); try reflexivity;
      now rewrite (Hq c t eq_refl).
  - simpl. destruct (first_class r1) as [p1|] eqn:F1.
    + inversion F; subst. now apply (IHr1 q).
    + destruct (assertion r1) eqn:A; [|discriminate].
      destruct (assertion_exec r1 st (fun st' => exec r2 st' k) A) as [E|E];
        rewrite E; [reflexivity|].
      now apply (IHr2 q).
  - simpl. now apply (IHr q).
Qed.

Lemma attempt_fail_first r p sn c t :
  first_class r = Some p -> p c = false -> attempt r sn (c :: t) = None.
Proof.
  intros F Hc. unfold attempt. apply (first_class_fail r p); [assumption|].
  simpl. intros c' t' E. now inversion E; subst.
Qed.

Lemma attempt_fail_end r p sn :
  first_class r = Some p -> attempt r sn [] = None.
Proof.
  intros F. unfold attempt. apply (first_class_fail r p); [assumption|].
  simpl. discriminate.
Qed.

Section Passing.
Variable r : regex.
Variable tpl : list titem.
Variable p : ascii -> bool.
Hypothesis first : first_class r = Some p.

(** The substitution copies a text none of whose characters can begin a
    match. *)
Lemma sub_go_pass pre : forall sn rs,
  forallb (fun c => negb (p c)) pre = true ->
  sub_go r tpl sn (pre ++ rs) 0 = pre ++ sub_go r tpl (rev pre ++ sn) rs 0.
Proof.
  induction pre as [|c pre IH]; intros sn rs H; [reflexivity|].
  simpl in H. apply andb_true_iff in H. destruct H as [Hc H].
  apply negb_true_iff in Hc. simpl.
  rewrite (attempt_fail_first r p sn c (pre ++ rs) first Hc).
  rewrite IH by assumption. now rewrite <- app_assoc.
Qed.

Lemma sub_go_end sn : sub_go r tpl sn [] 0 = [].
Proof. simpl. now rewrite (attempt_fail_end r p sn first). Qed.

Lemma findall_go_pass pre : forall sn rs,
  forallb (fun c => negb (p c)) pre = true ->
  findall_go r sn (pre ++ rs) 0 = findall_go r (rev pre ++ sn) rs 0.
Proof.
  induction pre as [|c pre IH]; intros sn rs H; [reflexivity|].
  simpl in H. apply andb_true_iff in H. destruct H as [Hc H].
  apply negb_true_iff in Hc. simpl.
  rewrite (attempt_fail_first r p sn c (pre ++ rs) first Hc).
  rewrite IH by assumption. now rewrite <- app_assoc.
Qed.

End Passing.

(** After a match the substitution goes on behind it. *)
Lemma sub_go_skip r tpl m : forall sn rs,
  sub_go r tpl sn (m ++ rs) (length m) = sub_go r tpl (rev m ++ sn) rs 0.
Proof.
  induction m as [|c m IH]; intros sn rs; simpl.
  - now destruct rs.
  - rewrite IH. now rewrite <- app_assoc.
Qed.

Lemma findall_go_skip r m : forall sn rs,
  findall_go r sn (m ++ rs) (length m) = findall_go r (rev m ++ sn) rs 0.
Proof.
  induction m as [|c m IH]; intros sn rs; simpl.
  - now destruct rs.
  - rewrite IH. now rewrite <- app_assoc.
Qed.

Lemma consumed_read m sn rs g :
  consumed sn (MState (rev m ++ sn) rs g) = length m.
Proof. unfold consumed. simpl. rewrite length_app, length_rev. lia. Qed.

(** A match of the non-empty text [m] at the current position. *)
Lemma sub_go_hit r tpl sn m rs g :
  m <> [] ->
  attempt r sn (m ++ rs) = Some (MState (rev m ++ sn) rs g) ->
  sub_go r tpl sn (m ++ rs) 0
  = expand tpl (MState (rev m ++ sn) rs g)
    ++ sub_go r tpl (rev m ++ sn) rs 0.
Proof.
  intros Hm A. destruct m as [|c m]; [contradiction|].
  change ((c :: m) ++ rs) with (c :: m ++ rs) in *.
  cbn [sub_go]. rewrite A, consumed_read. cbn [length].
  f_equal. rewrite sub_go_skip. cbn [rev]. now rewrite <- app_assoc.
Qed.

Lemma findall_go_hit r sn m rs g :
  m <> [] ->
  attempt r sn (m ++ rs) = Some (MState (rev m ++ sn) rs g) ->
  findall_go r sn (m ++ rs) 0 = m :: findall_go r (rev m ++ sn) rs 0.
Proof.
  intros Hm A. destruct m as [|c m]; [contradiction|].
  change ((c :: m) ++ rs) with (c :: m ++ rs) in *.
  cbn [findall_go]. rewrite A, consumed_read. cbn [length].
  f_equal.
  - change (c :: m ++ rs) with ((c :: m) ++ rs).
    rewrite firstn_app, Nat.sub_diag. cbn [length firstn].
    rewrite firstn_all. now rewrite app_nil_r.
  - rewrite findall_go_skip. cbn [rev]. now rewrite <- app_assoc.
Qed.

(** A lazy repetition reads on as long as the continuation fails, up to
    the first place where it succeeds. *)
Lemma rep_lazy_pass p g k x : forall sn rs res,
  forallb p x = true ->
  (forall a b, x = a ++ b -> b <> [] ->
               k (MState (rev a ++ sn) (b ++ rs) g) = None) ->
  k (MState (rev x ++ sn) rs g) = Some res ->
  rep_lazy p g k 0 None sn (x ++ rs) = Some res.
Proof.
  induction x as [|c x IH]; intros sn rs res Hp Hk Hres.
  - simpl in *. destruct rs; simpl; now rewrite Hres.
  - simpl in Hp. apply andb_true_iff in Hp. destruct Hp as [Pc Hp].
    assert (K0 : k (MState sn (c :: x ++ rs) g) = None)
      by (apply (Hk [] (c :: x) eq_refl); discriminate).
    simpl. rewrite K0, Pc. apply IH; [assumption| |].
    + intros a b E Hb. specialize (Hk (c :: a) b).
      simpl in Hk. rewrite <- app_assoc in Hk. simpl in Hk.
      apply Hk; [now rewrite E|assumption].
    + simpl in Hres. now rewrite <- app_assoc in Hres.
Qed.

Lemma sub_go_id r tpl p s sn :
  first_class r = Some p -> forallb (fun c => negb (p c)) s = true ->
  sub_go r tpl sn s 0 = s.
Proof.
  intros F H. rewrite <- (app_nil_r s) at 1.
  rewrite (sub_go_pass r tpl p F s sn []) by assumption.
  now rewrite (sub_go_end r tpl p F), app_nil_r.
Qed.

Lemma sub_go_hit_at r tpl sn m rs st :
  m <> [] -> attempt r sn (m ++ rs) = Some st ->
  seen st = rev m ++ sn -> rest st = rs ->
  sub_go r tpl sn (m ++ rs) 0 = expand tpl st ++ sub_go r tpl (seen st) rs 0.
Proof.
  intros Hm A S R. destruct st as [s r0 g]. simpl in *. subst.
  now apply sub_go_hit.
Qed.

Lemma findall_go_hit_at r sn m rs st :
  m <> [] -> attempt r sn (m ++ rs) = Some st ->
  seen st = rev m ++ sn -> rest st = rs ->
  findall_go r sn (m ++ rs) 0 = m :: findall_go r (seen st) rs 0.
Proof.
  intros Hm A S R. destruct st as [s r0 g]. simpl in *. subst.
  now apply findall_go_hit with (g := g).
Qed.

(* ================================================================== *)
(** * Properties of the inline transformer: protected spans *)

Lemma quiet_not x c :
  mem c "`$[]<" = true -> forallb quiet x = true ->
  forallb (fun y => negb (ch c y)) x = true.
Proof.
  intros Hc H. rewrite forallb_forall in *. intros y Hy. specialize (H y Hy).
  unfold quiet in H. apply andb_true_iff in H. destruct H as [_ H].
  apply negb_true_iff in H. apply negb_true_iff. unfold ch.
  destruct (Ascii.eqb_spec y c); [subst; congruence|reflexivity].
Qed.

Lemma quiet_dot x : forallb quiet x = true -> forallb isdot x = true.
Proof.
  intros H. rewrite forallb_forall in *. intros y Hy. specialize (H y Hy).
  unfold quiet in H. now apply andb_true_iff in H.
Qed.

Lemma forallb_inside {A} (p : A -> bool) x a c b :
  forallb p x = true -> x = a ++ c :: b -> p c = true.
Proof.
  intros H ->. rewrite forallb_app in H. apply andb_true_iff in H.
  destruct H as [_ H]. simpl in H. now apply andb_true_iff in H.
Qed.

(** Inside a quiet text the continuation that wants the character [d]
    next fails. *)
Ltac closing_fails x d Q :=
  let a := fresh "a" in
  let b := fresh "b" in
  let E := fresh "E" in
  let Hb := fresh "Hb" in
  let Hc := fresh "Hc" in
  intros a b E Hb; destruct b as [|? b]; [contradiction|]; simpl;
  pose proof (forallb_inside _ _ _ _ _ (quiet_not x d eq_refl Q) E) as Hc;
  simpl in Hc; apply negb_true_iff in Hc; now rewrite Hc.

Lemma attempt_equation sn x rs :
  forallb quiet x = true ->
  attempt equation_re sn ("$" ++ x ++ "$" ++ rs)
  = Some (MState ("$"%char :: rev x ++ "$"%char :: sn) rs []).
Proof.
  intros Q. unfold attempt, equation_re, star_lazy. simpl.
  apply rep_lazy_pass;
    [now apply quiet_dot | closing_fails x "$"%char Q | reflexivity].
Qed.

Lemma attempt_link sn x rs :
  forallb quiet x = true ->
  attempt link_re sn ("[[" ++ x ++ "]]" ++ rs)
  = Some (MState ("]"%char :: "]"%char :: rev x ++ "["%char :: "["%char :: sn)
                 rs []).
Proof.
  intros Q. unfold attempt, link_re, star_lazy. simpl.
  apply rep_lazy_pass;
    [now apply quiet_dot | closing_fails x "]"%char Q | reflexivity].
Qed.

Lemma attempt_code sn x rs :
  forallb quiet x = true ->
  attempt code_re sn ("`" ++ x ++ "`" ++ rs)
  = Some (MState ("`"%char :: rev x ++ "`"%char :: sn) rs []).
Proof.
  intros Q. unfold attempt, code_re, star_lazy. simpl.
  apply rep_lazy_pass;
    [now apply quiet_dot | closing_fails x "`"%char Q | reflexivity].
Qed.

Ltac rev_norm :=
  simpl; rewrite ?rev_app_distr; simpl; rewrite <- ?app_assoc; reflexivity.

(** Rewrites with the match [A] of a span [o ++ x ++ c] at the current
    position of a substitution or of a search. *)
Ltac hit_with A :=
  match type of A with
  | attempt ?r ?sn (?o ++ ?x ++ ?c ++ ?rs) = Some ?st =>
    replace (o ++ x ++ c ++ rs) with ((o ++ x ++ c) ++ rs) in *
      by (now rewrite <- !app_assoc);
    first [ rewrite (sub_go_hit_at r _ sn (o ++ x ++ c) rs st
                       ltac:(discriminate) A ltac:(rev_norm) eq_refl)
          | rewrite (findall_go_hit_at r sn (o ++ x ++ c) rs st
                       ltac:(discriminate) A ltac:(rev_norm) eq_refl) ]
  end.

Lemma sub_equation_hit tpl sn x rs :
  forallb quiet x = true ->
  sub_go equation_re tpl sn ("$" ++ x ++ "$" ++ rs) 0
  = expand tpl (MState ("$"%char :: rev x ++ "$"%char :: sn) rs [])
    ++ sub_go equation_re tpl ("$"%char :: rev x ++ "$"%char :: sn) rs 0.
Proof.
  intros Q. pose proof (attempt_equation sn x rs Q) as A.
  hit_with A. reflexivity.
Qed.

Lemma findall_equation_hit sn x rs :
  forallb quiet x = true ->
  findall_go equation_re sn ("$" ++ x ++ "$" ++ rs) 0
  = ("$" ++ x ++ "$")
    :: findall_go equation_re ("$"%char :: rev x ++ "$"%char :: sn) rs 0.
Proof.
  intros Q. pose proof (attempt_equation sn x rs Q) as A.
  hit_with A. reflexivity.
Qed.

Lemma sub_link_hit tpl sn x rs :
  forallb quiet x = true ->
  sub_go link_re tpl sn ("[[" ++ x ++ "]]" ++ rs) 0
  = expand tpl (MState ("]"%char :: "]"%char :: rev x
                        ++ "["%char :: "["%char :: sn) rs [])
    ++ sub_go link_re tpl
         ("]"%char :: "]"%char :: rev x ++ "["%char :: "["%char :: sn) rs 0.
Proof.
  intros Q. pose proof (attempt_link sn x rs Q) as A.
  hit_with A. reflexivity.
Qed.

Lemma findall_link_hit sn x rs :
  forallb quiet x = true ->
  findall_go link_re sn ("[[" ++ x ++ "]]" ++ rs) 0
  = ("[[" ++ x ++ "]]")
    :: findall_go link_re
         ("]"%char :: "]"%char :: rev x ++ "["%char :: "["%char :: sn) rs 0.
Proof.
  intros Q. pose proof (attempt_link sn x rs Q) as A.
  hit_with A. reflexivity.
Qed.

Lemma sub_code_hit tpl sn x rs :
  forallb quiet x = true ->
  sub_go code_re tpl sn ("`" ++ x ++ "`" ++ rs) 0
  = expand tpl (MState ("`"%char :: rev x ++ "`"%char :: sn) rs [])
    ++ sub_go code_re tpl ("`"%char :: rev x ++ "`"%char :: sn) rs 0.
Proof.
  intros Q. pose proof (attempt_code sn x rs Q) as A.
  hit_with A. reflexivity.
Qed.

Lemma findall_code_hit sn x rs :
  forallb quiet x = true ->
  findall_go code_re sn ("`" ++ x ++ "`" ++ rs) 0
  = ("`" ++ x ++ "`")
    :: findall_go code_re ("`"%char :: rev x ++ "`"%char :: sn) rs 0.
Proof.
  intros Q. pose proof (attempt_code sn x rs Q) as A.
  hit_with A. reflexivity.
Qed.

(** Replacing a single character is a character-wise map. *)
Lemma replace_char c new s :
  replace [c] new s
  = flat_map (fun x => if Ascii.eqb c x then new else [x]) s.
Proof.
  unfold replace. induction s as [|x t IH]; [reflexivity|].
  simpl. destruct (Ascii.eqb c x); simpl; now rewrite IH.
Qed.

Lemma escape_app s1 s2 : escape (s1 ++ s2) = escape s1 ++ escape s2.
Proof.
  unfold escape, LATEX_SPECIAL_CHARS. simpl.
  now rewrite !replace_char, !flat_map_app.
Qed.

Lemma forallb_flat_map {A B} (p : B -> bool) (f : A -> list B) l :
  forallb p (flat_map f l) = forallb (fun x => forallb p (f x)) l.
Proof.
  induction l as [|a l IH]; [reflexivity|].
  simpl. now rewrite forallb_app, IH.
Qed.

Lemma replace_keeps p c s :
  p backslash = true -> forallb p s = true ->
  forallb p (replace [c] [backslash; c] s) = true.
Proof.
  intros Hb H. rewrite replace_char, forallb_flat_map.
  rewrite forallb_forall in *. intros x Hx. specialize (H x Hx).
  destruct (Ascii.eqb_spec c x); simpl;
    [subst; now rewrite Hb, H|now rewrite H].
Qed.

(** Escaping adds backslashes only. *)
Lemma escape_keeps p s :
  p backslash = true -> forallb p s = true -> forallb p (escape s) = true.
Proof.
  intros Hb H. unfold escape, LATEX_SPECIAL_CHARS. simpl.
  repeat apply replace_keeps; assumption.
Qed.

Lemma replace_first_pass d ph new pre : forall s,
  forallb (fun y => negb (ch d y)) pre = true ->
  replace_first (d :: ph) new (pre ++ s)
  = pre ++ replace_first (d :: ph) new s.
Proof.
  induction pre as [|c pre IH]; intros s H; [reflexivity|].
  simpl in H. apply andb_true_iff in H. destruct H as [Hc H].
  apply negb_true_iff in Hc. unfold ch in Hc.
  simpl. rewrite Ascii.eqb_sym, Hc. simpl. now rewrite IH.
Qed.

Lemma startswith_app p s : startswith p (p ++ s) = true.
Proof.
  induction p as [|c p IH]; [reflexivity|].
  simpl. now rewrite Ascii.eqb_refl.
Qed.

Lemma replace_first_hit d ph new s :
  replace_first (d :: ph) new ((d :: ph) ++ s) = new ++ s.
Proof.
  change ((d :: ph) ++ s) with (d :: ph ++ s).
  cbn [replace_first]. change (d :: ph ++ s) with ((d :: ph) ++ s).
  rewrite startswith_app. now rewrite skipn_app, skipn_all, Nat.sub_diag.
Qed.

Lemma put_back_cons ph q qs line :
  put_back ph (q :: qs) line = put_back ph qs (replace_first ph q line).
Proof. reflexivity. Qed.

(** The queue of one kind is put back first in, first out: the k-th
    placeholder of the line takes the k-th text of the queue. *)
Lemma put_back_fifo d ph qs : forall ts t0,
  let clean := forallb (fun y => negb (ch d y)) in
  clean t0 = true -> forallb clean ts = true -> forallb clean qs = true ->
  length ts = length qs ->
  put_back (d :: ph) qs (t0 ++ concat (map (fun t => (d :: ph) ++ t) ts))
  = t0 ++ concat (map (fun qt => fst qt ++ snd qt) (combine qs ts)).
Proof.
  induction qs as [|q qs IH]; intros ts t0 clean H0 Hts Hqs Hl;
    destruct ts as [|t ts]; try discriminate; [reflexivity|].
  simpl in Hts, Hqs, Hl. apply andb_true_iff in Hts, Hqs.
  destruct Hts as [Ht Hts], Hqs as [Hq Hqs].
  rewrite put_back_cons. cbn [map concat combine fst snd].
  rewrite replace_first_pass by assumption.
  rewrite <- app_assoc. rewrite replace_first_hit.
  replace (t0 ++ q ++ t ++ concat (map (fun t1 => (d :: ph) ++ t1) ts))
    with ((t0 ++ q ++ t)
          ++ concat (map (fun t1 => (d :: ph) ++ t1) ts))
    by (now rewrite <- !app_assoc).
  rewrite IH; [ | | assumption | assumption | lia].
  - now rewrite <- !app_assoc.
  - unfold clean in *. now rewrite !forallb_app, H0, Hq, Ht.
Qed.

Ltac side_pass :=
  first [ reflexivity | apply quiet_not; [reflexivity|assumption] ].

(** Carries a search or a substitution over the texts that cannot begin a
    match. *)
Ltac pass_findall r p :=
  repeat match goal with
         | |- context [findall_go r ?sn (?pre ++ ?rs) 0] =>
           rewrite (findall_go_pass r p eq_refl pre sn rs) by side_pass
         end.

Ltac pass_sub r p :=
  repeat match goal with
         | |- context [sub_go r ?tpl ?sn (?pre ++ ?rs) 0] =>
           rewrite (sub_go_pass r tpl p eq_refl pre sn rs) by side_pass
         end.

Section Spans.
Variables c a m b l : str.
Hypothesis Qc : forallb quiet c = true.
Hypothesis Qa : forallb quiet a = true.
Hypothesis Qm : forallb quiet m = true.
Hypothesis Qb : forallb quiet b = true.
Hypothesis Ql : forallb quiet l = true.

(** A code span, a math span and a link span with text between them. *)
Local Abbreviation the_line :=
  ("`" ++ c ++ "`" ++ a ++ "$" ++ m ++ "$" ++ b ++ "[[" ++ l ++ "]]").

Lemma spans_equations : re_findall equation_re the_line = ["$" ++ m ++ "$"].
Proof.
  unfold re_findall.
  pass_findall equation_re (ch "$").
  rewrite findall_equation_hit by assumption.
  pass_findall equation_re (ch "$").
  reflexivity.
Qed.

Lemma spans_links : re_findall link_re the_line = ["[[" ++ l ++ "]]"].
Proof.
  unfold re_findall.
  pass_findall link_re (ch "[").
  replace ("[[" ++ l ++ "]]") with ("[[" ++ l ++ "]]" ++ "")
    by (now rewrite app_nil_r).
  rewrite findall_link_hit by assumption.
  reflexivity.
Qed.

Lemma spans_codes : re_findall code_re the_line = ["`" ++ c ++ "`"].
Proof.
  unfold re_findall.
  rewrite findall_code_hit by assumption.
  pass_findall code_re (ch "`").
  reflexivity.
Qed.

Lemma spans_masked :
  re_sub code_re [TLit CODE_PLACEHOLDER]
    (re_sub link_re [TLit LINK_PLACEHOLDER]
       (re_sub equation_re [TLit EQ_PLACEHOLDER] the_line))
  = CODE_PLACEHOLDER ++ a ++ EQ_PLACEHOLDER ++ b ++ LINK_PLACEHOLDER.
Proof.
  unfold re_sub.
  pass_sub equation_re (ch "$").
  rewrite sub_equation_hit by assumption.
  pass_sub equation_re (ch "$").
  rewrite (sub_go_id equation_re _ (ch "$") "]]") by reflexivity.
  cbn [expand]. rewrite app_nil_r.
  pass_sub link_re (ch "[").
  replace ("[[" ++ l ++ "]]") with ("[[" ++ l ++ "]]" ++ "")
    by (now rewrite app_nil_r).
  rewrite sub_link_hit by assumption.
  rewrite (sub_go_end link_re _ (ch "[")) by reflexivity.
  cbn [expand]. rewrite !app_nil_r.
  rewrite sub_code_hit by assumption.
  pass_sub code_re (ch "`").
  rewrite (sub_go_id code_re _ (ch "`") LINK_PLACEHOLDER) by reflexivity.
  cbn [expand]. now rewrite app_nil_r.
Qed.

Lemma spans_escape :
  escape (CODE_PLACEHOLDER ++ a ++ EQ_PLACEHOLDER ++ b ++ LINK_PLACEHOLDER)
  = CODE_PLACEHOLDER ++ escape a ++ EQ_PLACEHOLDER ++ escape b
    ++ LINK_PLACEHOLDER.
Proof. now rewrite !escape_app. Qed.

Lemma spans_guard :
  guard_brackets (CODE_PLACEHOLDER ++ escape a ++ EQ_PLACEHOLDER
                  ++ escape b ++ LINK_PLACEHOLDER)
  = CODE_PLACEHOLDER ++ escape a ++ EQ_PLACEHOLDER ++ escape b
    ++ LINK_PLACEHOLDER.
Proof.
  unfold guard_brackets, re_sub.
  apply (sub_go_id bracket_re _ (ch "[")); [reflexivity|].
  rewrite !forallb_app.
  rewrite !(escape_keeps (fun c => negb (ch "[" c))) by side_pass.
  reflexivity.
Qed.

Lemma spans_restore :
  put_back CODE_PLACEHOLDER ["`" ++ c ++ "`"]
    (put_back EQ_PLACEHOLDER ["$" ++ m ++ "$"]
       (put_back LINK_PLACEHOLDER ["[[" ++ l ++ "]]"]
          (CODE_PLACEHOLDER ++ escape a ++ EQ_PLACEHOLDER ++ escape b
           ++ LINK_PLACEHOLDER)))
  = "`" ++ c ++ "`" ++ escape a ++ "$" ++ m ++ "$" ++ escape b
    ++ "[[" ++ l ++ "]]".
Proof.
  assert (Ea : forallb (fun y => negb (ch "<" y)) (escape a) = true)
    by (apply escape_keeps; [reflexivity|now apply quiet_not]).
  assert (Eb : forallb (fun y => negb (ch "<" y)) (escape b) = true)
    by (apply escape_keeps; [reflexivity|now apply quiet_not]).
  assert (LC : forall new s,
             replace_first LINK_PLACEHOLDER new (CODE_PLACEHOLDER ++ s)
             = CODE_PLACEHOLDER ++ replace_first LINK_PLACEHOLDER new s)
    by reflexivity.
  assert (LE : forall new s,
             replace_first LINK_PLACEHOLDER new (EQ_PLACEHOLDER ++ s)
             = EQ_PLACEHOLDER ++ replace_first LINK_PLACEHOLDER new s)
    by reflexivity.
  assert (EC : forall new s,
             replace_first EQ_PLACEHOLDER new (CODE_PLACEHOLDER ++ s)
             = CODE_PLACEHOLDER ++ replace_first EQ_PLACEHOLDER new s)
    by reflexivity.
  unfold put_back. cbn [fold_left].
  rewrite LC. unfold LINK_PLACEHOLDER at 1.
  rewrite replace_first_pass by assumption.
  fold LINK_PLACEHOLDER. rewrite LE. unfold LINK_PLACEHOLDER at 1.
  rewrite replace_first_pass by assumption.
  fold LINK_PLACEHOLDER.
  replace LINK_PLACEHOLDER with (LINK_PLACEHOLDER ++ "") at 2
    by apply app_nil_r.
  unfold LINK_PLACEHOLDER. rewrite replace_first_hit. rewrite app_nil_r.
  rewrite EC. unfold EQ_PLACEHOLDER at 1.
  rewrite replace_first_pass by assumption.
  unfold EQ_PLACEHOLDER. rewrite replace_first_hit.
  unfold CODE_PLACEHOLDER. rewrite replace_first_hit.
  now rewrite <- !app_assoc.
Qed.

(** The stages up to the restoration leave the three spans as they are
    and escape the text between them. *)
Lemma special_characters_keep_spans :
  special_characters the_line
  = "`" ++ c ++ "`" ++ escape a ++ "$" ++ m ++ "$" ++ escape b
    ++ "[[" ++ l ++ "]]".
Proof.
  unfold special_characters, protect, restore.
  cbn [equations links codes masked].
  rewrite spans_equations, spans_links, spans_codes.
  rewrite spans_masked, spans_escape, spans_guard.
  apply spans_restore.
Qed.
End Spans.




(* ================================================================== *)
(** * Properties of the inline transformer: emphasis *)

Lemma calm_not x c :
  mem c ("`*=" ++ [dquote]) = true -> forallb calm x = true ->
  forallb (fun y => negb (ch c y)) x = true.
Proof.
  intros Hc H. rewrite forallb_forall in *. intros y Hy. specialize (H y Hy).
  unfold calm in H. apply andb_true_iff in H. destruct H as [_ H].
  apply negb_true_iff in H. apply negb_true_iff. unfold ch.
  destruct (Ascii.eqb_spec y c); [subst; congruence|reflexivity].
Qed.

Lemma calm_dot x : forallb calm x = true -> forallb isdot x = true.
Proof.
  intros H. rewrite forallb_forall in *. intros y Hy. specialize (H y Hy).
  unfold calm in H. now apply andb_true_iff in H.
Qed.

Lemma between_upto m s s' r g r' g' :
  s' = rev m ++ s -> between (MState s r g) (MState s' r' g') = m.
Proof. intros ->. apply between_read. Qed.

Lemma sub_go_miss r tpl sn c t :
  attempt r sn (c :: t) = None ->
  sub_go r tpl sn (c :: t) 0 = c :: sub_go r tpl (c :: sn) t 0.
Proof. intros A. simpl. now rewrite A. Qed.

Lemma italic_at_pair sn rs : attempt italic_re sn ("**" ++ rs) = None.
Proof.
  unfold attempt, italic_re. simpl.
  destruct sn as [|p sn]; [reflexivity|]. now destruct (ch "*" p).
Qed.

Lemma italic_after_star sn rs : attempt italic_re ("*"%char :: sn) rs = None.
Proof. reflexivity. Qed.

Ltac closing_fails_calm x d Q :=
  let a := fresh "a" in
  let b := fresh "b" in
  let E := fresh "E" in
  let Hb := fresh "Hb" in
  let Hc := fresh "Hc" in
  intros a b E Hb; destruct b as [|? b]; [contradiction|]; simpl;
  pose proof (forallb_inside _ _ _ _ _ (calm_not x d eq_refl Q) E) as Hc;
  simpl in Hc; apply negb_true_iff in Hc; now rewrite Hc.

(** A calm character is no star. *)
Lemma calm_no_star c : calm c = true -> (c =? "*")%char = false.
Proof.
  intros Q. pose proof (calm_not [c] "*" eq_refl) as H. simpl in H.
  rewrite Q in H. specialize (H eq_refl). rewrite andb_true_r in H.
  now apply negb_true_iff in H.
Qed.

(** A lookbehind that finds no star lets the attempt go on. *)
Lemma no_star_behind (sn : str) (k : option mstate) :
  (forall d t, sn = d :: t -> ch "*" d = false) ->
  match sn with
  | [] => k
  | d :: _ => if ch "*" d then None else k
  end = k.
Proof.
  intros H. destruct sn as [|d t]; [reflexivity|].
  now rewrite (H d t eq_refl).
Qed.

Lemma attempt_bold sn c x rs :
  forallb calm (c :: x) = true ->
  attempt bold_re sn ("**" ++ (c :: x) ++ "**" ++ rs)
  = Some (MState ("**" ++ rev x ++ c :: "**" ++ sn) rs [(1, c :: x)]).
Proof.
  intros Q. pose proof Q as Q'. simpl in Q'.
  apply andb_true_iff in Q'. destruct Q' as [Qc Qx].
  unfold attempt, bold_re, star_lazy. simpl.
  unfold not_ch. rewrite (calm_no_star c Qc).
  apply rep_lazy_pass.
  - now apply calm_dot.
  - closing_fails_calm x "*"%char Qx.
  - simpl. unfold capture, advance. simpl.
    rewrite (between_upto (c :: x)) by rev_norm. reflexivity.
Qed.

Lemma attempt_italic c x rs :
  forallb calm (c :: x) = true ->
  (forall d t, rs = d :: t -> ch "*" d = false) ->
  forall sn,
    (forall d t, sn = d :: t -> ch "*" d = false) ->
    attempt italic_re sn ("*" ++ (c :: x) ++ "*" ++ rs)
    = Some (MState ("*" ++ rev x ++ c :: "*" ++ sn) rs [(1, c :: x)]).
Proof.
  intros Q Hrs sn Hsn. pose proof Q as Q'. simpl in Q'.
  apply andb_true_iff in Q'. destruct Q' as [Qc Qx].
  unfold attempt, italic_re, star_lazy. simpl.
  rewrite (no_star_behind sn _ Hsn).
  unfold not_ch. rewrite (calm_no_star c Qc).
  apply rep_lazy_pass.
  - now apply calm_dot.
  - closing_fails_calm x "*"%char Qx.
  - simpl. unfold capture, advance. simpl.
    rewrite (between_upto (c :: x)) by rev_norm.
    destruct rs as [|d t]; [reflexivity|]. now rewrite (Hrs d t eq_refl).
Qed.

Lemma attempt_quoted_italic c x rs :
  forallb calm (c :: x) = true ->
  (forall d t, rs = d :: t -> ch "*" d = false) ->
  forall sn,
    (forall d t, sn = d :: t -> ch "*" d = false) ->
    attempt quoted_italic_re sn
      ("*" ++ [dquote] ++ (c :: x) ++ [dquote] ++ "*" ++ rs)
    = Some (MState ("*" ++ [dquote] ++ rev x ++ c :: dquote :: "*" ++ sn)
                   rs [(1, c :: x)]).
Proof.
  intros Q Hrs sn Hsn. pose proof Q as Q'. simpl in Q'.
  apply andb_true_iff in Q'. destruct Q' as [Qc Qx].
  unfold attempt, quoted_italic_re, star_lazy. simpl.
  rewrite (no_star_behind sn _ Hsn).
  unfold not_ch. rewrite (calm_no_star c Qc).
  apply rep_lazy_pass.
  - now apply calm_dot.
  - closing_fails_calm x dquote Qx.
  - simpl. unfold capture, advance. simpl.
    rewrite (between_upto (c :: x)) by rev_norm.
    destruct rs as [|d t]; [reflexivity|]. now rewrite (Hrs d t eq_refl).
Qed.

(** The quoted italic pattern leaves a text without double quote as it
    is. *)
Lemma quoted_italic_id tpl s : forall sn,
  forallb (fun y => negb (ch dquote y)) s = true ->
  sub_go quoted_italic_re tpl sn s 0 = s.
Proof.
  induction s as [|c t IH]; intros sn H.
  - simpl. unfold attempt, quoted_italic_re. simpl.
    destruct sn as [|p sn]; [reflexivity|]. now destruct (ch "*" p).
  - simpl in H. apply andb_true_iff in H. destruct H as [_ H].
    rewrite sub_go_miss; [now rewrite IH|].
    unfold attempt, quoted_italic_re. simpl.
    assert (N : (if ch "*" c
                 then match t with
                      | [] => None
                      | d :: _ => if ch dquote d then @None mstate else None
                      end
                 else None) = None).
    { destruct (ch "*" c); [|reflexivity].
      destruct t as [|d t']; [reflexivity|]. now destruct (ch dquote d). }
    destruct (ch "*" c);
      [|now destruct sn as [|p sn]; [|destruct (ch "*" p)]].
    destruct t as [|d t'];
      [now destruct sn as [|p sn]; [|destruct (ch "*" p)]|].
    simpl in H. apply andb_true_iff in H. destruct H as [Hd _].
    apply negb_true_iff in Hd. rewrite Hd.
    now destruct sn as [|p sn]; [|destruct (ch "*" p)].
Qed.

(** Solves the goals that say that a text put together from calm texts
    and literals does not hold a given character. *)
Ltac without_char :=
  rewrite ?forallb_app;
  repeat match goal with
         | H : forallb calm ?x = true |- _ =>
           rewrite (calm_not x) by (first [reflexivity | exact H])
         end;
  reflexivity.

Section Emphasis.
Variable c : ascii.
Variable x : str.
Hypothesis Q : forallb calm (c :: x) = true.

Local Abbreviation textbf := (backslash :: "textbf{").
Local Abbreviation textit := (backslash :: "textit{").
Local Abbreviation textquote := (backslash :: "textquote{").

Lemma bold_span :
  text_formatting ("**" ++ (c :: x) ++ "**") = textbf ++ (c :: x) ++ "}".
Proof.
  unfold text_formatting, re_sub.
  rewrite (sub_go_id monospace_re _ (ch "`")); [|reflexivity|without_char].
  rewrite quoted_italic_id by without_char.
  (* the italic pattern finds nothing *)
  change ("**" ++ (c :: x) ++ "**")
    with ("*"%char :: "*"%char :: (c :: x) ++ "**") at 1.
  rewrite (sub_go_miss italic_re) by apply (italic_at_pair []).
  rewrite (sub_go_miss italic_re) by apply italic_after_star.
  rewrite (sub_go_pass italic_re _ (ch "*") eq_refl (c :: x))
    by without_char.
  rewrite (sub_go_miss italic_re) by apply (italic_at_pair _ []).
  rewrite (sub_go_miss italic_re) by apply italic_after_star.
  rewrite (sub_go_end italic_re _ (ch "*")) by reflexivity.
  (* the bold pattern takes the span *)
  change ("*"%char :: "*"%char :: (c :: x) ++ "**")
    with ("**" ++ (c :: x) ++ "**" ++ "").
  pose proof (attempt_bold [] c x [] Q) as A.
  hit_with A.
  rewrite (sub_go_end bold_re _ (ch "*")) by reflexivity.
  cbn [expand command group groups assoc Nat.eqb]. rewrite !app_nil_r.
  apply (sub_go_id highlight_re _ (ch "=")); [reflexivity|].
  change (forallb (fun y => negb (ch "=" y)) (textbf ++ (c :: x) ++ "}")
          = true).
  without_char.
Qed.

Lemma italic_span :
  text_formatting ("*" ++ (c :: x) ++ "*") = textit ++ (c :: x) ++ "}".
Proof.
  unfold text_formatting, re_sub.
  rewrite (sub_go_id monospace_re _ (ch "`")); [|reflexivity|without_char].
  rewrite quoted_italic_id by without_char.
  replace ("*" ++ (c :: x) ++ "*") with ("*" ++ (c :: x) ++ "*" ++ "")
    by (now rewrite app_nil_r).
  assert (A : attempt italic_re [] ("*" ++ (c :: x) ++ "*" ++ "") = _)
    by (apply (attempt_italic c x [] Q); intros; discriminate).
  hit_with A.
  rewrite (sub_go_end italic_re _ (ch "*")) by reflexivity.
  cbn [expand command group groups assoc Nat.eqb]. rewrite !app_nil_r.
  assert (S : forallb (fun y => negb (ch "*" y)) (textit ++ (c :: x) ++ "}")
              = true) by without_char.
  assert (E : forallb (fun y => negb (ch "=" y)) (textit ++ (c :: x) ++ "}")
              = true) by without_char.
  rewrite (sub_go_id bold_re _ (ch "*") _ [] eq_refl S).
  apply (sub_go_id highlight_re _ (ch "=") _ [] eq_refl E).
Qed.

Lemma quoted_italic_span :
  text_formatting ("*" ++ [dquote] ++ (c :: x) ++ [dquote] ++ "*")
  = textquote ++ (c :: x) ++ "}".
Proof.
  unfold text_formatting, re_sub.
  rewrite (sub_go_id monospace_re _ (ch "`")); [|reflexivity|without_char].
  replace ("*" ++ [dquote] ++ (c :: x) ++ [dquote] ++ "*")
    with (("*" ++ [dquote] ++ (c :: x) ++ [dquote] ++ "*") ++ "")
    by (now rewrite app_nil_r).
  assert (A : attempt quoted_italic_re []
                ("*" ++ [dquote] ++ (c :: x) ++ [dquote] ++ "*" ++ "") = _)
    by (apply (attempt_quoted_italic c x [] Q); intros; discriminate).
  rewrite (sub_go_hit_at quoted_italic_re _ []
             ("*" ++ [dquote] ++ (c :: x) ++ [dquote] ++ "*") [] _
             ltac:(discriminate)
             ltac:(rewrite <- !app_assoc; exact A) ltac:(rev_norm) eq_refl).
  rewrite (sub_go_end quoted_italic_re _ (ch "*")) by reflexivity.
  cbn [expand command group groups assoc Nat.eqb seen].
  rewrite !app_nil_r.
  assert (S : forallb (fun y => negb (ch "*" y))
                (textquote ++ (c :: x) ++ "}") = true) by without_char.
  assert (E : forallb (fun y => negb (ch "=" y))
                (textquote ++ (c :: x) ++ "}") = true) by without_char.
  rewrite (sub_go_id italic_re _ (ch "*") _ [] eq_refl S).
  rewrite (sub_go_id bold_re _ (ch "*") _ [] eq_refl S).
  apply (sub_go_id highlight_re _ (ch "=") _ [] eq_refl E).
Qed.
End Emphasis.

(** A bold span and an italic span in one line. *)
Lemma bold_and_italic c1 x1 c2 x2 :
  forallb calm (c1 :: x1) = true -> forallb calm (c2 :: x2) = true ->
  text_formatting
    ("**" ++ (c1 :: x1) ++ "**" ++ " and " ++ "*" ++ (c2 :: x2) ++ "*")
  = (backslash :: "textbf{") ++ (c1 :: x1) ++ "}" ++ " and "
    ++ (backslash :: "textit{") ++ (c2 :: x2) ++ "}".
Proof.
  intros Q1 Q2.
  unfold text_formatting, re_sub.
  rewrite (sub_go_id monospace_re _ (ch "`")); [|reflexivity|without_char].
  rewrite quoted_italic_id by without_char.
  (* the italic pattern passes the bold span and takes the italic one *)
  change ("**" ++ (c1 :: x1) ++ "**" ++ " and " ++ "*" ++ (c2 :: x2) ++ "*")
    with ("*"%char :: "*"%char
          :: (c1 :: x1) ++ "**" ++ " and " ++ "*" ++ (c2 :: x2) ++ "*")
    at 1.
  rewrite (sub_go_miss italic_re) by apply (italic_at_pair []).
  rewrite (sub_go_miss italic_re) by apply italic_after_star.
  rewrite (sub_go_pass italic_re _ (ch "*") eq_refl (c1 :: x1))
    by without_char.
  change ("**" ++ " and " ++ "*" ++ (c2 :: x2) ++ "*")
    with ("*"%char :: "*"%char :: " and " ++ "*" ++ (c2 :: x2) ++ "*").
  rewrite (sub_go_miss italic_re)
    by apply (italic_at_pair _ (" and " ++ "*" ++ (c2 :: x2) ++ "*")).
  rewrite (sub_go_miss italic_re) by apply italic_after_star.
  rewrite (sub_go_pass italic_re _ (ch "*") eq_refl " and ") by reflexivity.
  replace ("*" ++ (c2 :: x2) ++ "*") with ("*" ++ (c2 :: x2) ++ "*" ++ "")
    by (now rewrite app_nil_r).
  match goal with
  | |- context [sub_go italic_re _ ?sn ("*" ++ (c2 :: x2) ++ "*" ++ "") 0] =>
    pose proof (attempt_italic c2 x2 [] Q2 ltac:(intros; discriminate) sn
                  ltac:(intros d t E; inversion E; reflexivity)) as A
  end.
  hit_with A.
  rewrite (sub_go_end italic_re _ (ch "*")) by reflexivity.
  cbn [expand command group groups assoc Nat.eqb]. rewrite !app_nil_r.
  (* the bold pattern takes the bold span *)
  match goal with
  | |- context [sub_go bold_re ?tpl [] ?s 0] =>
    change s
      with ("**" ++ (c1 :: x1) ++ "**"
            ++ (" and " ++ (backslash :: "textit{") ++ (c2 :: x2) ++ "}"))
  end.
  pose proof (attempt_bold [] c1 x1
                (" and " ++ (backslash :: "textit{") ++ (c2 :: x2) ++ "}")
                Q1) as B.
  hit_with B.
  assert (S : forallb (fun y => negb (ch "*" y))
                (" and " ++ (backslash :: "textit{") ++ (c2 :: x2) ++ "}")
              = true) by without_char.
  rewrite (sub_go_id bold_re _ (ch "*") _ _ eq_refl S).
  cbn [expand command group groups assoc Nat.eqb]. rewrite !app_nil_r.
  rewrite (sub_go_id highlight_re _ (ch "=") _ [] eq_refl).
  - now rewrite <- !app_assoc.
  - without_char.
Qed.

(** Where the italic pattern matches: at a star that no star comes before
    and no star follows, up to a star that no star follows. *)
Lemma italic_match_borders sn rs st :
  attempt italic_re sn rs = Some st ->
  (forall d t, sn = d :: t -> ch "*" d = false) /\
  (exists d t, rs = "*"%char :: d :: t /\ ch "*" d = false) /\
  (forall d t, rest st = d :: t -> ch "*" d = false).
Proof.
  unfold attempt. intros H. apply exec_sound in H.
  destruct H as (st' & M & K). inversion K; subst; clear K.
  unfold italic_re, star_lazy in M. simpl in M. inv_matches.
  unfold capture, advance in *. simpl in *.
  split; [assumption|]. split; [|assumption].
  subst.
  repeat match goal with H : ch _ _ = true |- _ => apply ch_eq in H end.
  subst. do 2 eexists. split; [reflexivity|].
  match goal with
  | H : not_ch _ _ = true |- _ =>
    unfold not_ch in H; apply negb_true_iff in H; exact H
  end.
Qed.



(* ================================================================== *)
(** * The matcher finds a match when there is one *)

Lemma rep_greedy_complete p g k m : forall lo hi sn rs,
  forallb p m = true -> lo <= length m ->
  (forall h, hi = Some h -> length m <= h) ->
  k (MState (rev m ++ sn) rs g) <> None ->
  rep_greedy p g k lo hi sn (m ++ rs) <> None.
Proof.
  induction m as [|c m IH]; intros lo hi sn rs Hp Hlo Hhi Hk.
  - simpl in *. assert (lo = 0) by lia. subst.
    destruct rs as [|c t]; simpl.
    + now destruct (exhausted hi).
    + destruct (exhausted hi); [assumption|].
      destruct (p c); [|assumption].
      now destruct (rep_greedy p g k 0 (dec hi) (c :: sn) t).
  - simpl in Hp. apply andb_true_iff in Hp. destruct Hp as [Pc Hp].
    simpl. assert (Ex : exhausted hi = false).
    { destruct hi as [[|h]|]; try reflexivity.
      specialize (Hhi 0 eq_refl). simpl in Hhi. lia. }
    rewrite Ex, Pc.
    destruct (rep_greedy p g k (pred lo) (dec hi) (c :: sn) (m ++ rs)) eqn:R;
      [discriminate|].
    exfalso. revert R. apply IH; [assumption|simpl in Hlo; lia| |].
    + intros h Hh. destruct hi as [[|h']|]; simpl in Hh; try discriminate.
      inversion Hh; subst. specialize (Hhi (S h) eq_refl). simpl in Hhi. lia.
    + simpl in Hk. now rewrite <- app_assoc in Hk.
Qed.

Lemma rep_lazy_complete p g k m : forall lo hi sn rs,
  forallb p m = true -> lo <= length m ->
  (forall h, hi = Some h -> length m <= h) ->
  k (MState (rev m ++ sn) rs g) <> None ->
  rep_lazy p g k lo hi sn (m ++ rs) <> None.
Proof.
  induction m as [|c m IH]; intros lo hi sn rs Hp Hlo Hhi Hk.
  - simpl in *. assert (lo = 0) by lia. subst.
    destruct rs as [|c t]; simpl;
      destruct (k (MState sn _ g)); try discriminate; now elim Hk.
  - simpl in Hp. apply andb_true_iff in Hp. destruct Hp as [Pc Hp].
    assert (Ex : exhausted hi = false).
    { destruct hi as [[|h]|]; try reflexivity.
      specialize (Hhi 0 eq_refl). simpl in Hhi. lia. }
    assert (More : rep_lazy p g k (pred lo) (dec hi) (c :: sn) (m ++ rs)
                   <> None).
    { apply IH; [assumption|simpl in Hlo; lia| |].
      - intros h Hh. destruct hi as [[|h']|]; simpl in Hh; try discriminate.
        inversion Hh; subst. specialize (Hhi (S h) eq_refl). simpl in Hhi. lia.
      - simpl in Hk. now rewrite <- app_assoc in Hk. }
    simpl. rewrite Ex, Pc.
    destruct (lo =? 0); [|assumption].
    now destruct (k (MState sn (c :: m ++ rs) g)).
Qed.

Lemma exec_complete r st st' :
  matches r st st' -> forall k, k st' <> None -> exec r st k <> None.
Proof.
  induction 1; intros k Hk; simpl.
  - assumption.
  - now rewrite H, H0.
  - rewrite H. destruct greedy.
    + now apply rep_greedy_complete.
    + now apply rep_lazy_complete.
  - apply IHmatches1. now apply IHmatches2.
  - specialize (IHmatches k Hk). now destruct (exec r1 st k).
  - destruct (exec r1 st k); [discriminate|]. now apply IHmatches.
  - now apply IHmatches.
  - now rewrite H.
  - destruct H as [H|H]; rewrite H; [assumption|]. now rewrite Ascii.eqb_refl.
  - destruct (seen st) as [|c t] eqn:S; [assumption|].
    now rewrite (H c t eq_refl).
  - destruct (rest st) as [|c t] eqn:S; [assumption|].
    now rewrite (H c t eq_refl).
Qed.

(* ================================================================== *)
(** * Properties of the inline transformer: citations *)

Lemma year_key_loose s : spec_year_key s -> loose_key s.
Proof.
  intros (w & p & d1 & d2 & v & -> & Hp & Hw & H1 & H2 & Hv).
  assert (G : forall a y, isword a = true -> year_class y = true ->
              loose_key (w ++ [a; y] ++ d1 :: d2 :: v)).
  { intros a y Ha Hy. exists (w ++ [a]), y, d1, d2, v.
    rewrite <- app_assoc. split; [reflexivity|].
    split; [now destruct w|].
    rewrite forallb_app, Hw. simpl. rewrite Ha. repeat split; auto. }
  destruct Hp as [<-|[<-|[<-|[]]]]; now apply G.
Qed.

Lemma a123_loose : loose_key "a123" /\ ~ spec_year_key "a123".
Proof.
  split.
  - exists "a", "1"%char, "2"%char, "3"%char, "". repeat split; auto.
    discriminate.
  - intros (w & p & d1 & d2 & v & E & Hp & _).
    destruct Hp as [<-|[<-|[<-|[]]]];
      destruct w as [|? [|? [|? [|? [|]]]]]; simpl in E; discriminate.
Qed.

(** Two cuts of a text at a first backtick agree. *)
Lemma first_backtick a : forall b x y,
  a ++ "`"%char :: x = b ++ "`"%char :: y ->
  forallb (fun c => negb (ch "`" c)) a = true ->
  forallb (fun c => negb (ch "`" c)) b = true ->
  a = b /\ x = y.
Proof.
  induction a as [|c a IH]; intros [|d b] x y E Ha Hb; simpl in *.
  - inversion E. now split.
  - inversion E; subst. apply andb_true_iff in Hb. destruct Hb as [Hd _].
    discriminate.
  - inversion E; subst. apply andb_true_iff in Ha. destruct Ha as [Hc _].
    discriminate.
  - inversion E; subst. apply andb_true_iff in Ha, Hb.
    destruct (IH b x y) as [-> ->]; tauto.
Qed.

Lemma word_no_backtick w :
  forallb isword w = true -> forallb (fun c => negb (ch "`" c)) w = true.
Proof.
  intros H. rewrite forallb_forall in *. intros c Hc. specialize (H c Hc).
  unfold ch. destruct (Ascii.eqb_spec c "`"); [subst; discriminate|reflexivity].
Qed.

Lemma digit_word c : isdigit c = true -> isword c = true.
Proof. intros H. unfold isword. now rewrite H. Qed.

Lemma year_no_backtick c : year_class c = true -> negb (ch "`" c) = true.
Proof.
  intros H. unfold ch.
  destruct (Ascii.eqb_spec c "`"); [subst; discriminate|reflexivity].
Qed.

Lemma loose_no_backtick s :
  loose_key s -> forallb (fun c => negb (ch "`" c)) s = true.
Proof.
  intros (w & y & d1 & d2 & v & -> & _ & Hw & Hy & H1 & H2 & Hv).
  rewrite forallb_app. cbn [forallb].
  rewrite (word_no_backtick w Hw), (word_no_backtick v Hv),
    (year_no_backtick y Hy).
  pose proof (word_no_backtick [d1; d2]) as D. simpl in D.
  rewrite (digit_word _ H1), (digit_word _ H2) in D. specialize (D eq_refl).
  rewrite andb_true_r in D. apply andb_true_iff in D. destruct D as [-> ->].
  reflexivity.
Qed.

(** What a match of the pattern of a key in backticks is. *)
Lemma code_key_shape sn rs st :
  attempt code_key_re sn rs = Some st ->
  exists s, loose_key s /\ rs = "`" ++ s ++ "`" ++ rest st /\
            seen st = rev ("`" ++ s ++ "`") ++ sn /\ group 1 st = s.
Proof.
  unfold attempt. intros H. apply exec_sound in H.
  destruct H as (st' & M & K). inversion K; subst; clear K.
  unfold code_key_re, plus, star, times in M. simpl in M. inv_matches.
  unfold capture, advance, group in *. simpl in *. use_bounds. subst.
  repeat match goal with H : ch _ _ = true |- _ => apply ch_eq in H end. subst.
  destruct m0 as [|d1 [|d2 [|]]]; simpl in *; try lia.
  apply andb_true_iff in H20. destruct H20 as [D1 D2].
  apply andb_true_iff in D2. destruct D2 as [D2 _].
  exists (m1 ++ c :: d1 :: d2 :: m). split; [|split; [|split]].
  - exists m1, c, d1, d2, m. repeat split; auto. now destruct m1.
  - now rewrite <- !app_assoc.
  - rev_norm.
  - apply between_upto. rev_norm.
Qed.

(** A backtick span whose text is a loose key is rewritten. *)
Lemma code_key_hit tpl sn s rs :
  loose_key s ->
  exists st,
    attempt code_key_re sn ("`" ++ s ++ "`" ++ rs) = Some st /\
    group 1 st = s /\
    sub_go code_key_re tpl sn ("`" ++ s ++ "`" ++ rs) 0
    = expand tpl st ++ sub_go code_key_re tpl (seen st) rs 0.
Proof.
  intros L. pose proof (loose_no_backtick s L) as NB.
  destruct L as (w & y & d1 & d2 & v & E & Hw0 & Hw & Hy & H1 & H2 & Hv).
  destruct (attempt code_key_re sn ("`" ++ s ++ "`" ++ rs)) as [st|] eqn:A.
  - exists st. split; [reflexivity|].
    destruct (code_key_shape _ _ _ A) as (s' & L' & Ers & Eseen & Eg).
    pose proof (loose_no_backtick s' L') as NB'.
    simpl in Ers. inversion Ers as [Ers'].
    apply first_backtick in Ers'; [|assumption..].
    destruct Ers' as [<- Er]. split; [assumption|].
    replace ("`" ++ s ++ "`" ++ rs) with (("`" ++ s ++ "`") ++ rs) in *
      by (now rewrite <- !app_assoc).
    apply sub_go_hit_at; [discriminate|assumption|assumption|now symmetry].
  - exfalso. revert A. unfold attempt.
    apply exec_complete with
      (st' := MState ("`"%char :: rev s ++ "`"%char :: sn) rs
                     [(1, between
                            (MState ("`"%char :: sn) (s ++ "`" ++ rs) [])
                            (MState (rev s ++ "`"%char :: sn) ("`" ++ rs)
                                    []))]);
      [|discriminate].
    unfold code_key_re, plus, star, times. simpl.
    eapply M_Seq.
    { eapply M_Seq; [|apply M_Eps].
      now apply M_Chr with (t := s ++ "`" ++ rs). }
    eapply M_Seq.
    { apply (M_Grp 1 _ (MState ("`"%char :: sn) (s ++ "`" ++ rs) [])
                   (MState (rev s ++ "`"%char :: sn) ("`" ++ rs) [])).
      subst s.
      eapply M_Seq.
      { apply (M_Rep isword 1 None true w _
                     (y :: d1 :: d2 :: v ++ "`" ++ rs)); simpl.
        - now rewrite <- app_assoc.
        - assumption.
        - destruct w; [contradiction|simpl; lia].
        - discriminate. }
      eapply M_Seq.
      { apply M_Chr with (t := d1 :: d2 :: v ++ "`" ++ rs);
          [reflexivity|assumption].
        }
      eapply M_Seq.
      { apply (M_Rep isdigit 2 (Some 2) true [d1; d2] _ (v ++ "`" ++ rs));
          simpl.
        - reflexivity.
        - now rewrite H1, H2.
        - lia.
        - intros h Hh. inversion Hh. lia. }
      simpl.
      match goal with
      | |- matches _ ?a ?b =>
        replace b with (MState (rev v ++ seen a) ("`" ++ rs) (groups a))
      end.
      { apply (M_Rep isword 0 None true v _ ("`" ++ rs)); simpl;
          [reflexivity|assumption|lia|discriminate]. }
      simpl. f_equal. rev_norm. }
    eapply M_Seq; [|apply M_Eps].
    simpl. unfold capture. simpl.
    now apply (M_Chr (ch "`") "`"%char rs).
Qed.

Lemma citation_keys_span s :
  forallb (fun c => negb (ch "`" c)) s = true ->
  (loose_key s -> citation_keys ("`" ++ s ++ "`") = "[[" ++ s ++ "]]") /\
  (~ loose_key s -> citation_keys ("`" ++ s ++ "`") = "`" ++ s ++ "`").
Proof.
  intros NB. unfold citation_keys, re_sub. split.
  - intros L.
    destruct (code_key_hit [TLit "[["; TGrp 1; TLit "]]"] [] s [] L)
      as (st & _ & G & S).
    rewrite app_nil_r in S.
    rewrite S, (sub_go_end code_key_re _ (ch "`")) by reflexivity.
    cbn [expand]. now rewrite G, !app_nil_r.
  - intros NL.
    change ("`" ++ s ++ "`") with ("`"%char :: s ++ "`").
    rewrite sub_go_miss.
    + rewrite (sub_go_pass code_key_re _ (ch "`") eq_refl s) by assumption.
      reflexivity.
    + destruct (attempt code_key_re [] ("`"%char :: s ++ "`")) as [st|] eqn:A;
        [|reflexivity].
      exfalso. apply NL.
      destruct (code_key_shape _ _ _ A) as (s' & L' & Ers & _).
      simpl in Ers. inversion Ers as [Ers'].
      apply first_backtick in Ers';
        [|assumption|now apply loose_no_backtick].
      destruct Ers' as [-> _]. assumption.
Qed.

(** C7.  The class written [[18|19|20]] in the patterns of the citations
    is a class of one character, 0, 1, 2, 8, 9 or the bar, not the choice
    between the three prefixes of a year.  A backtick span is rewritten
    into a double-bracket reference exactly when its text is made of word
    characters, at least one, one character of that class, two digits and
    word characters: every key that holds a year of the prefix 18, 19 or 20
    is such a text, and so are texts that hold no year.  So `a123` and
    `x|12` become citation commands, next to `doe2020abc`; two keys
    separated by a comma and a blank are merged into one command. *)
Theorem citation_keys_need_no_year :
  (forall c, year_class c = true
             <-> In c ["1"; "8"; "|"; "9"; "2"; "0"]%char) /\
  (forall s, spec_year_key s -> loose_key s) /\
  (loose_key "a123" /\ ~ spec_year_key "a123") /\
  (forall s,
     forallb (fun c => negb (ch "`" c)) s = true ->
     (loose_key s -> citation_keys ("`" ++ s ++ "`") = "[[" ++ s ++ "]]") /\
     (~ loose_key s -> citation_keys ("`" ++ s ++ "`") = "`" ++ s ++ "`")) /\
  citation_keys "`a123`" = "[[a123]]" /\
  format_text ["`a123`"] = Some ["\cite{a123}"] /\
  format_text ["`x|12`"] = Some ["\cite{x|12}"] /\
  format_text ["`doe2020abc`"] = Some ["\cite{doe2020abc}"] /\
  format_text ["`doe2020a`, `doe2020b`"] = Some ["\cite{doe2020a,doe2020b}"].
Proof.
  split; [|split; [|split; [|split; [|repeat split; reflexivity]]]].
  - intros c. unfold year_class, one_of, mem. simpl.
    rewrite !orb_true_iff, !Ascii.eqb_eq.
    intuition (subst; auto; try discriminate).
  - apply year_key_loose.
  - apply a123_loose.
  - apply citation_keys_span.
Qed.

(* ================================================================== *)
(** * Which repetition a quantifier settles on *)

(** A text falls into its longest prefix in a class and the rest. *)
Lemma span_exists (p : ascii -> bool) (s : str) :
  exists a b, s = a ++ b /\ forallb p a = true /\
              (forall d t, b = d :: t -> p d = false).
Proof.
  induction s as [|c s (a & b & E & Ha & Hb)].
  - exists [], []. repeat split. discriminate.
  - destruct (p c) eqn:Pc.
    + exists (c :: a), b. subst. simpl. rewrite Pc. repeat split; auto.
    + exists [], (c :: s). repeat split. intros d t H. now inversion H; subst.
Qed.

(** Two such cuts of one text agree. *)
Lemma span_unique (p : ascii -> bool) a : forall a' b b',
  a ++ b = a' ++ b' ->
  forallb p a = true -> forallb p a' = true ->
  (forall d t, b = d :: t -> p d = false) ->
  (forall d t, b' = d :: t -> p d = false) ->
  a = a' /\ b = b'.
Proof.
  induction a as [|c a IH]; intros [|c' a'] b b' E Ha Ha' Hb Hb';
    simpl in *.
  - auto.
  - subst b. apply andb_true_iff in Ha'. destruct Ha' as [Pc _].
    rewrite (Hb c' (a' ++ b') eq_refl) in Pc. discriminate.
  - subst b'. apply andb_true_iff in Ha. destruct Ha as [Pc _].
    rewrite (Hb' c (a ++ b) eq_refl) in Pc. discriminate.
  - inversion E; subst. apply andb_true_iff in Ha, Ha'.
    destruct (IH a' b b') as [-> ->]; tauto.
Qed.

(** Before a continuation that cannot fail, a greedy repetition reads the
    longest prefix in its class. *)
Lemma rep_greedy_span p g k m rs : forall sn,
  forallb p m = true -> (forall d t, rs = d :: t -> p d = false) ->
  (forall st, k st <> None) ->
  rep_greedy p g k 0 None sn (m ++ rs) = k (MState (rev m ++ sn) rs g).
Proof.
  induction m as [|c m IH]; intros sn Hm Hrs Hk; simpl.
  - destruct rs as [|d t]; [reflexivity|]. simpl.
    now rewrite (Hrs d t eq_refl).
  - simpl in Hm. apply andb_true_iff in Hm. destruct Hm as [Pc Hm].
    rewrite Pc, (IH (c :: sn) Hm Hrs Hk), <- app_assoc. simpl.
    destruct (k (MState (rev m ++ c :: sn) rs g)) eqn:K; [reflexivity|].
    now apply Hk in K.
Qed.

(** A repetition of exactly [n] characters. *)
Lemma rep_greedy_exact p g k m rs : forall sn,
  forallb p m = true ->
  rep_greedy p g k (length m) (Some (length m)) sn (m ++ rs)
  = k (MState (rev m ++ sn) rs g).
Proof.
  induction m as [|c m IH]; intros sn Hm; simpl.
  - now destruct rs.
  - simpl in Hm. apply andb_true_iff in Hm. destruct Hm as [Pc Hm].
    rewrite Pc, (IH (c :: sn) Hm), <- app_assoc. simpl.
    now destruct (k (MState (rev m ++ c :: sn) rs g)).
Qed.

(** The success of a greedy repetition is the one with the longest
    repetition after which the continuation succeeds. *)
Lemma rep_greedy_longest p g k rs : forall sn res,
  rep_greedy p g k 0 None sn rs = Some res ->
  exists m rs', rs = m ++ rs' /\ forallb p m = true /\
    k (MState (rev m ++ sn) rs' g) = Some res /\
    forall a b, rs' = a ++ b -> a <> [] -> forallb p a = true ->
      k (MState (rev (m ++ a) ++ sn) b g) = None.
Proof.
  assert (Fail : forall sn rs a b,
             rep_greedy p g k 0 None sn rs = None ->
             rs = a ++ b -> forallb p a = true ->
             k (MState (rev a ++ sn) b g) = None).
  { intros sn rs0 a b N -> Ha.
    destruct (k (MState (rev a ++ sn) b g)) eqn:K; [|reflexivity].
    exfalso. revert N.
    apply rep_greedy_complete; try assumption; try lia; try discriminate.
    now rewrite K. }
  induction rs as [|c t IH]; intros sn res H; simpl in H.
  - exists [], []. repeat split; auto.
    intros a b E Na. destruct a; [congruence|discriminate].
  - destruct (p c) eqn:Pc.
    + destruct (rep_greedy p g k 0 None (c :: sn) t) as [r|] eqn:R.
      * inversion H; subst r; clear H.
        destruct (IH _ _ R) as (m & rs' & -> & Hm & K & L).
        exists (c :: m), rs'. simpl. rewrite Pc, <- app_assoc.
        repeat split; auto.
        intros a b E Na Ha. specialize (L a b E Na Ha).
        now rewrite <- app_assoc.
      * exists [], (c :: t). repeat split; auto.
        intros a b E Na Ha. destruct a as [|c' a]; [congruence|].
        simpl in E. inversion E; subst. simpl. rewrite <- app_assoc.
        apply (Fail (c' :: sn) (a ++ b) a b R eq_refl).
        simpl in Ha. now apply andb_true_iff in Ha.
    + exists [], (c :: t). repeat split; auto.
      intros a b E Na Ha. destruct a as [|c' a]; [congruence|].
      simpl in E. inversion E; subst. simpl in Ha. rewrite Pc in Ha.
      discriminate.
Qed.

(** Conversely, the longest repetition after which the continuation
    succeeds is the one a greedy repetition settles on. *)
Lemma rep_greedy_at_longest p g k m rs res : forall sn,
  forallb p m = true ->
  k (MState (rev m ++ sn) rs g) = Some res ->
  (forall a b, rs = a ++ b -> a <> [] -> forallb p a = true ->
               k (MState (rev (m ++ a) ++ sn) b g) = None) ->
  rep_greedy p g k 0 None sn (m ++ rs) = Some res.
Proof.
  induction m as [|c m IH]; intros sn Hm K L; simpl.
  - simpl in K. destruct rs as [|c t]; simpl; [exact K|].
    destruct (p c) eqn:Pc; [|exact K].
    destruct (rep_greedy p g k 0 None (c :: sn) t) as [r|] eqn:R; [|exact K].
    exfalso. apply rep_greedy_sound in R.
    destruct R as (m2 & rs2 & -> & Hm2 & _ & _ & K2).
    specialize (L (c :: m2) rs2 eq_refl). simpl in L.
    rewrite Pc, Hm2, <- app_assoc in L. simpl in L.
    rewrite L in K2; [discriminate|discriminate|reflexivity].
  - simpl in Hm. apply andb_true_iff in Hm. destruct Hm as [Pc Hm].
    rewrite Pc. rewrite (IH (c :: sn) Hm).
    + reflexivity.
    + simpl in K. now rewrite <- app_assoc in K.
    + intros a b E Na Ha. specialize (L a b E Na Ha).
      simpl in L. now rewrite <- app_assoc in L.
Qed.

(** The success of a lazy repetition is the one with the shortest
    repetition after which the continuation succeeds. *)
Lemma rep_lazy_first p g k rs : forall sn res,
  rep_lazy p g k 0 None sn rs = Some res ->
  exists m rs', rs = m ++ rs' /\ forallb p m = true /\
    k (MState (rev m ++ sn) rs' g) = Some res /\
    forall a b, m = a ++ b -> b <> [] ->
      k (MState (rev a ++ sn) (b ++ rs') g) = None.
Proof.
  assert (Nil : forall (a b : str), [] = a ++ b -> b <> [] -> False).
  { intros a b E Nb. destruct a; destruct b; try discriminate. congruence. }
  induction rs as [|c t IH]; intros sn res H; simpl in H.
  - destruct (k (MState sn [] g)) as [r|] eqn:K; [|discriminate].
    exists [], []. split; [reflexivity|]. split; [reflexivity|].
    split; [simpl; congruence|]. intros a b E Nb. destruct (Nil a b E Nb).
  - destruct (k (MState sn (c :: t) g)) as [r|] eqn:K.
    + exists [], (c :: t). split; [reflexivity|]. split; [reflexivity|].
      split; [simpl; congruence|]. intros a b E Nb. destruct (Nil a b E Nb).
    + destruct (p c) eqn:Pc; [|discriminate].
      destruct (IH _ _ H) as (m & rs' & -> & Hm & K' & L).
      exists (c :: m), rs'. simpl. rewrite Pc, <- app_assoc.
      split; [reflexivity|]. split; [assumption|]. split; [assumption|].
      intros a b E Nb. destruct a as [|c' a].
      * simpl in E. subst b. exact K.
      * simpl in E. inversion E; subst. simpl. rewrite <- app_assoc.
        now apply L.
Qed.

(* ================================================================== *)
(** * The first character of a line and the detectors *)

Lemma equation_dollars_shape line :
  is_equation_dollars line = true ->
  exists t, strip line = "$"%char :: "$"%char :: t.
Proof.
  unfold is_equation_dollars. intros H. apply str_eqb_eq in H.
  destruct (strip line) as [|a [|b t]]; simpl in H; try discriminate.
  inversion H; subst. now exists t.
Qed.

Lemma footnote_shape line mark text :
  detect_footnote line = Some (mark, text) ->
  exists t, strip line = "["%char :: t.
Proof.
  unfold detect_footnote, re_match, attempt. intros H.
  destruct (exec footnote_re (MState [] line []) Some) as [res|] eqn:E;
    [|discriminate].
  apply exec_sound in E. destruct E as (st' & M & _).
  unfold footnote_re in M. simpl in M.
  inv_matches; simpl in *.
  repeat match goal with H : ch _ _ = true |- _ => apply ch_eq in H end.
  subst. apply strip_cons. reflexivity.
Qed.

Lemma list_item_shape line :
  is_list_item line = true -> exists t, strip line = "-"%char :: t.
Proof.
  unfold is_list_item. destruct (strip line) as [|c t]; [discriminate|].
  intros H. apply Ascii.eqb_eq in H. subst. now exists t.
Qed.

Lemma quote_shape line :
  is_quote line = true -> exists t, strip line = ">"%char :: t.
Proof.
  unfold is_quote. destruct (strip line) as [|c t]; [discriminate|].
  intros H. apply Ascii.eqb_eq in H. subst. now exists t.
Qed.

Lemma header_lead line lvl title :
  detect_header line None = Some (lvl, title) ->
  exists t, strip line = "#"%char :: t.
Proof.
  intros D. apply header_shape in D.
  destruct D as (m & c & t & -> & Hm & Hl & Hb & Hc).
  destruct m as [|a m]; [simpl in Hl; lia|].
  simpl in Hm. apply andb_true_iff in Hm. destruct Hm as [Ha _].
  apply ch_eq in Ha. subst a. apply strip_cons. reflexivity.
Qed.

Lemma ignore_line_lead line :
  is_ignore_line line = true ->
  strip line = [] \/ exists t, strip line = "#"%char :: t.
Proof.
  unfold is_ignore_line. intros H. apply orb_true_iff in H.
  destruct H as [H|H].
  - left. apply Nat.eqb_eq in H. now destruct (strip line).
  - right. unfold is_comment in H.
    destruct (detect_command line) as [cmd|] eqn:D; [|discriminate].
    apply command_shape in D.
    destruct D as (m & c & t & -> & Hm & Hl & Hc).
    destruct m as [|a m]; [simpl in Hl; lia|].
    simpl in Hm. apply andb_true_iff in Hm. destruct Hm as [Ha _].
    apply ch_eq in Ha. subst a. apply strip_cons. reflexivity.
Qed.

(** What the detectors that look at the first character of the stripped
    line say on a line that begins otherwise. *)
Lemma lead_decides line c t :
  strip line = c :: t ->
  (ch "#" c = false ->
   is_ignore_line line = false /\ detect_header line None = None
   /\ is_comment line = false) /\
  (ch "-" c = false ->
   is_separator_line line = false /\ is_list_item line = false) /\
  (ch "$" c = false -> is_equation_dollars line = false) /\
  (ch "`" c = false -> detect_labeled_equation line = None) /\
  (ch ">" c = false -> is_quote line = false) /\
  (ch "!" c = false -> detect_figure line = None) /\
  (ch "[" c = false -> detect_footnote line = None).
Proof.
  intros St.
  split; [intros Hc; split; [|split]|].
  { destruct (no_sharp_first _ _ _ St Hc) as [NC _].
    unfold is_ignore_line, is_comment. now rewrite St, NC. }
  { now destruct (no_sharp_first _ _ _ St Hc). }
  { destruct (no_sharp_first _ _ _ St Hc) as [NC _].
    unfold is_comment. now rewrite NC. }
  split; [intros Hc; split|].
  { destruct (is_separator_line line) eqn:E; [|reflexivity].
    unfold is_separator_line in E. apply str_eqb_eq in E.
    rewrite E in St. inversion St; subst. discriminate. }
  { unfold is_list_item. rewrite St. exact Hc. }
  split; [intros Hc|].
  { destruct (is_equation_dollars line) eqn:E; [|reflexivity].
    apply equation_dollars_shape in E. destruct E as [t' E].
    rewrite E in St. inversion St; subst. discriminate. }
  split; [intros Hc|].
  { destruct (detect_labeled_equation line) eqn:E; [|reflexivity].
    apply labeled_equation_shape in E. destruct E as [t' E].
    rewrite E in St. inversion St; subst. discriminate. }
  split; [intros Hc|].
  { unfold is_quote. rewrite St. exact Hc. }
  split; intros Hc.
  { destruct (detect_figure line) eqn:E; [|reflexivity].
    apply figure_shape in E. destruct E as [t' E].
    rewrite E in St. inversion St; subst. discriminate. }
  { destruct (detect_footnote line) as [[mk tx]|] eqn:E; [|reflexivity].
    apply footnote_shape in E. destruct E as [t' E].
    rewrite E in St. inversion St; subst. discriminate. }
Qed.

Lemma fires_lead d line :
  fires d line = true ->
  match d with
  | D_ignore_line =>
    strip line = [] \/ exists t, strip line = "#"%char :: t
  | D_separator => strip line = "---"
  | D_header => exists t, strip line = "#"%char :: t
  | D_unlabeled_equation => exists t, strip line = "$"%char :: t
  | D_labeled_equation => exists t, strip line = "`"%char :: t
  | D_list => exists t, strip line = "-"%char :: t
  | D_quote => exists t, strip line = ">"%char :: t
  | D_figure => exists t, strip line = "!"%char :: t
  | D_footnote => exists t, strip line = "["%char :: t
  | D_paragraph => True
  end.
Proof.
  destruct d; simpl; intros H.
  - now apply ignore_line_lead.
  - now apply str_eqb_eq in H.
  - destruct (detect_header line None) as [[lvl title]|] eqn:D;
      [|discriminate].
    exact (header_lead _ _ _ D).
  - apply equation_dollars_shape in H. destruct H as [t H]. eauto.
  - destruct (detect_labeled_equation line) eqn:D; [|discriminate].
    exact (labeled_equation_shape _ _ D).
  - now apply list_item_shape.
  - now apply quote_shape.
  - destruct (detect_figure line) eqn:D; [|discriminate].
    exact (figure_shape _ _ D).
  - destruct (detect_footnote line) as [[mk tx]|] eqn:D; [|discriminate].
    exact (footnote_shape _ _ _ D).
  - exact I.
Qed.

Lemma separator_is_list_item line :
  is_separator_line line = true -> is_list_item line = true.
Proof.
  unfold is_separator_line, is_list_item. intros H.
  apply str_eqb_eq in H. now rewrite H.
Qed.

(** X1. The detectors of the chain exclude one another but for one pair: a
    separator line is also a list item, and two different detectors, the
    paragraph fallback apart, fire on the same line only when the line is a
    separator and the two are the separator and the list detector.  So the
    order of the tests of the chain decides the block of a line only for
    the separator. *)
Theorem detectors_overlap_only_on_separators :
  (forall line, is_separator_line line = true -> is_list_item line = true) /\
  (forall d1 d2 line,
     d1 <> D_paragraph -> d2 <> D_paragraph -> d1 <> d2 ->
     fires d1 line = true -> fires d2 line = true ->
     is_separator_line line = true /\
     (d1 = D_separator /\ d2 = D_list \/ d1 = D_list /\ d2 = D_separator)).
Proof.
  split; [exact separator_is_list_item|].
  intros d1 d2 line P1 P2 N F1 F2.
  pose proof (fires_lead _ _ F1) as L1.
  pose proof (fires_lead _ _ F2) as L2.
  destruct d1, d2; try congruence; simpl in L1, L2, F1, F2;
    try (split; [assumption|tauto]);
    exfalso;
    repeat match goal with
           | H : _ \/ _ |- _ => destruct H
           | H : exists _, _ |- _ => destruct H
           end;
    try congruence.
  all: match goal with
       | H : is_some (detect_header ?l None) = true |- _ =>
         destruct (detect_header l None) as [[lvl title]|] eqn:D;
           [|discriminate];
         destruct (header_not_skipped _ _ _ D); congruence
       end.
Qed.

(** * Slices *)

Lemma slice_nth_error {A} a b (l : list A) x :
  In x (slice a b l) ->
  exists j, a <= j < b /\ nth_error l j = Some x.
Proof.
  unfold slice. intros H. apply In_nth_error in H. destruct H as [k H].
  rewrite nth_error_firstn in H.
  destruct (Nat.ltb_spec k (b - a)); [|discriminate].
  rewrite nth_error_skipn in H. exists (a + k). split; [lia|assumption].
Qed.

Lemma slice_Forall {A} (P : A -> Prop) a b (l : list A) :
  (forall j x, a <= j < b -> nth_error l j = Some x -> P x) ->
  Forall P (slice a b l).
Proof.
  intros H. apply Forall_forall. intros x Hx.
  apply slice_nth_error in Hx. destruct Hx as (j & Hj & E). eauto.
Qed.

Lemma slice_cons {A} a b (l : list A) x :
  nth_error l a = Some x -> a < b -> slice a b l = x :: slice (S a) b l.
Proof.
  unfold slice. revert l b. induction a as [|a IH]; intros l b E Hb.
  - destruct l as [|y l]; [discriminate|]. simpl in E. inversion E; subst.
    destruct b as [|b]; [lia|]. simpl. now rewrite Nat.sub_0_r.
  - destruct l as [|y l]; [discriminate|]. simpl in E.
    destruct b as [|b]; [lia|].
    change (firstn (b - a) (skipn a l)
            = x :: firstn (b - S a) (skipn (S a) l)).
    apply IH; [assumption|lia].
Qed.

Lemma slice_to_end {A} a b (l : list A) :
  length l <= b -> slice a b l = skipn a l.
Proof.
  intros H. unfold slice. apply firstn_all2. rewrite length_skipn. lia.
Qed.

(** * The branches of the chain *)

Section Blocks.
Variable text_lines : list str.
Variable fig_path : str.

Lemma position_bound i (line : str) :
  nth_error text_lines i = Some line -> i + 1 <= length text_lines.
Proof.
  intros Hl. assert (i < length text_lines); [|lia].
  apply nth_error_Some. now rewrite Hl.
Qed.

Lemma chain_equation ign i line :
  nth_error text_lines i = Some line ->
  is_equation_dollars line = true ->
  chain text_lines fig_path ign i
  = let e := find_next_index text_lines is_equation_dollars (i + 1) in
    Ret (Chain (Some (Equation (slice (i + 1) e text_lines) None))
           ign (e + 1)).
Proof.
  intros Hl E. destruct (equation_dollars_shape _ E) as [t St].
  destruct (lead_decides _ _ _ St) as ((NI & NH & _) & (NS & _) & _);
    try reflexivity.
  unfold chain, get. rewrite Hl. simpl. now rewrite NI, NS, NH, E.
Qed.

Lemma chain_list ign i line :
  nth_error text_lines i = Some line ->
  is_list_item line = true -> is_separator_line line = false ->
  chain text_lines fig_path ign i
  = let e := find_next_index text_lines
               (fun l => negb (is_list_item l)) (i + 1) in
    Ret (Chain (Some (List (slice i e text_lines))) ign e).
Proof.
  intros Hl E NS. destruct (list_item_shape _ E) as [t St].
  destruct (lead_decides _ _ _ St)
    as ((NI & NH & _) & _ & NE & NL & _); try reflexivity.
  unfold chain, get. rewrite Hl. simpl. now rewrite NI, NS, NH, NE, NL, E.
Qed.

Lemma chain_quote ign i line :
  nth_error text_lines i = Some line ->
  is_quote line = true ->
  chain text_lines fig_path ign i
  = let e := find_next_index text_lines
               (fun l => negb (is_quote l)) (i + 1) in
    Ret (Chain (Some (Quote (map (lstrip_chars "> ")
                               (slice i e text_lines)))) ign e).
Proof.
  intros Hl E. destruct (quote_shape _ E) as [t St].
  destruct (lead_decides _ _ _ St)
    as ((NI & NH & _) & (NS & NL) & NE & NB & _); try reflexivity.
  unfold chain, get. rewrite Hl. simpl.
  now rewrite NI, NS, NH, NE, NB, NL, E.
Qed.

Lemma chain_footnote ign i line mark text :
  nth_error text_lines i = Some line ->
  detect_footnote line = Some (mark, text) ->
  chain text_lines fig_path ign i
  = Ret (Chain (Some (Footnote mark [text])) ign (i + 1)).
Proof.
  intros Hl E. destruct (footnote_shape _ _ _ E) as [t St].
  destruct (lead_decides _ _ _ St)
    as ((NI & NH & _) & (NS & NL) & NE & NB & NQ & NF & _); try reflexivity.
  unfold chain, get. rewrite Hl. simpl.
  now rewrite NI, NS, NH, NE, NB, NL, NQ, NF, E.
Qed.

(** The end of a block found by [find_next_index]. *)
Lemma block_end expr i (line : str) :
  nth_error text_lines i = Some line ->
  let e := find_next_index text_lines expr (i + 1) in
  i < e <= length text_lines /\
  (forall j l, i < j < e -> nth_error text_lines j = Some l ->
               expr l = false) /\
  (e < length text_lines ->
   exists l, nth_error text_lines e = Some l /\ expr l = true).
Proof.
  intros Hl e.
  destruct (find_next_index_spec text_lines expr (i + 1)
              (position_bound _ _ Hl)) as (B & Before & At).
  fold e in B, Before, At. split; [lia|]. split; [|exact At].
  intros j l Hj. apply Before. lia.
Qed.

(** X2. On a line of equation dollars the chain builds an unlabeled equation
    of the lines [i+1 .. e-1], where [e] is the first later line of equation
    dollars, or the number of lines when there is none, and moves the
    pointer to [e+1]: no line of the content is a line of equation dollars,
    and an equation that is not closed takes all the lines left. *)
Theorem dollars_build_an_equation ign i line :
  nth_error text_lines i = Some line ->
  is_equation_dollars line = true ->
  exists e,
    chain text_lines fig_path ign i
    = Ret (Chain (Some (Equation (slice (i + 1) e text_lines) None))
             ign (e + 1)) /\
    i < e <= length text_lines /\
    (forall j l, i < j < e -> nth_error text_lines j = Some l ->
                 is_equation_dollars l = false) /\
    (e < length text_lines ->
     exists l, nth_error text_lines e = Some l /\
               is_equation_dollars l = true) /\
    (e = length text_lines ->
     slice (i + 1) e text_lines = skipn (i + 1) text_lines).
Proof.
  intros Hl E.
  destruct (block_end is_equation_dollars _ _ Hl) as (B & Before & At).
  eexists. split; [exact (chain_equation ign _ _ Hl E)|].
  split; [exact B|]. split; [exact Before|]. split; [exact At|].
  intros He. apply slice_to_end. lia.
Qed.

(** X3. On a list item that is not a separator the chain builds a list of
    the lines [i .. e-1], all of them list items, up to the first line that
    is no list item, and moves the pointer to [e].  A separator line just
    after the first item is a list item too, so it is taken into the list
    and does not toggle the ignore region. *)
Theorem list_items_build_a_list ign i line :
  nth_error text_lines i = Some line ->
  is_list_item line = true -> is_separator_line line = false ->
  exists e,
    chain text_lines fig_path ign i
    = Ret (Chain (Some (List (slice i e text_lines))) ign e) /\
    i < e <= length text_lines /\
    Forall (fun l => is_list_item l = true) (slice i e text_lines) /\
    (e < length text_lines ->
     exists l, nth_error text_lines e = Some l /\ is_list_item l = false) /\
    (forall next,
       nth_error text_lines (i + 1) = Some next ->
       is_separator_line next = true ->
       exists rest, slice i e text_lines = line :: next :: rest).
Proof.
  intros Hl E NS.
  destruct (block_end (fun l => negb (is_list_item l)) _ _ Hl)
    as (B & Before & At).
  set (e := find_next_index text_lines (fun l => negb (is_list_item l))
              (i + 1)) in *.
  assert (Items : forall j l, i <= j < e -> nth_error text_lines j = Some l ->
                              is_list_item l = true).
  { intros j l Hj Hjl. destruct (Nat.eq_dec j i) as [->|].
    - congruence.
    - apply negb_false_iff. apply (Before j); [lia|assumption]. }
  exists e. split; [exact (chain_list ign _ _ Hl E NS)|].
  split; [exact B|]. split; [now apply slice_Forall|]. split.
  - intros He. destruct (At He) as (l & Hel & F).
    exists l. split; [assumption|now apply negb_true_iff].
  - intros next Hn Sn.
    assert (i + 1 < e).
    { destruct (Nat.eq_dec e (i + 1)) as [Ee|]; [|lia]. exfalso.
      assert (He : e < length text_lines).
      { rewrite Ee. apply nth_error_Some. now rewrite Hn. }
      destruct (At He) as (l & Hel & F). rewrite Ee, Hn in Hel.
      inversion Hel; subst. apply negb_true_iff in F.
      apply separator_is_list_item in Sn. congruence. }
    rewrite (slice_cons i e _ _ Hl) by lia.
    replace (S i) with (i + 1) by lia.
    rewrite (slice_cons (i + 1) e _ _ Hn) by lia. eauto.
Qed.

Lemma lstrip_chars_hd chars s c t :
  lstrip_chars chars s = c :: t -> mem c chars = false.
Proof.
  unfold lstrip_chars. intros H.
  exact (dropwhile_hd (fun c => mem c chars) _ _ _ H).
Qed.

(** X4. On a quote line the chain builds a quote of the lines [i .. e-1],
    all of them quote lines, up to the first line that is no quote line,
    each with its leading ">" and space characters removed, and moves the
    pointer to [e]: no line of the content begins with ">" or a space. *)
Theorem quote_lines_build_a_quote ign i line :
  nth_error text_lines i = Some line ->
  is_quote line = true ->
  exists e,
    chain text_lines fig_path ign i
    = Ret (Chain (Some (Quote (map (lstrip_chars "> ")
                                 (slice i e text_lines)))) ign e) /\
    i < e <= length text_lines /\
    Forall (fun l => is_quote l = true) (slice i e text_lines) /\
    (e < length text_lines ->
     exists l, nth_error text_lines e = Some l /\ is_quote l = false) /\
    Forall (fun l => startswith ">" l = false /\ startswith " " l = false)
           (map (lstrip_chars "> ") (slice i e text_lines)).
Proof.
  intros Hl E.
  destruct (block_end (fun l => negb (is_quote l)) _ _ Hl)
    as (B & Before & At).
  set (e := find_next_index text_lines (fun l => negb (is_quote l))
              (i + 1)) in *.
  exists e. split; [exact (chain_quote ign _ _ Hl E)|].
  split; [exact B|]. split; [|split].
  - apply slice_Forall. intros j l Hj Hjl.
    destruct (Nat.eq_dec j i) as [->|]; [congruence|].
    apply negb_false_iff. apply (Before j); [lia|assumption].
  - intros He. destruct (At He) as (l & Hel & F).
    exists l. split; [assumption|now apply negb_true_iff].
  - apply Forall_forall. intros l Hin. apply in_map_iff in Hin.
    destruct Hin as (l0 & <- & _).
    destruct (lstrip_chars "> " l0) as [|c t] eqn:S; [now split|].
    apply lstrip_chars_hd in S. unfold mem in S. simpl in S.
    apply orb_false_iff in S. destruct S as [S1 S2].
    apply orb_false_iff in S2. destruct S2 as [S2 _].
    cbn [startswith].
    rewrite (Ascii.eqb_sym ">" c), (Ascii.eqb_sym " " c), S1, S2.
    now split.
Qed.

Lemma figure_or_footnote_no_end line :
  is_some (detect_figure line) || is_some (detect_footnote line) = true ->
  is_end_paragraph line = false.
Proof.
  intros H. apply orb_true_iff in H.
  assert (exists c t, strip line = c :: t /\ mem c "#-$`>" = false)
    as (c & t & St & M).
  { destruct H as [H|H].
    - destruct (detect_figure line) eqn:D; [|discriminate].
      apply figure_shape in D. destruct D as [t D]. now exists "!"%char, t.
    - destruct (detect_footnote line) as [[mk tx]|] eqn:D; [|discriminate].
      apply footnote_shape in D. destruct D as [t D].
      now exists "["%char, t. }
  unfold mem in M. simpl in M.
  repeat (apply orb_false_iff in M; destruct M as [? M]).
  destruct (lead_decides _ _ _ St)
    as ((NI & NH & NC) & (NS & NL) & NE & NB & NQ & _); try assumption.
  unfold is_end_paragraph. now rewrite NI, NS, NH, NE, NB, NL, NQ, NC.
Qed.

(** X5. A paragraph the chain builds is the lines [i .. e-1], none of which
    ends a paragraph, up to the first line that does, with the pointer moved
    to [e] and the ignore flag kept.  A figure line or a footnote line does
    not end a paragraph ([is_end_paragraph] does not test them): just after
    the first line of a paragraph it is part of the paragraph. *)
Theorem paragraphs_end_at_block_openers ign i ign' content e :
  chain text_lines fig_path ign i
  = Ret (Chain (Some (Paragraph content)) ign' e) ->
  content = slice i e text_lines /\ ign' = ign /\
  i < e <= length text_lines /\
  Forall (fun l => is_end_paragraph l = false) content /\
  (e < length text_lines ->
   exists l, nth_error text_lines e = Some l /\ is_end_paragraph l = true) /\
  (forall next,
     nth_error text_lines (i + 1) = Some next ->
     is_some (detect_figure next) || is_some (detect_footnote next) = true ->
     exists first rest, content = first :: next :: rest).
Proof.
  unfold chain, bind, assert. intros H.
  destruct (get text_lines i) as [line|] eqn:G; [|discriminate].
  apply get_Ret in G.
  split_tests H; inversion H; subst; clear H.
  destruct (block_end is_end_paragraph _ _ G) as (B & Before & At).
  set (e := find_next_index text_lines is_end_paragraph (i + 1)) in *.
  assert (First : is_end_paragraph line = false).
  { unfold is_end_paragraph.
    match goal with
    | H : is_ignore_line line = false |- _ =>
      pose proof H as NI; unfold is_ignore_line in H;
        apply orb_false_iff in H; destruct H as [_ NC]
    end.
    repeat match goal with
           | H : _ = false |- _ => rewrite H
           | H : _ = None |- _ => rewrite H
           end.
    reflexivity. }
  split; [reflexivity|]. split; [reflexivity|]. split; [exact B|].
  split; [|split; [exact At|]].
  - apply slice_Forall. intros j l Hj Hjl.
    destruct (Nat.eq_dec j i) as [->|]; [congruence|].
    apply (Before j); [lia|assumption].
  - intros next Hn F. apply figure_or_footnote_no_end in F.
    assert (i + 1 < e).
    { destruct (Nat.eq_dec e (i + 1)) as [Ee|]; [|lia]. exfalso.
      assert (He : e < length text_lines).
      { rewrite Ee. apply nth_error_Some. now rewrite Hn. }
      destruct (At He) as (l & Hel & T). rewrite Ee, Hn in Hel.
      inversion Hel; subst. congruence. }
    rewrite (slice_cons i e _ _ G) by lia.
    replace (S i) with (i + 1) by lia.
    rewrite (slice_cons (i + 1) e _ _ Hn) by lia. eauto.
Qed.
End Blocks.

Lemma dollars_build_an_equation_witness :
  exists e,
    chain ["$$"; "x=1"] "" false 0
    = Ret (Chain (Some (Equation (slice 1 e ["$$"; "x=1"]) None)) false
             (e + 1)).
Proof.
  destruct (dollars_build_an_equation ["$$"; "x=1"] "" false 0 "$$"
              eq_refl eq_refl) as (e & H & _).
  exists e. exact H.
Defined.

Lemma list_items_build_a_list_witness :
  exists e rest,
    chain ["- a"; "---"; "x"] "" false 0
    = Ret (Chain (Some (List (slice 0 e ["- a"; "---"; "x"]))) false e) /\
    slice 0 e ["- a"; "---"; "x"] = "- a" :: "---" :: rest.
Proof.
  destruct (list_items_build_a_list ["- a"; "---"; "x"] "" false 0 "- a"
              eq_refl eq_refl eq_refl) as (e & H & _ & _ & _ & S).
  destruct (S "---" eq_refl eq_refl) as [rest R].
  exists e, rest. split; [exact H|exact R].
Defined.

Lemma quote_lines_build_a_quote_witness :
  exists e,
    chain ["> a"; ">  > b"; "c"] "" false 0
    = Ret (Chain (Some (Quote (map (lstrip_chars "> ")
                                 (slice 0 e ["> a"; ">  > b"; "c"]))))
             false e).
Proof.
  destruct (quote_lines_build_a_quote ["> a"; ">  > b"; "c"] "" false 0
              "> a" eq_refl eq_refl) as (e & H & _).
  exists e. exact H.
Defined.

Lemma paragraphs_end_at_block_openers_witness :
  exists first rest,
    ["text"; "![[a.png]]"; "[^1]: note"] = first :: "![[a.png]]" :: rest.
Proof.
  destruct (paragraphs_end_at_block_openers
              ["text"; "![[a.png]]"; "[^1]: note"] "" false 0 false
              ["text"; "![[a.png]]"; "[^1]: note"] 3 eq_refl)
    as (_ & _ & _ & _ & _ & S).
  exact (S "![[a.png]]" eq_refl eq_refl).
Defined.

(* ================================================================== *)
(** * The lines the detectors accept *)

Lemma detect_header_complete lvl c title tail :
  1 <= lvl <= 3 -> isspace c = true -> forallb isdot title = true ->
  (forall d t, tail = d :: t -> isdot d = false) ->
  detect_header (repeat "#"%char lvl ++ c :: title ++ tail) None
  = Some (lvl, title).
Proof.
  intros Hl Hc Ht Htail.
  pose proof (space_not "#" c eq_refl Hc) as Hh.
  destruct lvl as [|[|[|[|]]]]; try lia;
    unfold detect_header, re_match, attempt, header_re, star;
    simpl; rewrite ?Hh, ?Hc; simpl.
  all: rewrite rep_greedy_span by (assumption || (intros; discriminate));
    unfold group, capture, advance; simpl; now rewrite between_read.
Qed.

(** The lines [detect_header] accepts with the default level, and what it
    returns on them. *)
Lemma detect_header_spec line lvl title :
  detect_header line None = Some (lvl, title) <->
  1 <= lvl <= 3 /\
  exists c tail,
    line = repeat "#"%char lvl ++ c :: title ++ tail /\
    isspace c = true /\ forallb isdot title = true /\
    (forall d t, tail = d :: t -> d = LF).
Proof.
  assert (Dot : forall tail : str,
             (forall d t, tail = d :: t -> d = LF) <->
             (forall d t, tail = d :: t -> isdot d = false)).
  { intros tail. unfold isdot.
    split; intros H d t E; specialize (H d t E).
    - now subst.
    - apply negb_false_iff in H. now apply Ascii.eqb_eq. }
  split.
  - intros D. pose proof (header_shape _ _ _ D)
      as (m & c & t & -> & Hm & Hl & Hb & Hc).
    destruct (span_exists isdot t) as (a & b & -> & Ha & Hb').
    assert (Em : m = repeat "#"%char lvl).
    { subst lvl. clear - Hm. induction m as [|x m IH]; [reflexivity|].
      simpl in *. apply andb_true_iff in Hm. destruct Hm as [Hx Hm].
      apply ch_eq in Hx. subst. now rewrite <- IH. }
    rewrite Em in D |- *.
    rewrite (detect_header_complete lvl c a b Hb Hc Ha Hb') in D.
    inversion D; subst a. split; [assumption|].
    exists c, b. split; [reflexivity|]. split; [assumption|].
    split; [assumption|]. now apply Dot.
  - intros (Hl & c & tail & -> & Hc & Ht & Htail).
    apply detect_header_complete; auto. now apply Dot.
Qed.


Lemma sharps_repeat m :
  forallb (ch "#") m = true -> m = repeat "#"%char (length m).
Proof.
  induction m as [|x m IH]; [reflexivity|]. simpl. intros H.
  apply andb_true_iff in H. destruct H as [Hx Hm].
  apply ch_eq in Hx. subst. now rewrite <- IH.
Qed.

Lemma repeat_sharps n : forallb (ch "#") (repeat "#"%char n) = true.
Proof. induction n; [reflexivity|exact IHn]. Qed.

Lemma detect_header_level_complete n c title tail :
  isspace c = true -> forallb isdot title = true ->
  (forall d t, tail = d :: t -> isdot d = false) ->
  detect_header (repeat "#"%char (S n) ++ c :: title ++ tail) (Some (S n))
  = Some (S n, title).
Proof.
  intros Hc Ht Htail.
  unfold detect_header, re_match, attempt, header_level_re, star, times.
  cbn [exec seen rest groups].
  pose proof (rep_greedy_exact (ch "#") []
                (fun st' =>
                   exec (Chr isspace ;; Grp 2 (Rep isdot 0 None true))
                     (capture 1 (MState [] (repeat "#"%char (S n) ++ c
                                            :: title ++ tail) []) st')
                     Some)
                (repeat "#"%char (S n)) (c :: title ++ tail) []
                (repeat_sharps (S n))) as R.
  rewrite repeat_length in R.
  match goal with
  | |- match ?x with _ => _ end = _ =>
    match type of R with ?y = _ => change x with y end
  end.
  rewrite R. cbn [exec seen rest groups capture advance].
  rewrite Hc. cbn [exec seen rest groups capture advance].
  rewrite rep_greedy_span by (assumption || (intros; discriminate)).
  unfold group, capture, advance. cbn [groups assoc Nat.eqb seen rest].
  rewrite !between_read. now rewrite repeat_length.
Qed.

(** X6. The lines [detect_header] accepts.  With the default level: one to
    three "#", a white-space character and the title, which is the rest of
    the line up to its first line feed; the level is the number of "#".
    With a level [n > 0]: the same with exactly [n] "#".  The level 0 is
    falsy and stands for the default. *)
Theorem detect_header_accepts :
  (forall line lvl title,
     detect_header line None = Some (lvl, title) <->
     1 <= lvl <= 3 /\
     exists c tail,
       line = repeat "#"%char lvl ++ c :: title ++ tail /\
       isspace c = true /\ forallb isdot title = true /\
       (forall d t, tail = d :: t -> d = LF)) /\
  (forall line n lvl title,
     detect_header line (Some (S n)) = Some (lvl, title) <->
     lvl = S n /\
     exists c tail,
       line = repeat "#"%char lvl ++ c :: title ++ tail /\
       isspace c = true /\ forallb isdot title = true /\
       (forall d t, tail = d :: t -> d = LF)) /\
  (forall line, detect_header line (Some 0) = detect_header line None).
Proof.
  assert (Dot : forall tail : str,
             (forall d t, tail = d :: t -> d = LF) <->
             (forall d t, tail = d :: t -> isdot d = false)).
  { intros tail. unfold isdot.
    split; intros H d t E; specialize (H d t E).
    - now subst.
    - apply negb_false_iff in H. now apply Ascii.eqb_eq. }
  split; [exact detect_header_spec|]. split; [|reflexivity].
  intros line n lvl title. split.
  - intros D. pose proof (header_level_shape _ _ _ _ D)
      as (m & c & t & -> & Hm & Hl & -> & Hc).
    destruct (span_exists isdot t) as (a & b & -> & Ha & Hb').
    rewrite (sharps_repeat m Hm), Hl in D |- *.
    rewrite (detect_header_level_complete n c a b Hc Ha Hb') in D.
    inversion D; subst a. split; [reflexivity|].
    exists c, b. split; [reflexivity|]. split; [assumption|].
    split; [assumption|]. now apply Dot.
  - intros (-> & c & tail & -> & Hc & Ht & Htail).
    apply detect_header_level_complete; auto. now apply Dot.
Qed.

(** * Footnotes *)

(** After a text that is not empty, the characters "]:" follow only where
    the text itself begins with them. *)
Lemma closing_inside (b rs : str) :
  b <> [] -> startswith "]:" (b ++ "]:" ++ rs) = startswith "]:" b.
Proof.
  intros Nb. destruct b as [|b1 [|b2 b']]; [congruence| |].
  - simpl. destruct (Ascii.eqb "]" b1) eqn:E; [|reflexivity].
    apply Ascii.eqb_eq in E. now subst.
  - reflexivity.
Qed.

Lemma detect_footnote_complete mark body tail :
  mark <> [] -> forallb isdot mark = true ->
  (forall a b, mark = a ++ b -> a <> [] -> b <> [] ->
               startswith "]:" b = false) ->
  forallb isdot body = true ->
  (forall d t, tail = d :: t -> isdot d = false) ->
  detect_footnote ("[^" ++ mark ++ "]:" ++ body ++ tail)
  = Some (mark, strip body).
Proof.
  intros Nm Hm First Hb Ht. destruct mark as [|c x]; [congruence|].
  simpl in Hm. apply andb_true_iff in Hm. destruct Hm as [Hc Hx].
  unfold detect_footnote, re_match, attempt, footnote_re, plus_lazy, star.
  simpl. rewrite Hc.
  erewrite rep_lazy_pass; [ | exact Hx | | ].
  3: { simpl. rewrite rep_greedy_span by (assumption || (intros; discriminate)).
       reflexivity. }
  2: { intros a b E Nb. simpl.
       assert (F : startswith "]:" b = false).
       { apply (First (c :: a) b); [now rewrite E|discriminate|assumption]. }
       destruct b as [|b1 [|b2 b']]; [congruence| |];
         cbn [startswith] in F; cbn [app];
         unfold ch; rewrite (Ascii.eqb_sym b1 "]"); try reflexivity.
       - now destruct (Ascii.eqb "]" b1).
       - rewrite (Ascii.eqb_sym b2 ":").
         destruct (Ascii.eqb "]" b1); [|reflexivity].
         destruct (Ascii.eqb ":" b2); [discriminate|reflexivity]. }
  unfold group, capture, advance; simpl.
  rewrite between_read.
  rewrite (between_upto (c :: x)); [reflexivity|].
  simpl. now rewrite <- app_assoc.
Qed.

Lemma startswith_prefix p : forall s,
  startswith p s = true -> exists t, s = p ++ t.
Proof.
  induction p as [|x p IH]; intros s H; [now exists s|].
  destruct s as [|y s]; [discriminate|]. cbn [startswith] in H.
  apply andb_true_iff in H. destruct H as [E H].
  apply Ascii.eqb_eq in E. subst y.
  destruct (IH _ H) as [t ->]. now exists t.
Qed.

Lemma detect_footnote_sound line mark text :
  detect_footnote line = Some (mark, text) ->
  exists body tail,
    line = "[^" ++ mark ++ "]:" ++ body ++ tail /\
    mark <> [] /\ forallb isdot mark = true /\
    (forall a b, mark = a ++ b -> a <> [] -> b <> [] ->
                 startswith "]:" b = false) /\
    forallb isdot body = true /\
    (forall d t, tail = d :: t -> isdot d = false) /\
    text = strip body.
Proof.
  unfold detect_footnote, re_match, attempt, footnote_re, plus_lazy, star.
  intros H.
  destruct line as [|c1 [|c2 [|c3 t]]]; simpl in H; try discriminate.
  - destruct (ch "[" c1); discriminate.
  - destruct (ch "[" c1); [|discriminate]. destruct (ch "^" c2); discriminate.
  - destruct (ch "[" c1) eqn:E1; [|discriminate].
    destruct (ch "^" c2) eqn:E2; [|discriminate].
    apply ch_eq in E1, E2. subst c1 c2.
    destruct (isdot c3) eqn:E3; [|discriminate].
    match type of H with
    | match ?r with _ => _ end = _ => destruct r as [res|] eqn:R
    end; [|discriminate].
    apply rep_lazy_first in R.
    destruct R as (m & rs' & -> & Hm & K & L).
    simpl in K.
    destruct rs' as [|r1 [|r2 rs'']]; try discriminate;
      destruct (ch "]" r1) eqn:E4; try discriminate.
    destruct (ch ":" r2) eqn:E5; try discriminate.
    apply ch_eq in E4, E5. subst r1 r2.
    destruct (span_exists isdot rs'') as (body & tail & -> & Hb & Ht).
    rewrite rep_greedy_span in K
      by (assumption || (intros; discriminate)).
    inversion K; subst res; clear K.
    unfold group, capture, advance in H; simpl in H.
    rewrite between_read in H.
    rewrite (between_upto (c3 :: m)) in H
      by (simpl; now rewrite <- app_assoc).
    inversion H; subst; clear H.
    exists body, tail. split; [reflexivity|]. split; [discriminate|].
    split; [simpl; now rewrite E3|]. split; [|auto].
    intros a b E Na Nb. destruct a as [|a1 a]; [congruence|].
    simpl in E. inversion E; subst a1.
    destruct (startswith "]:" b) eqn:S; [exfalso|reflexivity].
    apply startswith_prefix in S. destruct S as [b' ->].
    match goal with Hx : m = _ |- _ => specialize (L _ _ Hx Nb) end.
    simpl in L. revert L. apply rep_greedy_total. discriminate.
Qed.

(** X7. The lines [detect_footnote] accepts: "[^", a mark that is not empty,
    "]:" and a body up to the first line feed.  The mark is the shortest
    one: it ends at the first "]:" behind its first character; the text is
    the body without its leading and trailing white space. *)
Theorem detect_footnote_accepts line mark text :
  detect_footnote line = Some (mark, text) <->
  exists body tail,
    line = "[^" ++ mark ++ "]:" ++ body ++ tail /\
    mark <> [] /\ forallb isdot mark = true /\
    (forall a b, mark = a ++ b -> a <> [] -> b <> [] ->
                 startswith "]:" b = false) /\
    forallb isdot body = true /\
    (forall d t, tail = d :: t -> d = LF) /\
    text = strip body.
Proof.
  assert (Dot : forall tail : str,
             (forall d t, tail = d :: t -> d = LF) <->
             (forall d t, tail = d :: t -> isdot d = false)).
  { intros tail. unfold isdot.
    split; intros H d t E; specialize (H d t E).
    - now subst.
    - apply negb_false_iff in H. now apply Ascii.eqb_eq. }
  split.
  - intros H. apply detect_footnote_sound in H.
    destruct H as (body & tail & E & Nm & Hm & F & Hb & Ht & T).
    exists body, tail. repeat split; auto. now apply Dot.
  - intros (body & tail & -> & Nm & Hm & F & Hb & Ht & ->).
    apply detect_footnote_complete; auto. now apply Dot.
Qed.

(* ================================================================== *)
Lemma strip_last s x c : strip s = x ++ [c] -> isspace c = false.
Proof.
  unfold strip, rstrip. intros H.
  apply (f_equal (@rev ascii)) in H.
  rewrite rev_involutive, rev_app_distr in H. simpl in H.
  exact (dropwhile_hd _ _ _ _ H).
Qed.

Lemma detect_figure_sound line settings :
  detect_figure line = Some settings ->
  exists stem ext rest,
    strip line = "![[" ++ stem ++ ext ++ "]]" ++ rest /\
    stem <> [] /\ (ext = ".png" \/ ext = ".jpg") /\
    forallb isdot (strip line) = true /\
    settings = (stem ++ ext)
               :: (if str_eqb rest "" then [] else split " " rest).
Proof.
  unfold detect_figure, re_match, attempt. intros H.
  destruct (exec figure_re (MState [] (strip line) []) Some)
    as [res|] eqn:E; [|discriminate].
  apply exec_sound in E. destruct E as (st' & M & K).
  inversion K; subst; clear K.
  unfold figure_re, plus, star in M. simpl in M.
  inv_matches; simpl in *.
  all: repeat match goal with H : ch _ _ = true |- _ => apply ch_eq in H end.
  all: subst.
  all: unfold group, capture, advance in H; simpl in H.
  all: rewrite between_read in H.
  all: match goal with
       | H0 : forallb isdot ?m = true, H1 : 1 <= length ?m,
         Hs : strip _ = _ :: _ :: _ :: ?m ++ "."%char :: ?e1 :: ?e2 :: ?e3 :: _
         |- _ =>
         rewrite (between_upto (m ++ ["."%char; e1; e2; e3])) in H
           by (rewrite rev_app_distr; reflexivity);
         exists m, ["."%char; e1; e2; e3]
       end.
  all: match goal with
       | Hs : strip _ = _, He : ?r = [] \/ ?r = [LF] |- _ =>
         destruct He as [->| ->];
           [rewrite app_nil_r in Hs
           |exfalso;
            change ("!"%char :: "["%char :: "["%char :: ?x) with ("![[" ++ x)
              in Hs;
            repeat rewrite ?app_comm_cons, ?app_assoc in Hs;
            apply strip_last in Hs; discriminate]
       end.
  all: match goal with
       | Hs : strip _ = _ :: _ :: _ :: ?m ++ _ :: _ :: _ :: _ :: _ :: _ :: ?m0
         |- _ => exists m0
       end.
  all: inversion H; subst; clear H.
  all: split; [assumption|]; split; [now destruct m|]; split; [tauto|].
  all: split; [|reflexivity].
  all: match goal with Hs : strip _ = _ |- _ => rewrite Hs end.
  all: simpl; rewrite forallb_app; simpl.
  all: repeat match goal with H : forallb _ _ = true |- _ => rewrite H end.
  all: reflexivity.
Qed.

(** A literal at the head of a pattern. *)
Lemma exec_lit s : forall st k,
  exec (lit s) st k
  = if startswith s (rest st)
    then k (MState (rev s ++ seen st) (skipn (length s) (rest st))
              (groups st))
    else None.
Proof.
  induction s as [|c s IH]; intros [sn rs g] k.
  - reflexivity.
  - cbn [lit exec rest]. destruct rs as [|d t]; [reflexivity|].
    cbn [startswith]. unfold ch at 1. rewrite (Ascii.eqb_sym d c).
    destruct (Ascii.eqb_spec c d) as [->|]; [|reflexivity].
    rewrite IH. unfold advance. cbn [seen rest groups andb length skipn rev].
    now rewrite <- app_assoc.
Qed.

(** * The marker of a labeled equation *)

Lemma detect_labeled_equation_complete line c x tail :
  strip line = "`eq_label:" ++ (c :: x) ++ "`" ++ tail ->
  isspace c = false -> forallb isdot x = true ->
  (forall a b, tail = a ++ "`"%char :: b -> forallb isdot a = false) ->
  detect_labeled_equation line = Some ("eq:" ++ strip (c :: x)).
Proof.
  intros St Hc Hx Last.
  unfold detect_labeled_equation, re_match, attempt, labeled_equation_re, star.
  rewrite St. cbn [exec]. rewrite exec_lit.
  simpl. rewrite Hc. simpl.
  change (x ++ "`"%char :: tail) with (x ++ ("`" ++ tail)).
  erewrite rep_greedy_at_longest; [ | exact Hx | | ].
  3: { intros a b E Na Ha. cbn beta. cbn [rest].
       destruct b as [|b0 b']; [reflexivity|].
       destruct (ch "`" b0) eqn:B; [exfalso|reflexivity].
       apply ch_eq in B. subst b0.
       destruct a as [|a0 a]; [congruence|].
       simpl in E. inversion E; subst.
       cbn [forallb] in Ha. apply andb_true_iff in Ha.
       destruct Ha as [_ Ha]. rewrite (Last a b' eq_refl) in Ha.
       discriminate. }
  2: { simpl. reflexivity. }
  unfold group, capture, advance. simpl.
  rewrite (between_upto (c :: x)); [reflexivity|].
  simpl. now rewrite <- app_assoc.
Qed.

Lemma detect_labeled_equation_sound line label :
  detect_labeled_equation line = Some label ->
  exists c x tail,
    strip line = "`eq_label:" ++ (c :: x) ++ "`" ++ tail /\
    isspace c = false /\ forallb isdot x = true /\
    (forall a b, tail = a ++ "`"%char :: b -> forallb isdot a = false) /\
    label = "eq:" ++ strip (c :: x).
Proof.
  unfold detect_labeled_equation, re_match, attempt, labeled_equation_re, star.
  intros H. cbn [exec] in H. rewrite exec_lit in H. cbn [rest] in H.
  destruct (startswith "`eq_label:" (strip line)) eqn:S; [|discriminate].
  apply startswith_prefix in S. destruct S as [t St]. rewrite St in H.
  simpl in H. destruct t as [|c t]; [discriminate|].
  destruct (isspace c) eqn:Hc; [discriminate|]. simpl in H.
  match type of H with
  | match ?r with _ => _ end = _ => destruct r as [res|] eqn:R
  end; [|discriminate].
  apply rep_greedy_longest in R.
  destruct R as (x & rs' & -> & Hx & K & L).
  cbn beta in K. cbn [rest] in K.
  destruct rs' as [|r0 tail]; [discriminate|].
  destruct (ch "`" r0) eqn:B; [|discriminate].
  apply ch_eq in B. subst r0. inversion K; subst res; clear K.
  unfold group, capture, advance in H. simpl in H.
  rewrite (between_upto (c :: x)) in H
    by (simpl; now rewrite <- app_assoc).
  inversion H; subst label; clear H.
  exists c, x, tail. split; [exact St|]. split; [assumption|].
  split; [assumption|]. split; [|reflexivity].
  intros a b E. destruct (forallb isdot a) eqn:Ha; [exfalso|reflexivity].
  specialize (L ("`"%char :: a) ("`"%char :: b)).
  rewrite E in L. cbn beta in L. cbn [rest] in L.
  rewrite (proj2 (Ascii.eqb_eq _ _) eq_refl : ch "`" "`" = true) in L.
  assert (N : Some (advance "`" b
                 (capture 1 (MState ":lebal_qe`" (c :: x ++ "`"%char :: a
                                                  ++ "`"%char :: b) [])
                    (MState (rev (x ++ "`"%char :: a) ++ [c] ++ ":lebal_qe`")
                            ("`"%char :: b) []))) = None).
  { apply L; [reflexivity|discriminate|].
    cbn [forallb]. now rewrite Ha. }
  discriminate.
Qed.

(** * The caption line of a figure *)

Lemma caption_complete label caption tail :
  forallb isdot label = true ->
  (forall a b, label = a ++ b -> b <> [] -> startswith "`:" b = false) ->
  forallb isdot caption = true ->
  (forall d t, tail = d :: t -> isdot d = false) ->
  exists st,
    re_match caption_re ("`" ++ label ++ "`:" ++ caption ++ tail) = Some st /\
    group 1 st = label /\ group 2 st = caption.
Proof.
  intros Hl First Hc Ht.
  unfold re_match, attempt, caption_re, star_lazy, star. simpl.
  erewrite rep_lazy_pass; [ | exact Hl | | ].
  3: { simpl. rewrite rep_greedy_span by (assumption || (intros; discriminate)).
       reflexivity. }
  2: { intros a b E Nb. simpl.
       pose proof (First a b E Nb) as F.
       destruct b as [|b1 [|b2 b']]; [congruence| |];
         cbn [startswith] in F; cbn [app];
         unfold ch; rewrite (Ascii.eqb_sym b1 "`"); try reflexivity.
       - now destruct (Ascii.eqb "`" b1).
       - rewrite (Ascii.eqb_sym b2 ":").
         destruct (Ascii.eqb "`" b1); [|reflexivity].
         destruct (Ascii.eqb ":" b2); [discriminate|reflexivity]. }
  eexists. split; [reflexivity|].
  unfold group, capture, advance; simpl.
  rewrite !between_read. now split.
Qed.

Lemma no_backtick_first label :
  forallb (fun c => negb (ch "`" c)) label = true ->
  forall a b, label = a ++ b -> b <> [] -> startswith "`:" b = false.
Proof.
  intros H a b -> Nb. rewrite forallb_app in H.
  apply andb_true_iff in H. destruct H as [_ H].
  destruct b as [|b1 b']; [congruence|]. cbn [forallb startswith] in *.
  apply andb_true_iff in H. destruct H as [H _].
  unfold ch in H. apply negb_true_iff in H.
  now rewrite (Ascii.eqb_sym "`" b1), H.
Qed.

(* ================================================================== *)
(** * The branches that look at the next line *)

(** X8. On the marker of a labeled equation followed by a line of equation
    dollars the chain builds an equation with the label of the marker and
    the lines [i+2 .. e-1], where [e] is the first line of equation dollars
    behind the opening one, or the number of lines, and moves the pointer
    to [e+1]. *)
Theorem labeled_marker_builds_an_equation
  text_lines fig_path ign i line label next :
  nth_error text_lines i = Some line ->
  detect_labeled_equation line = Some label ->
  nth_error text_lines (i + 1) = Some next ->
  is_equation_dollars next = true ->
  (exists e,
     chain text_lines fig_path ign i
     = Ret (Chain (Some (Equation (slice (i + 2) e text_lines) (Some label)))
              ign (e + 1)) /\
     i + 1 < e <= length text_lines /\
     (forall j l, i + 1 < j < e -> nth_error text_lines j = Some l ->
                  is_equation_dollars l = false) /\
     (e < length text_lines ->
      exists l, nth_error text_lines e = Some l /\
                is_equation_dollars l = true)) /\
  forall path parent_arg,
    to_blocks (Text ("`eq_label:foo`" ++ [LF] ++ "$$" ++ [LF] ++ "x=1"
                     ++ [LF] ++ "$$")) path parent_arg
    = Some (Ret ([], [Block (Equation ["x=1"] (Some "eq:foo")) parent_arg])).
Proof.
  intros Hl D Hn E. split; [|reflexivity].
  destruct (block_end text_lines is_equation_dollars _ _ Hn)
    as (B & Before & At).
  eexists. split; [|split; [exact B|split; [exact Before|exact At]]].
  rewrite (chain_labeled_equation _ _ _ _ _ _ Hl D).
  unfold get. rewrite Hn. unfold bind, assert. rewrite E.
  now replace (i + 1 + 1) with (i + 2) by lia.
Qed.

Lemma labeled_marker_builds_an_equation_witness :
  exists e,
    chain ["`eq_label:foo`"; "$$"; "x=1"; "$$"] "" false 0
    = Ret (Chain (Some (Equation
                          (slice 2 e ["`eq_label:foo`"; "$$"; "x=1"; "$$"])
                          (Some "eq:foo"))) false (e + 1)).
Proof.
  destruct (labeled_marker_builds_an_equation
              ["`eq_label:foo`"; "$$"; "x=1"; "$$"] "" false 0
              "`eq_label:foo`" "eq:foo" "$$" eq_refl eq_refl eq_refl eq_refl)
    as ((e & H & _) & _).
  exists e. exact H.
Defined.

(** X9. On a figure line followed by a line "`label`: caption" the chain
    builds a figure with the settings of the figure line, the label and the
    caption without their outer white space, and the figure path, and moves
    the pointer by two lines.  The settings keep the empty word in front of
    the first space behind the brackets. *)
Theorem figure_lines_build_a_figure
  text_lines fig_path ign i line settings next label caption tail :
  nth_error text_lines i = Some line ->
  detect_figure line = Some settings ->
  nth_error text_lines (i + 1) = Some next ->
  next = "`" ++ label ++ "`:" ++ caption ++ tail ->
  forallb (fun c => isdot c && negb (ch "`" c)) label = true ->
  forallb isdot caption = true ->
  (forall d t, tail = d :: t -> d = LF) ->
  chain text_lines fig_path ign i
  = Ret (Chain (Some (Figure settings (strip label) (strip caption) fig_path))
           ign (i + 2)) /\
  forall path parent_arg,
    to_blocks (Lines ["![[a.png]] w100"; "`fig:a`: a caption"])
              path parent_arg
    = Some (Ret ([], [Block (Figure ["a.png"; ""; "w100"] "fig:a"
                               "a caption" path) parent_arg])).
Proof.
  intros Hl D Hn -> Hlab Hcap Htail. split; [|reflexivity].
  assert (Hl1 : forallb isdot label = true).
  { rewrite forallb_forall in *. intros c Hc.
    specialize (Hlab c Hc). now apply andb_true_iff in Hlab. }
  assert (Hl2 : forallb (fun c => negb (ch "`" c)) label = true).
  { rewrite forallb_forall in *. intros c Hc.
    specialize (Hlab c Hc). now apply andb_true_iff in Hlab. }
  destruct (caption_complete label caption tail Hl1
              (no_backtick_first _ Hl2) Hcap) as (st & M & G1 & G2).
  { intros d t E. rewrite (Htail d t E). reflexivity. }
  rewrite (chain_figure _ _ _ _ _ _ Hl D).
  unfold get. rewrite Hn. unfold bind, assert. cbn zeta.
  rewrite M. simpl. now rewrite G1, G2.
Qed.

Lemma figure_lines_build_a_figure_witness :
  chain ["![[a.png]] w100"; "`fig:a`: a caption"] "figs" false 0
  = Ret (Chain (Some (Figure ["a.png"; ""; "w100"] (strip "fig:a")
                        (strip " a caption") "figs")) false 2).
Proof.
  refine (proj1 (figure_lines_build_a_figure
                   ["![[a.png]] w100"; "`fig:a`: a caption"] "figs" false 0
                   "![[a.png]] w100" ["a.png"; ""; "w100"]
                   "`fig:a`: a caption" "fig:a" " a caption" ""
                   eq_refl eq_refl eq_refl eq_refl eq_refl eq_refl _)).
  intros d t E. discriminate E.
Defined.

(* ================================================================== *)
(** * Where the scan raises *)

Lemma chain_raises text_lines fig_path ign i line e :
  nth_error text_lines i = Some line ->
  chain text_lines fig_path ign i = Raise e ->
  lookahead_failure text_lines i line e.
Proof.
  intros Hl. unfold chain, get, bind, assert. rewrite Hl. intros H.
  destruct (is_ignore_line line); [discriminate|].
  destruct (is_separator_line line); [discriminate|].
  destruct (detect_header line None) as [[h t]|]; [discriminate|].
  destruct (is_equation_dollars line); [discriminate|].
  destruct (detect_labeled_equation line) as [label|] eqn:D.
  { left. exists label. split; [exact D|].
    destruct (nth_error text_lines (i + 1)) as [next|] eqn:N.
    - right. exists next.
      destruct (is_equation_dollars next); [discriminate|].
      inversion H. auto.
    - left. inversion H. auto. }
  destruct (is_list_item line); [discriminate|].
  destruct (is_quote line); [discriminate|].
  destruct (detect_figure line) as [settings|] eqn:F.
  { right. exists settings. split; [exact F|].
    destruct (nth_error text_lines (i + 1)) as [next|] eqn:N.
    - right. exists next.
      destruct (re_match caption_re next); [discriminate|].
      inversion H. auto.
    - left. inversion H. auto. }
  destruct (detect_footnote line) as [[m t]|]; discriminate.
Qed.

Lemma scan_raises text_lines fig_path parent_arg e fuel : forall st,
  scan text_lines fig_path parent_arg fuel st = Some (Raise e) ->
  exists ign i,
    i < length text_lines /\ chain text_lines fig_path ign i = Raise e.
Proof.
  induction fuel as [|fuel IH]; intros st H; simpl in H.
  - destruct (i st <? length text_lines); discriminate.
  - destruct (Nat.ltb_spec (i st) (length text_lines)); [|discriminate].
    unfold iteration, bind in H.
    destruct (chain text_lines fig_path (is_ignoring st) (i st)) as [c|e']
      eqn:C.
    + eapply IH. eassumption.
    + inversion H; subst. eauto.
Qed.

(** X10. [to_blocks] raises only from the two branches that look at the
    next line: when it raises, some line is the marker of a labeled
    equation or a figure line, and either there is no next line (IndexError)
    or the next line is not what the branch asserts (AssertionError with
    the message of that assert). *)
Theorem to_blocks_raises_only_at_lookahead text fig_path parent_arg e :
  to_blocks text fig_path parent_arg = Some (Raise e) ->
  exists i line,
    nth_error (lines_of text) i = Some line /\
    lookahead_failure (lines_of text) i line e.
Proof.
  unfold to_blocks. intros H.
  destruct (scan (lines_of text) fig_path parent_arg
              (length (lines_of text)) (ScanState [] false 0))
    as [[st|e']|] eqn:S; try discriminate.
  inversion H; subst e'; clear H.
  apply scan_raises in S. destruct S as (ign & i & Hi & C).
  destruct (nth_error (lines_of text) i) as [line|] eqn:Hl.
  - exists i, line. split; [exact Hl|].
    exact (chain_raises _ _ _ _ _ _ Hl C).
  - apply nth_error_None in Hl. lia.
Qed.

Lemma to_blocks_raises_only_at_lookahead_witness :
  exists i line,
    nth_error (lines_of (Lines ["$$"; "x"; "$$"; "![[a.png]]"])) i
    = Some line /\
    lookahead_failure (lines_of (Lines ["$$"; "x"; "$$"; "![[a.png]]"])) i
      line IndexError.
Proof.
  exact (to_blocks_raises_only_at_lookahead
           (Lines ["$$"; "x"; "$$"; "![[a.png]]"]) "" None IndexError
           eq_refl).
Defined.

(* ================================================================== *)
(** * The blocks the scan returns *)

Lemma slice_forallb {A} (p : A -> bool) a b (l : list A) :
  (forall j x, a <= j < b -> nth_error l j = Some x -> p x = true) ->
  forallb p (slice a b l) = true.
Proof.
  intros H. apply forallb_forall. intros x Hx.
  apply slice_nth_error in Hx. destruct Hx as (j & Hj & E). eauto.
Qed.

Lemma slice_nonempty {A} a b (l : list A) x :
  nth_error l a = Some x -> a < b -> negb (length (slice a b l) =? 0) = true.
Proof. intros E H. now rewrite (slice_cons a b l x E H). Qed.

Section WellFormed.
Variable text_lines : list str.
Variable fig_path : str.

Lemma chain_well_formed ign i c b :
  chain text_lines fig_path ign i = Ret c -> new_block c = Some b ->
  well_formed b = true.
Proof.
  unfold chain, get, bind, assert. intros H B.
  destruct (nth_error text_lines i) as [line|] eqn:Hl; [|discriminate].
  destruct (is_ignore_line line) eqn:NI;
    [inversion H; subst; discriminate|].
  destruct (is_separator_line line) eqn:NS;
    [inversion H; subst; discriminate|].
  destruct (detect_header line None) as [[h_level title]|] eqn:NH.
  { inversion H; subst; clear H. simpl in B. inversion B; subst; clear B.
    pose proof (header_shape _ _ _ NH) as (m & c & t & _ & _ & _ & Hlvl & _).
    destruct (block_end text_lines
                (fun l => is_some (detect_header l (Some h_level))) _ _ Hl)
      as (Bd & Before & _).
    cbn [well_formed]. apply andb_true_iff. split.
    - apply andb_true_iff. split; [apply Nat.leb_le|apply Nat.leb_le]; lia.
    - apply slice_forallb. intros j x Hj Hx. apply negb_true_iff.
      apply (Before j); [lia|assumption]. }
  destruct (is_equation_dollars line) eqn:NE.
  { inversion H; subst; clear H. simpl in B. inversion B; subst; clear B.
    destruct (block_end text_lines is_equation_dollars _ _ Hl)
      as (Bd & Before & _).
    cbn [well_formed]. apply slice_forallb. intros j x Hj Hx.
    apply negb_true_iff.
    apply (Before j); [lia|assumption]. }
  destruct (detect_labeled_equation line) as [label|] eqn:NB.
  { destruct (nth_error text_lines (i + 1)) as [next|] eqn:Hn;
      [|discriminate].
    destruct (is_equation_dollars next); [|discriminate].
    inversion H; subst; clear H. simpl in B. inversion B; subst; clear B.
    destruct (block_end text_lines is_equation_dollars _ _ Hn)
      as (Bd & Before & _).
    cbn [well_formed]. apply slice_forallb. intros j x Hj Hx.
    apply negb_true_iff.
    apply (Before j); [lia|assumption]. }
  destruct (is_list_item line) eqn:NL.
  { inversion H; subst; clear H. simpl in B. inversion B; subst; clear B.
    destruct (block_end text_lines (fun l => negb (is_list_item l)) _ _ Hl)
      as (Bd & Before & _).
    cbn [well_formed]. apply andb_true_iff. split.
    - apply (slice_nonempty _ _ _ _ Hl). lia.
    - apply slice_forallb. intros j x Hj Hx.
      destruct (Nat.eq_dec j i) as [->|]; [congruence|].
      apply negb_false_iff. apply (Before j); [lia|assumption]. }
  destruct (is_quote line) eqn:NQ.
  { inversion H; subst; clear H. simpl in B. inversion B; subst; clear B.
    destruct (block_end text_lines (fun l => negb (is_quote l)) _ _ Hl)
      as (Bd & _).
    cbn [well_formed]. apply andb_true_iff. split.
    - rewrite length_map. apply (slice_nonempty _ _ _ _ Hl). lia.
    - apply forallb_forall. intros l Hin. apply in_map_iff in Hin.
      destruct Hin as (l0 & <- & _).
      destruct (lstrip_chars "> " l0) as [|d t] eqn:S; [reflexivity|].
      apply lstrip_chars_hd in S. unfold mem in S. simpl in S.
      apply orb_false_iff in S. destruct S as [S1 S2].
      apply orb_false_iff in S2. destruct S2 as [S2 _].
      cbn [startswith].
      now rewrite (Ascii.eqb_sym ">" d), (Ascii.eqb_sym " " d), S1, S2. }
  destruct (detect_figure line) as [settings|] eqn:NF.
  { destruct (nth_error text_lines (i + 1)) as [next|] eqn:Hn;
      [|discriminate].
    destruct (re_match caption_re next); [|discriminate].
    inversion H; subst; clear H. simpl in B. inversion B; subst; clear B.
    unfold detect_figure in NF.
    destruct (re_match figure_re (strip line)); [|discriminate].
    now inversion NF. }
  destruct (detect_footnote line) as [[mark text]|] eqn:NN.
  { inversion H; subst; clear H. simpl in B. inversion B; subst; clear B.
    apply detect_footnote_sound in NN.
    destruct NN as (_ & _ & _ & Nm & _). cbn [well_formed].
    destruct mark; [congruence|reflexivity]. }
  inversion H; subst; clear H. simpl in B. inversion B; subst; clear B.
  destruct (block_end text_lines is_end_paragraph _ _ Hl)
    as (Bd & Before & _).
  cbn [well_formed]. apply andb_true_iff. split.
  - apply (slice_nonempty _ _ _ _ Hl). lia.
  - apply slice_forallb. intros j x Hj Hx. apply negb_true_iff.
    destruct (Nat.eq_dec j i) as [->|].
    + assert (x = line) by congruence. subst x.
      unfold is_end_paragraph. unfold is_ignore_line in NI.
      apply orb_false_iff in NI. destruct NI as [NI NC].
      unfold is_ignore_line. now rewrite NI, NC, NS, NE, NL, NQ, NB, NH.
    + apply (Before j); [lia|assumption].
Qed.
End WellFormed.

(** X11. Every block [to_blocks] returns has the parent handed to
    [to_blocks] and a well-formed content: a section has a level from 1 to 3
    and holds no header of its own level; a paragraph is not empty and holds
    no line that ends a paragraph; an equation holds no line of equation
    dollars; a list is not empty and holds list items only; a quote is not
    empty and none of its lines begins with ">" or a space; a figure has
    its file name; a footnote has a mark and one line of content. *)
Theorem to_blocks_returns_well_formed_blocks text fig_path parent_arg out :
  to_blocks text fig_path parent_arg = Some (Ret out) ->
  Forall (fun b => parent b = parent_arg /\ well_formed (made_by b) = true)
         (snd out).
Proof.
  unfold to_blocks. intros H.
  destruct (scan (lines_of text) fig_path parent_arg
              (length (lines_of text)) (ScanState [] false 0))
    as [[st|e']|] eqn:S; try discriminate.
  inversion H; subst out; clear H. simpl.
  assert (Inv : forall fuel st0 st1,
             Forall (fun b => parent b = parent_arg
                              /\ well_formed (made_by b) = true)
                    (content_blocks st0) ->
             scan (lines_of text) fig_path parent_arg fuel st0
             = Some (Ret st1) ->
             Forall (fun b => parent b = parent_arg
                              /\ well_formed (made_by b) = true)
                    (content_blocks st1)).
  { induction fuel as [|fuel IH]; intros st0 st1 F H; simpl in H.
    - destruct (i st0 <? length (lines_of text)); [discriminate|].
      now inversion H; subst.
    - destruct (i st0 <? length (lines_of text));
        [|now inversion H; subst].
      unfold iteration, bind in H.
      destruct (chain (lines_of text) fig_path (is_ignoring st0) (i st0))
        as [c|] eqn:C; [|discriminate].
      eapply IH; [|exact H].
      unfold append_block.
      destruct (new_block c) as [b|] eqn:B; [|exact F].
      destruct (negb (new_ignoring c)); [|exact F]. simpl.
      apply Forall_app. split; [exact F|]. constructor; [|constructor].
      split; [reflexivity|]. exact (chain_well_formed _ _ _ _ _ _ C B). }
  apply (Inv _ _ _
           (Forall_nil _
            : Forall _ (content_blocks (ScanState [] false 0))) S).
Qed.

Lemma to_blocks_returns_well_formed_blocks_witness :
  exists out,
    to_blocks (Lines ["# T"; "a"; "- b"]) "" None = Some (Ret out) /\
    Forall (fun b => parent b = None /\ well_formed (made_by b) = true)
           (snd out).
Proof.
  eexists. split; [vm_compute; reflexivity|].
  apply (to_blocks_returns_well_formed_blocks
           (Lines ["# T"; "a"; "- b"]) "" None).
  vm_compute. reflexivity.
Defined.

(* ================================================================== *)
(** * Scanning behind a prefix *)

Lemma find_from_shift {A} (expr : A -> bool) l : forall n s,
  find_from expr l (n + s) = option_map (fun j => n + j) (find_from expr l s).
Proof.
  induction l as [|x l IH]; intros n s; simpl; [reflexivity|].
  destruct (expr x); [reflexivity|]. now rewrite plus_n_Sm, IH.
Qed.

Lemma skipn_behind {A} (pre ls : list A) s :
  skipn (length pre + s) (pre ++ ls) = skipn s ls.
Proof.
  rewrite skipn_app, skipn_all2 by lia.
  now replace (length pre + s - length pre) with s by lia.
Qed.

Lemma nth_error_behind {A} (pre ls : list A) j :
  nth_error (pre ++ ls) (length pre + j) = nth_error ls j.
Proof.
  rewrite nth_error_app2 by lia.
  now replace (length pre + j - length pre) with j by lia.
Qed.

Lemma find_next_index_behind {A} (pre ls : list A) expr s :
  find_next_index (pre ++ ls) expr (length pre + s)
  = length pre + find_next_index ls expr s.
Proof.
  unfold find_next_index. rewrite skipn_behind, find_from_shift.
  destruct (find_from expr (skipn s ls) s); simpl; [reflexivity|].
  apply length_app.
Qed.

Lemma slice_behind {A} (pre ls : list A) a b :
  slice (length pre + a) (length pre + b) (pre ++ ls) = slice a b ls.
Proof.
  unfold slice. rewrite skipn_behind.
  now replace (length pre + b - (length pre + a)) with (b - a) by lia.
Qed.

Lemma chain_behind pre ls fig_path ign j :
  chain (pre ++ ls) fig_path ign (length pre + j)
  = moved (length pre) (chain ls fig_path ign j).
Proof.
  unfold chain, get, bind, assert.
  rewrite <- !Nat.add_assoc, !nth_error_behind.
  destruct (nth_error ls j) as [line|]; [|reflexivity].
  destruct (is_ignore_line line); [reflexivity|].
  destruct (is_separator_line line); [reflexivity|].
  destruct (detect_header line None) as [[h_level title]|].
  { simpl. now rewrite find_next_index_behind, slice_behind. }
  destruct (is_equation_dollars line).
  { simpl. rewrite find_next_index_behind, slice_behind.
    now rewrite <- Nat.add_assoc. }
  destruct (detect_labeled_equation line) as [label|].
  { destruct (nth_error ls (j + 1)) as [next|]; [|reflexivity].
    destruct (is_equation_dollars next); [|reflexivity]. simpl.
    rewrite find_next_index_behind, slice_behind.
    now rewrite <- Nat.add_assoc. }
  destruct (is_list_item line).
  { simpl. now rewrite find_next_index_behind, slice_behind. }
  destruct (is_quote line).
  { simpl. now rewrite find_next_index_behind, slice_behind. }
  destruct (detect_figure line) as [settings|].
  { destruct (nth_error ls (j + 1)) as [next|]; [|reflexivity].
    destruct (re_match caption_re next); reflexivity. }
  destruct (detect_footnote line) as [[mark text]|]; [reflexivity|].
  simpl. now rewrite find_next_index_behind, slice_behind.
Qed.

Section Behind.
Variable pre ls : list str.
Variable fig_path : str.
Variable parent_arg : option handle.
Variable cs : list block.

Lemma iteration_behind st :
  iteration (pre ++ ls) fig_path parent_arg (resumed cs (length pre) st)
  = match iteration ls fig_path parent_arg st with
    | Ret st' => Ret (resumed cs (length pre) st')
    | Raise e => Raise e
    end.
Proof.
  unfold iteration, bind, resumed. cbn [is_ignoring i].
  rewrite chain_behind.
  destruct (chain ls fig_path (is_ignoring st) (i st)) as [c|e];
    [|reflexivity].
  unfold moved, append_block. cbn [new_block new_ignoring new_i content_blocks].
  destruct (new_block c); [|reflexivity].
  destruct (negb (new_ignoring c)); [|reflexivity].
  cbn [content_blocks is_ignoring i]. now rewrite <- app_assoc.
Qed.

Lemma scan_behind fuel : forall st,
  scan (pre ++ ls) fig_path parent_arg fuel (resumed cs (length pre) st)
  = match scan ls fig_path parent_arg fuel st with
    | Some (Ret st') => Some (Ret (resumed cs (length pre) st'))
    | Some (Raise e) => Some (Raise e)
    | None => None
    end.
Proof.
  induction fuel as [|fuel IH]; intros st; cbn [scan].
  - replace (i (resumed cs (length pre) st) <? length (pre ++ ls))
      with (i st <? length ls).
    + now destruct (i st <? length ls).
    + unfold resumed. cbn [i]. rewrite length_app.
      destruct (Nat.ltb_spec (i st) (length ls));
        symmetry; [apply Nat.ltb_lt|apply Nat.ltb_ge]; lia.
  - replace (i (resumed cs (length pre) st) <? length (pre ++ ls))
      with (i st <? length ls).
    + destruct (i st <? length ls); [|reflexivity].
      rewrite iteration_behind.
      destruct (iteration ls fig_path parent_arg st); [apply IH|reflexivity].
    + unfold resumed. cbn [i]. rewrite length_app.
      destruct (Nat.ltb_spec (i st) (length ls));
        symmetry; [apply Nat.ltb_lt|apply Nat.ltb_ge]; lia.
Qed.

(** The scan of [pre ++ ls] from the line after [pre], without the ignore
    flag, goes on as the scan of [ls] does. *)
Lemma to_blocks_behind st :
  reachable (pre ++ ls) fig_path parent_arg st ->
  i st = length pre -> is_ignoring st = false -> content_blocks st = cs ->
  to_blocks (Lines (pre ++ ls)) fig_path parent_arg
  = match to_blocks (Lines ls) fig_path parent_arg with
    | Some (Ret (printed, blocks)) => Some (Ret (printed, cs ++ blocks))
    | r => r
    end.
Proof.
  intros R Hi Hf Hc. unfold to_blocks. cbn [lines_of].
  rewrite <- (scan_reachable _ _ _ st R).
  replace st with (resumed cs (length pre) (ScanState [] false 0)).
  2: { destruct st as [c f k]. unfold resumed. simpl in *. subst.
       now rewrite app_nil_r, Nat.add_0_r. }
  rewrite scan_behind.
  destruct (scan_terminates ls fig_path parent_arg (length ls)
              (ScanState [] false 0)) as [r Hr]; [simpl; lia|].
  rewrite (scan_more_fuel ls fig_path parent_arg (length ls) _ r
             (length (pre ++ ls)) Hr) by (rewrite length_app; lia).
  rewrite Hr. destruct r as [st'|e]; [|reflexivity]. reflexivity.
Qed.
End Behind.

(** X12. The scan only looks forward.  When the scan of [a ++ b] reaches
    the line behind [a] with the ignore flag down, [to_blocks] of [a ++ b]
    is [to_blocks] of [b] alone with the blocks built so far put in front:
    the same blocks behind them, the same printed warnings, or the same
    error. *)
Theorem to_blocks_resumes_at_a_boundary a b fig_path parent_arg st :
  reachable (a ++ b) fig_path parent_arg st ->
  i st = length a -> is_ignoring st = false ->
  to_blocks (Lines (a ++ b)) fig_path parent_arg
  = match to_blocks (Lines b) fig_path parent_arg with
    | Some (Ret (printed, blocks)) =>
      Some (Ret (printed, content_blocks st ++ blocks))
    | r => r
    end.
Proof.
  intros R Hi Hf.
  exact (to_blocks_behind a b fig_path parent_arg _ st R Hi Hf eq_refl).
Qed.

Lemma to_blocks_resumes_at_a_boundary_witness :
  to_blocks (Lines (["a"; "b"] ++ ["# T"; "c"])) "" None
  = match to_blocks (Lines ["# T"; "c"]) "" None with
    | Some (Ret (printed, blocks)) =>
      Some (Ret (printed, [Block (Paragraph ["a"; "b"]) None] ++ blocks))
    | r => r
    end.
Proof.
  refine (to_blocks_resumes_at_a_boundary ["a"; "b"] ["# T"; "c"] "" None
            (ScanState [Block (Paragraph ["a"; "b"]) None] false 2)
            _ eq_refl eq_refl).
  refine (reach_step _ _ _ (ScanState [] false 0) _ (reach_init _ _ _) _ _).
  - simpl. lia.
  - reflexivity.
Defined.

Lemma ignore_lines_reached a b fig_path parent_arg k :
  forallb is_ignore_line a = true -> k <= length a ->
  reachable (a ++ b) fig_path parent_arg (ScanState [] false k).
Proof.
  intros Ha. induction k as [|k IH]; intros Hk; [constructor|].
  apply (reach_step _ _ _ (ScanState [] false k)).
  - apply IH. lia.
  - simpl. rewrite length_app. lia.
  - destruct (nth_error a k) as [line|] eqn:Hl.
    2: { apply nth_error_None in Hl. lia. }
    assert (NI : is_ignore_line line = true).
    { rewrite forallb_forall in Ha. apply Ha.
      exact (nth_error_In _ _ Hl). }
    unfold iteration, chain, get, bind. cbn [i is_ignoring].
    rewrite nth_error_app1 by lia. rewrite Hl, NI.
    unfold append_block. cbn. now rewrite Nat.add_1_r.
Qed.

(** X13. Ignore lines (blank lines and comment lines) in front of a text
    change nothing: [to_blocks] of the text with them in front is
    [to_blocks] of the text, and a text of ignore lines only gives no
    block. *)
Theorem leading_ignore_lines_are_dropped a b fig_path parent_arg :
  forallb is_ignore_line a = true ->
  to_blocks (Lines (a ++ b)) fig_path parent_arg
  = to_blocks (Lines b) fig_path parent_arg /\
  to_blocks (Lines a) fig_path parent_arg = Some (Ret ([], [])).
Proof.
  intros Ha.
  assert (G : forall b,
             to_blocks (Lines (a ++ b)) fig_path parent_arg
             = to_blocks (Lines b) fig_path parent_arg).
  { intros b0.
    rewrite (to_blocks_behind a b0 fig_path parent_arg []
               (ScanState [] false (length a))
               (ignore_lines_reached a b0 fig_path parent_arg (length a) Ha
                  (le_n _))
               eq_refl eq_refl eq_refl).
    now destruct (to_blocks (Lines b0) fig_path parent_arg)
      as [[[printed blocks]|e]|]. }
  split; [apply G|].
  rewrite <- (app_nil_r a) at 1. now rewrite G.
Qed.

Lemma leading_ignore_lines_are_dropped_witness :
  to_blocks (Lines ([""; "#### a note"; "  "] ++ ["# T"; "x"])) "" None
  = to_blocks (Lines ["# T"; "x"]) "" None.
Proof.
  exact (proj1 (leading_ignore_lines_are_dropped [""; "#### a note"; "  "]
                  ["# T"; "x"] "" None eq_refl)).
Defined.

(* ================================================================== *)
(** * Commands, and the search of the end of a block *)

Lemma detect_command_complete c cmd tail :
  isspace c = true -> forallb isdot cmd = true ->
  (forall d t, tail = d :: t -> isdot d = false) ->
  detect_command ("####" ++ c :: cmd ++ tail) = Some cmd.
Proof.
  intros Hc Ht Htail.
  unfold detect_command, re_match, attempt, command_re, star, times.
  simpl. rewrite Hc. simpl.
  rewrite rep_greedy_span by (assumption || (intros; discriminate)).
  unfold group, capture, advance; simpl. now rewrite between_read.
Qed.

Lemma detect_command_spec line cmd :
  detect_command line = Some cmd <->
  exists c tail,
    line = "####" ++ c :: cmd ++ tail /\ isspace c = true /\
    forallb isdot cmd = true /\ (forall d t, tail = d :: t -> d = LF).
Proof.
  assert (Dot : forall tail : str,
             (forall d t, tail = d :: t -> d = LF) <->
             (forall d t, tail = d :: t -> isdot d = false)).
  { intros tail. unfold isdot.
    split; intros H d t E; specialize (H d t E).
    - now subst.
    - apply negb_false_iff in H. now apply Ascii.eqb_eq. }
  split.
  - intros D. pose proof (command_shape _ _ D)
      as (m & c & t & -> & Hm & Hl & Hc).
    destruct (span_exists isdot t) as (a & b & -> & Ha & Hb').
    rewrite (sharps_repeat m Hm), Hl in D |- *.
    change (repeat "#"%char 4) with "####" in D |- *.
    rewrite (detect_command_complete c a b Hc Ha Hb') in D.
    inversion D; subst a.
    exists c, b. split; [reflexivity|]. split; [assumption|].
    split; [assumption|]. now apply Dot.
  - intros (c & tail & -> & Hc & Ht & Htail).
    apply detect_command_complete; auto. now apply Dot.
Qed.

Lemma lower_char_idem c : lower_char (lower_char c) = lower_char c.
Proof.
  destruct c as [[] [] [] [] [] [] [] []]; reflexivity.
Qed.

Lemma lower_idem s : lower (lower s) = lower s.
Proof.
  unfold lower. rewrite map_map. apply map_ext. apply lower_char_idem.
Qed.

(** X14. [is_command line command] holds exactly on a line of four "#", a
    white-space character and a text that is not empty, up to the first
    line feed, whose stripped, lower-cased form is [command].  Such a line
    is an ignore line, and [command] is in lower case: a command with an
    upper-case letter is never found.  Four "#" and a white-space character
    with no text are neither a command nor an ignore line. *)
Theorem is_command_accepts line command :
  (is_command line command = true <->
   exists c cmd tail,
     line = "####" ++ c :: cmd ++ tail /\ isspace c = true /\
     cmd <> [] /\ forallb isdot cmd = true /\
     (forall d t, tail = d :: t -> d = LF) /\
     lower (strip cmd) = command) /\
  (is_command line command = true ->
   is_ignore_line line = true /\ lower command = command) /\
  (forall c tail,
     isspace c = true -> (forall d t, tail = d :: t -> d = LF) ->
     is_command ("####" ++ c :: tail) command = false /\
     is_ignore_line ("####" ++ c :: tail) = false).
Proof.
  assert (Iff : is_command line command = true <->
                exists c cmd tail,
                  line = "####" ++ c :: cmd ++ tail /\ isspace c = true /\
                  cmd <> [] /\ forallb isdot cmd = true /\
                  (forall d t, tail = d :: t -> d = LF) /\
                  lower (strip cmd) = command).
  { unfold is_command. split.
    - destruct (detect_command line) as [cmd|] eqn:D; [|discriminate].
      intros H. apply andb_true_iff in H. destruct H as [T E].
      apply str_eqb_eq in E. apply detect_command_spec in D.
      destruct D as (c & tail & -> & Hc & Hd & Ht).
      exists c, cmd, tail. repeat split; auto.
      now destruct cmd.
    - intros (c & cmd & tail & -> & Hc & Nc & Hd & Ht & <-).
      rewrite (proj2 (detect_command_spec _ cmd)).
      + apply andb_true_iff. split; [now destruct cmd|].
        now apply str_eqb_eq.
      + exists c, tail. repeat split; auto. }
  split; [exact Iff|]. split.
  - intros H. pose proof H as H'. apply Iff in H'.
    destruct H' as (c & cmd & tail & -> & Hc & Nc & Hd & Ht & <-).
    split; [|apply lower_idem].
    unfold is_ignore_line, is_comment.
    rewrite (proj2 (detect_command_spec _ cmd)).
    + destruct cmd; [congruence|]. apply orb_true_r.
    + exists c, tail. repeat split; auto.
  - intros c tail Hc Ht.
    assert (D : detect_command ("####" ++ c :: tail) = Some []).
    { apply detect_command_spec. exists c, tail. repeat split; auto. }
    unfold is_command, is_ignore_line, is_comment. rewrite D.
    split; [reflexivity|].
    destruct (strip_cons "#" ("###" ++ c :: tail) eq_refl) as [t' St].
    change ("####" ++ c :: tail) with ("#"%char :: "###" ++ c :: tail).
    now rewrite St.
Qed.

(** X15. [find_next_index lst expr start] is the first index from [start]
    on whose element satisfies [expr]: it lies between [start] and the
    length, no element from [start] up to it satisfies [expr], and below the
    length its element does.  It is the length of the list when there is no
    such element, also when [start] is beyond the length. *)
Theorem find_next_index_finds_the_first {A} (lst : list A) expr start :
  let e := find_next_index lst expr start in
  (start <= length lst -> start <= e <= length lst) /\
  (length lst < start -> e = length lst) /\
  (forall j x, start <= j < e -> nth_error lst j = Some x ->
               expr x = false) /\
  (e < length lst -> exists x, nth_error lst e = Some x /\ expr x = true).
Proof.
  intros e. destruct (Nat.le_gt_cases start (length lst)) as [Hs|Hs].
  - destruct (find_next_index_spec lst expr start Hs) as (B & Before & At).
    fold e in B, Before, At. repeat split; try lia; assumption.
  - assert (E : e = length lst).
    { unfold e, find_next_index. now rewrite skipn_all2 by lia. }
    repeat split; try lia.
Qed.

(* ================================================================== *)
(** * Escaping *)

Lemma escape_char c :
  escape [c] = if mem c LATEX_SPECIAL_CHARS then [backslash; c] else [c].
Proof. destruct c as [[] [] [] [] [] [] [] []]; reflexivity. Qed.

Lemma escape_cons c s : escape (c :: s) = escape [c] ++ escape s.
Proof. exact (escape_app [c] s). Qed.

(** X16. The seven replacements of the escaping loop amount to one pass
    over the line that puts a backslash in front of each special character:
    no backslash the loop adds is escaped again.  The line grows by the
    number of its special characters, and a line without them is
    unchanged. *)
Theorem escape_is_one_pass :
  (forall s,
     escape s
     = flat_map (fun c => if mem c LATEX_SPECIAL_CHARS
                          then [backslash; c] else [c]) s) /\
  (forall s,
     length (escape s)
     = length s
       + length (filter (fun c => mem c LATEX_SPECIAL_CHARS) s)) /\
  (forall s,
     forallb (fun c => negb (mem c LATEX_SPECIAL_CHARS)) s = true ->
     escape s = s).
Proof.
  assert (One : forall s,
             escape s
             = flat_map (fun c => if mem c LATEX_SPECIAL_CHARS
                                  then [backslash; c] else [c]) s).
  { induction s as [|c s IH]; [reflexivity|].
    rewrite escape_cons, escape_char, IH. reflexivity. }
  split; [exact One|]. split.
  - intros s. rewrite One. induction s as [|c s IH]; [reflexivity|].
    cbn [flat_map filter]. rewrite length_app, IH.
    destruct (mem c LATEX_SPECIAL_CHARS); simpl; lia.
  - intros s H. rewrite One. induction s as [|c s IH]; [reflexivity|].
    cbn [forallb] in H. apply andb_true_iff in H. destruct H as [Hc H].
    apply negb_true_iff in Hc. cbn [flat_map]. rewrite Hc, IH by assumption.
    reflexivity.
Qed.

(** * Lines without markup *)

Lemma findall_go_id r p s sn :
  first_class r = Some p -> forallb (fun c => negb (p c)) s = true ->
  findall_go r sn s 0 = [].
Proof.
  intros F H. rewrite <- (app_nil_r s).
  rewrite (findall_go_pass r p F s sn []) by assumption.
  simpl. now rewrite (attempt_fail_end r p _ F).
Qed.

(** A substitution leaves a text as it is when the pattern matches at none
    of its positions. *)
Lemma sub_go_unmatched r tpl : forall s sn,
  (forall sn' a b, s = a ++ b -> attempt r sn' b = None) ->
  sub_go r tpl sn s 0 = s.
Proof.
  induction s as [|c t IH]; intros sn H.
  - simpl. now rewrite (H sn [] [] eq_refl).
  - rewrite sub_go_miss by (apply (H sn []); reflexivity).
    f_equal. apply IH. intros sn' a b E. apply (H sn' (c :: a)).
    now rewrite E.
Qed.

(** A match of the joining pattern holds an opening bracket behind a
    closing one. *)
Lemma join_needs_brackets sn rs st :
  attempt join_re sn rs = Some st ->
  exists x y, rs = x ++ "]"%char :: y /\ In "["%char y.
Proof.
  unfold attempt. intros H. apply exec_sound in H.
  destruct H as (st' & M & _).
  unfold join_re, plus, times, star_lazy in M. simpl in M.
  inv_matches; simpl in *.
  repeat match goal with H : ch _ _ = true |- _ => apply ch_eq in H end.
  subst.
  match goal with
  | |- exists x y, ?a ++ ?c :: ?b ++ ?d ++ "]"%char :: ?y0 = _ /\ _ =>
    exists (a ++ c :: b ++ d), y0
  end.
  split.
  - now rewrite <- !app_assoc, <- app_comm_cons, <- !app_assoc.
  - right. apply in_or_app. right. now left.
Qed.

Lemma no_bracket_suffix (s a b : str) :
  forallb (fun c => negb (ch "[" c)) s = true -> s = a ++ b ->
  ~ In "["%char b.
Proof.
  intros H -> Hin. rewrite forallb_app in H. apply andb_true_iff in H.
  destruct H as [_ H]. rewrite forallb_forall in H.
  specialize (H _ Hin). discriminate.
Qed.

Lemma join_step_no_bracket s :
  forallb (fun c => negb (ch "[" c)) s = true -> join_step s = s.
Proof.
  intros H. unfold join_step, re_sub. apply sub_go_unmatched.
  intros sn' a b E.
  destruct (attempt join_re sn' b) as [st|] eqn:A; [exfalso|reflexivity].
  apply join_needs_brackets in A. destruct A as (x & y & -> & Hin).
  apply (no_bracket_suffix s (a ++ x ++ ["]"%char]) y H).
  - now rewrite E, <- !app_assoc.
  - exact Hin.
Qed.

Lemma join_loop_fixed fuel line :
  join_step line = line -> join_loop (S fuel) line = Some line.
Proof. intros E. cbn [join_loop]. rewrite E, Nat.eqb_refl. reflexivity. Qed.

Lemma plain_not x c :
  mem c "$[`*=" = true -> forallb plain x = true ->
  forallb (fun y => negb (ch c y)) x = true.
Proof.
  intros Hc H. rewrite forallb_forall in *. intros y Hy. specialize (H y Hy).
  unfold plain in H. apply negb_true_iff in H. apply negb_true_iff. unfold ch.
  destruct (Ascii.eqb_spec y c); [subst; congruence|reflexivity].
Qed.

(** The stages after the escaping leave a text without the characters
    that open a markup as it is. *)
Lemma later_stages_id s :
  forallb (fun y => negb (ch "[" y)) s = true ->
  forallb (fun y => negb (ch "`" y)) s = true ->
  forallb (fun y => negb (ch "*" y)) s = true ->
  forallb (fun y => negb (ch "=" y)) s = true ->
  citation_keys s = s /\ join_loop (S (length s)) s = Some s /\
  lower_citations s = s /\ lower_references s = s /\ text_formatting s = s.
Proof.
  intros B K S E. split; [|split; [|split; [|split]]].
  - unfold citation_keys, re_sub.
    now apply (sub_go_id code_key_re _ (ch "`")).
  - apply join_loop_fixed. now apply join_step_no_bracket.
  - unfold lower_citations, re_sub.
    now apply (sub_go_id note_key_re _ (ch "[")).
  - unfold lower_references, re_sub.
    rewrite (sub_go_id (ref_re "fig:") _ (ch "`"))
      by (reflexivity || assumption).
    now apply (sub_go_id (ref_re "eq:") _ (ch "`")).
  - unfold text_formatting, re_sub.
    rewrite (sub_go_id monospace_re _ (ch "`")) by (reflexivity || assumption).
    rewrite (sub_go_id quoted_italic_re _ (ch "*"))
      by (reflexivity || assumption).
    rewrite (sub_go_id italic_re _ (ch "*")) by (reflexivity || assumption).
    rewrite (sub_go_id bold_re _ (ch "*")) by (reflexivity || assumption).
    now apply (sub_go_id highlight_re _ (ch "=")).
Qed.

Lemma special_characters_unmarked s :
  forallb (fun y => negb (ch "$" y)) s = true ->
  forallb (fun y => negb (ch "[" y)) s = true ->
  forallb (fun y => negb (ch "`" y)) s = true ->
  special_characters s = escape s.
Proof.
  intros D B K.
  unfold special_characters, protect, restore, re_findall, re_sub.
  cbn [equations links codes masked].
  rewrite (findall_go_id equation_re (ch "$") _ [] eq_refl D).
  rewrite (findall_go_id link_re (ch "[") _ [] eq_refl B).
  rewrite (findall_go_id code_re (ch "`") _ [] eq_refl K).
  rewrite (sub_go_id equation_re _ (ch "$") _ [] eq_refl D).
  rewrite (sub_go_id link_re _ (ch "[") _ [] eq_refl B).
  rewrite (sub_go_id code_re _ (ch "`") _ [] eq_refl K).
  unfold put_back. cbn [fold_left].
  unfold guard_brackets, re_sub.
  apply (sub_go_id bracket_re _ (ch "[")); [reflexivity|].
  now apply escape_keeps.
Qed.

Lemma special_characters_plain s :
  forallb plain s = true -> special_characters s = escape s.
Proof.
  intros P. apply special_characters_unmarked; now apply plain_not.
Qed.

Lemma format_line_plain s :
  forallb plain s = true -> format_line s = Some (escape s).
Proof.
  intros P. unfold format_line. rewrite (special_characters_plain s P).
  destruct (later_stages_id (escape s)) as (C & J & L & R & T);
    try (apply escape_keeps; [reflexivity|now apply plain_not]).
  now rewrite C, J, L, R, T.
Qed.

(** X17. On lines that hold none of the characters "$", "[", "`", "*" and
    "=", [format_text] returns, and all it does is the escaping of the
    special characters, line by line. *)
Theorem plain_text_is_only_escaped text_lines :
  forallb (forallb plain) text_lines = true ->
  format_text text_lines = Some (map escape text_lines).
Proof.
  unfold format_text. induction text_lines as [|l ls IH]; [reflexivity|].
  cbn [forallb map all_some]. intros H. apply andb_true_iff in H.
  destruct H as [Hl Hls]. rewrite (format_line_plain l Hl).
  now rewrite (IH Hls).
Qed.

Lemma plain_text_is_only_escaped_witness :
  format_text ["50% of a_b"; "R&D #1"]
  = Some (map escape ["50% of a_b"; "R&D #1"]).
Proof.
  exact (plain_text_is_only_escaped ["50% of a_b"; "R&D #1"] eq_refl).
Defined.

(** * The joining loop *)

Lemma join_loop_result fuel : forall line out,
  join_loop fuel line = Some out ->
  join_step out = out /\ length out <= length line.
Proof.
  induction fuel as [|fuel IH]; intros line out H; [discriminate|].
  cbn [join_loop] in H.
  destruct (Nat.eqb_spec (length (join_step line)) (length line)) as [E|N];
    cbn [negb] in H.
  - inversion H; subst out; clear H.
    destruct (join_step_shrinks line) as [S|S]; [|lia].
    rewrite !S. split; [reflexivity|lia].
  - destruct (IH _ _ H) as [F L]. split; [exact F|].
    destruct (join_step_shrinks line) as [S|S]; [congruence|lia].
Qed.

(** X18. The loop that joins consecutive citations ends after at most as
    many rounds as the line has characters plus one, at a line that one
    more round of the joining substitution leaves as it is, and that is no
    longer than the line it began with. *)
Theorem join_loop_reaches_a_fixed_point line :
  exists out,
    join_loop (S (length line)) line = Some out /\
    join_step out = out /\ length out <= length line /\
    forall fuel, length line < fuel -> join_loop fuel line = Some out.
Proof.
  destruct (join_loop_terminates (S (length line)) line) as [out H]; [lia|].
  exists out. split; [exact H|].
  destruct (join_loop_result _ _ _ H) as [F L].
  split; [exact F|]. split; [exact L|].
  assert (Mono : forall f line0 out0,
             join_loop f line0 = Some out0 ->
             forall f', f <= f' -> join_loop f' line0 = Some out0).
  { induction f as [|f IH]; intros line0 out0 H0 f' Hf; [discriminate|].
    destruct f' as [|f']; [lia|]. cbn [join_loop] in *.
    destruct (negb (length (join_step line0) =? length line0)).
    - apply (IH _ _ H0). lia.
    - exact H0. }
  intros fuel Hf. apply (Mono _ _ _ H). lia.
Qed.

(* ================================================================== *)
(** * The bracket guard *)

Lemma bracket_needs_closing sn rs st :
  attempt bracket_re sn rs = Some st -> In "]"%char rs.
Proof.
  unfold attempt. intros H. apply exec_sound in H.
  destruct H as (st' & M & _).
  unfold bracket_re, star in M. simpl in M.
  inv_matches; simpl in *.
  repeat match goal with H : ch _ _ = true |- _ => apply ch_eq in H end.
  subst.
  right. apply in_or_app. right. now left.
Qed.

Lemma attempt_bracket sn b c :
  (forall d t, sn = d :: t -> ch "[" d = false) ->
  forallb isdot b = true ->
  forallb (fun y => negb (ch "]" y)) c = true ->
  attempt bracket_re sn ("[" ++ b ++ "]" ++ c)
  = Some (MState ("]"%char :: rev b ++ "["%char :: sn) c
            [(1, "[" ++ b ++ "]")]).
Proof.
  intros Hsn Hb Hc. unfold attempt, bracket_re, star. simpl.
  assert (Behind : forall k : option mstate,
             match sn with
             | [] => k
             | d :: _ => if ch "[" d then None else k
             end = k).
  { intros k. destruct sn as [|d t]; [reflexivity|].
    now rewrite (Hsn d t eq_refl). }
  rewrite Behind.
  change (b ++ "]"%char :: c) with (b ++ ("]" ++ c)).
  erewrite rep_greedy_at_longest; [reflexivity | exact Hb | | ].
  - simpl. unfold capture, advance. simpl.
    rewrite (between_upto ("[" ++ b ++ "]"))
      by (simpl; rewrite rev_app_distr; simpl; now rewrite <- app_assoc).
    destruct c as [|d t]; [reflexivity|].
    simpl in Hc. apply andb_true_iff in Hc. destruct Hc as [Hd _].
    apply negb_true_iff in Hd. now rewrite Hd.
  - intros a' b' E Na Ha. simpl.
    destruct a' as [|a0 a']; [congruence|]. simpl in E. inversion E; subst.
    destruct b' as [|b0 b']; [reflexivity|].
    rewrite forallb_app in Hc. apply andb_true_iff in Hc.
    destruct Hc as [_ Hc]. simpl in Hc. apply andb_true_iff in Hc.
    destruct Hc as [Hb0 _]. apply negb_true_iff in Hb0. now rewrite Hb0.
Qed.

(** X19. The bracket guard is greedy: in a line without line feed between
    its first "[" and its last "]", it puts one pair of braces around all
    from the first "[" to the last "]", whatever brackets lie between. *)
Theorem bracket_guard_wraps_first_to_last a b c :
  forallb (fun y => negb (ch "[" y)) a = true ->
  forallb isdot b = true ->
  forallb (fun y => negb (ch "]" y)) c = true ->
  guard_brackets (a ++ "[" ++ b ++ "]" ++ c) = a ++ "{[" ++ b ++ "]}" ++ c.
Proof.
  intros Ha Hb Hc. unfold guard_brackets, re_sub.
  rewrite (sub_go_pass bracket_re _ (ch "[") eq_refl a) by assumption.
  f_equal.
  assert (Behind : forall d t, rev a ++ [] = d :: t -> ch "[" d = false).
  { intros d t E. rewrite app_nil_r in E.
    assert (Hin : In d a) by (apply in_rev; rewrite E; now left).
    rewrite forallb_forall in Ha. specialize (Ha d Hin).
    now apply negb_true_iff in Ha. }
  pose proof (attempt_bracket (rev a ++ []) b c Behind Hb Hc) as A.
  replace ("[" ++ b ++ "]" ++ c) with (("[" ++ b ++ "]") ++ c) in *
    by (now rewrite <- !app_assoc).
  rewrite (sub_go_hit_at bracket_re _ (rev a ++ []) ("[" ++ b ++ "]") c _
             ltac:(discriminate) A ltac:(rev_norm) eq_refl).
  cbn [expand group groups assoc Nat.eqb seen].
  rewrite sub_go_unmatched.
  - now rewrite <- !app_assoc.
  - intros sn' x y E.
    destruct (attempt bracket_re sn' y) as [st|] eqn:N; [exfalso|reflexivity].
    apply bracket_needs_closing in N. subst c.
    rewrite forallb_app in Hc. apply andb_true_iff in Hc.
    destruct Hc as [_ Hc]. rewrite forallb_forall in Hc.
    specialize (Hc _ N). discriminate.
Qed.

Lemma bracket_guard_wraps_first_to_last_witness :
  guard_brackets ("see " ++ "[" ++ "1] and [2" ++ "]" ++ " there")
  = "see " ++ "{[" ++ "1] and [2" ++ "]}" ++ " there".
Proof.
  exact (bracket_guard_wraps_first_to_last "see " "1] and [2" " there"
           eq_refl eq_refl eq_refl).
Defined.

(* ================================================================== *)
(** * Building matches *)

Lemma matches_lit s : forall st rs,
  rest st = s ++ rs ->
  matches (lit s) st (MState (rev s ++ seen st) rs (groups st)).
Proof.
  induction s as [|c s IH]; intros [sn r g] rs E; simpl in *.
  - subst. apply M_Eps.
  - eapply M_Seq.
    + apply (M_Chr (ch c) c (s ++ rs)); [exact E|apply Ascii.eqb_refl].
    + specialize (IH (advance c (s ++ rs) (MState sn r g)) rs eq_refl).
      simpl in IH. now rewrite <- app_assoc.
Qed.

(** The body of a key: word characters, a character of the class of the
    years, two digits and a tail in the class [p]. *)
Lemma matches_key p greedy sn w y d1 d2 v rs gs :
  w <> [] -> forallb isword w = true -> year_class y = true ->
  isdigit d1 = true -> isdigit d2 = true -> forallb p v = true ->
  matches (plus isword ;; Chr year_class ;; times isdigit 2 ;;
           Rep p 0 None greedy)
    (MState sn (w ++ y :: d1 :: d2 :: v ++ rs) gs)
    (MState (rev (w ++ y :: d1 :: d2 :: v) ++ sn) rs gs).
Proof.
  intros Nw Hw Hy H1 H2 Hv. unfold plus, times.
  eapply M_Seq.
  { apply (M_Rep isword 1 None true w _ (y :: d1 :: d2 :: v ++ rs)); simpl.
    - reflexivity.
    - assumption.
    - destruct w; [contradiction|simpl; lia].
    - discriminate. }
  eapply M_Seq.
  { apply M_Chr with (t := d1 :: d2 :: v ++ rs); [reflexivity|assumption]. }
  eapply M_Seq.
  { apply (M_Rep isdigit 2 (Some 2) true [d1; d2] _ (v ++ rs)); simpl.
    - reflexivity.
    - now rewrite H1, H2.
    - lia.
    - intros h Hh. inversion Hh. lia. }
  simpl.
  match goal with
  | |- matches _ ?a ?b =>
    replace b with (MState (rev v ++ seen a) rs (groups a))
  end.
  { apply (M_Rep p 0 None greedy v _ rs); simpl;
      [reflexivity|assumption|lia|discriminate]. }
  simpl. f_equal. rev_norm.
Qed.

Lemma loose_key_chars s : loose_key s -> forallb key_char s = true.
Proof.
  intros (w & y & d1 & d2 & v & -> & _ & Hw & Hy & H1 & H2 & Hv).
  assert (W : forall x, forallb isword x = true -> forallb key_char x = true).
  { intros x H. rewrite forallb_forall in *. intros c Hc.
    unfold key_char. now rewrite (H c Hc). }
  rewrite forallb_app. cbn [forallb]. rewrite (W w Hw), (W v Hv).
  unfold key_char. rewrite Hy, (digit_word _ H1), (digit_word _ H2).
  now rewrite orb_true_r.
Qed.

Lemma key_char_facts c :
  key_char c = true ->
  quiet c = true /\ calm c = true /\ plain c = true /\ isspace c = false /\
  ch "]" c = false /\ ch "," c = false /\ ch ":" c = false /\
  mem c LATEX_SPECIAL_CHARS = (c =? "_")%char.
Proof.
  destruct c as [[] [] [] [] [] [] [] []]; vm_compute; intros H;
    try discriminate H; repeat split.
Qed.

Lemma forallb_weaken (p q : ascii -> bool) s :
  (forall c, p c = true -> q c = true) ->
  forallb p s = true -> forallb q s = true.
Proof.
  intros I H. rewrite forallb_forall in *. intros c Hc. apply I, H, Hc.
Qed.

(** * A code span alone on a line *)

Lemma special_characters_code_span x :
  forallb quiet x = true ->
  special_characters ("`" ++ x ++ "`") = "`" ++ x ++ "`".
Proof.
  intros Q. unfold special_characters, protect, restore, re_findall, re_sub.
  cbn [equations links codes masked].
  assert (ND : forallb (fun y => negb (ch "$" y)) ("`" ++ x ++ "`") = true)
    by (rewrite !forallb_app, (quiet_not x "$" eq_refl Q); reflexivity).
  assert (NB : forallb (fun y => negb (ch "[" y)) ("`" ++ x ++ "`") = true)
    by (rewrite !forallb_app, (quiet_not x "[" eq_refl Q); reflexivity).
  rewrite (findall_go_id equation_re (ch "$") _ [] eq_refl ND).
  rewrite (findall_go_id link_re (ch "[") _ [] eq_refl NB).
  rewrite (sub_go_id equation_re _ (ch "$") _ [] eq_refl ND).
  rewrite (sub_go_id link_re _ (ch "[") _ [] eq_refl NB).
  replace ("`" ++ x ++ "`") with ("`" ++ x ++ "`" ++ "")
    by (now rewrite app_nil_r).
  rewrite findall_code_hit, sub_code_hit by assumption.
  rewrite (sub_go_end code_re _ (ch "`")) by reflexivity.
  cbn [expand findall_go]. rewrite !app_nil_r.
  rewrite (attempt_fail_end code_re (ch "`")) by reflexivity.
  change (guard_brackets (escape CODE_PLACEHOLDER)) with CODE_PLACEHOLDER.
  unfold put_back. cbn [fold_left].
  change (replace_first CODE_PLACEHOLDER ("`" ++ x ++ "`") CODE_PLACEHOLDER)
    with (replace_first ("<"%char :: "CODE-PLACEHOLDER>") ("`" ++ x ++ "`")
            (("<"%char :: "CODE-PLACEHOLDER>") ++ "")).
  rewrite replace_first_hit. now rewrite !app_nil_r.
Qed.

(** * Keys between double brackets *)

Lemma closing_unique u : forall s r0 r,
  u ++ "]]" ++ r0 = s ++ "]]" ++ r ->
  forallb (fun c => negb (ch "]" c)) u = true ->
  forallb (fun c => negb (ch "]" c)) r0 = true ->
  s = u /\ r = r0.
Proof.
  induction u as [|c u IH]; intros [|c' s] r0 r E H H0; simpl in *.
  - inversion E. now split.
  - exfalso. inversion E as [[E1 E2]]. subst c'.
    destruct s as [|c'' s]; simpl in E2; inversion E2; subst;
      [simpl in H0; discriminate|].
    rewrite forallb_app in H0. apply andb_true_iff in H0.
    destruct H0 as [_ H0]. discriminate.
  - inversion E; subst. discriminate.
  - inversion E; subst. apply andb_true_iff in H. destruct H as [_ H].
    destruct (IH s r0 r) as [-> ->]; auto.
Qed.

Ltac rev_norm' :=
  repeat progress (simpl; rewrite ?rev_app_distr; simpl;
                   rewrite <- ?app_assoc);
  reflexivity.

Lemma note_key_shape sn rs st :
  attempt note_key_re sn rs = Some st ->
  exists s, rs = "[[" ++ s ++ "]]" ++ rest st /\
            seen st = rev ("[[" ++ s ++ "]]") ++ sn /\ group 1 st = s.
Proof.
  unfold attempt. intros H. apply exec_sound in H.
  destruct H as (st' & M & K). inversion K; subst; clear K.
  unfold note_key_re, plus, star_lazy, times in M. simpl in M. inv_matches.
  unfold capture, advance, group in *. simpl in *. use_bounds. subst.
  repeat match goal with H : ch _ _ = true |- _ => apply ch_eq in H end. subst.
  match goal with
  | |- exists s, _ :: _ :: ?a ++ ?y :: ?b ++ ?c ++ _ = _ /\ _ =>
    exists (a ++ y :: b ++ c)
  end.
  split; [|split].
  - simpl. now rewrite <- !app_assoc, <- app_comm_cons, <- !app_assoc.
  - rev_norm'.
  - apply between_upto. rev_norm'.
Qed.

(** A double-bracket span that begins with a key and holds no space and
    no closing bracket is a match of the pattern of the citations. *)
Lemma note_key_hit tpl sn k t rs :
  loose_key k ->
  forallb (fun c => negb (isspace c) && negb (ch "]" c)) t = true ->
  forallb (fun c => negb (ch "]" c)) rs = true ->
  exists st,
    group 1 st = k ++ t /\
    sub_go note_key_re tpl sn ("[[" ++ k ++ t ++ "]]" ++ rs) 0
    = expand tpl st ++ sub_go note_key_re tpl (seen st) rs 0.
Proof.
  intros L Ht Hrs.
  pose proof (loose_key_chars k L) as KC.
  assert (NC : forallb (fun c => negb (ch "]" c)) (k ++ t) = true).
  { rewrite forallb_app. apply andb_true_iff. split.
    - apply (forallb_weaken key_char); [|assumption].
      intros c Hc. destruct (key_char_facts c Hc) as (_ & _ & _ & _ & B & _).
      now rewrite B.
    - apply (forallb_weaken
               (fun c => negb (isspace c) && negb (ch "]" c))); [|exact Ht].
      intros c Hc. now apply andb_true_iff in Hc. }
  destruct L as (w & y & d1 & d2 & v & E & Hw0 & Hw & Hy & H1 & H2 & Hv).
  destruct (attempt note_key_re sn ("[[" ++ k ++ t ++ "]]" ++ rs))
    as [st|] eqn:A.
  - exists st.
    destruct (note_key_shape _ _ _ A) as (s' & Ers & Eseen & Eg).
    simpl in Ers. inversion Ers as [Ers'].
    rewrite app_assoc in Ers'.
    apply closing_unique in Ers'; [|assumption|assumption].
    destruct Ers' as [-> Er]. split; [assumption|].
    replace ("[[" ++ k ++ t ++ "]]" ++ rs)
      with (("[[" ++ (k ++ t) ++ "]]") ++ rs) in *
      by (now rewrite <- !app_assoc).
    apply sub_go_hit_at; [discriminate|assumption|assumption|assumption].
  - exfalso. revert A. unfold attempt.
    apply exec_complete with
      (st' := MState ("]]" ++ rev (k ++ t) ++ "[[" ++ sn) rs
                [(1, between (MState ("[[" ++ sn) (k ++ t ++ "]]" ++ rs) [])
                       (MState (rev (k ++ t) ++ "[[" ++ sn) ("]]" ++ rs)
                          []))]);
      [|discriminate].
    unfold note_key_re. eapply M_Seq.
    { apply (matches_lit "[[" (MState sn ("[[" ++ k ++ t ++ "]]" ++ rs) [])
               (k ++ t ++ "]]" ++ rs)). reflexivity. }
    eapply M_Seq.
    { apply (M_Grp 1 _ (MState ("[[" ++ sn) (k ++ t ++ "]]" ++ rs) [])
               (MState (rev (k ++ t) ++ "[[" ++ sn) ("]]" ++ rs) [])).
      subst k.
      pose proof (matches_key (fun c => negb (isspace c)) false ("[[" ++ sn)
                    w y d1 d2 (v ++ t) ("]]" ++ rs) [] Hw0 Hw Hy H1 H2) as M.
      unfold star_lazy.
      replace ((w ++ y :: d1 :: d2 :: v) ++ t ++ "]]" ++ rs)
        with (w ++ y :: d1 :: d2 :: (v ++ t) ++ "]]" ++ rs)
        by (now rewrite <- !app_assoc).
      replace ((w ++ y :: d1 :: d2 :: v) ++ t)
        with (w ++ y :: d1 :: d2 :: v ++ t)
        by (now rewrite <- !app_assoc).
      apply M. rewrite forallb_app. apply andb_true_iff. split.
      - apply (forallb_weaken isword); [|assumption].
        intros c Hc.
        assert (K : key_char c = true) by (unfold key_char; now rewrite Hc).
        destruct (key_char_facts c K) as (_ & _ & _ & S & _). now rewrite S.
      - apply (forallb_weaken
                 (fun c => negb (isspace c) && negb (ch "]" c))); [|exact Ht].
        intros c Hc. now apply andb_true_iff in Hc. }
    pose proof (matches_lit "]]"
                  (capture 1
                     (MState ("[[" ++ sn) (k ++ t ++ "]]" ++ rs) [])
                     (MState (rev (k ++ t) ++ "[[" ++ sn) ("]]" ++ rs) []))
                  rs eq_refl) as M.
    exact M.
Qed.

(** * Where the joining pattern finds nothing *)

Lemma join_step_ordered u v :
  forallb (fun c => negb (ch "]" c)) u = true ->
  forallb (fun c => negb (ch "[" c)) v = true ->
  join_step (u ++ v) = u ++ v.
Proof.
  intros Hu Hv. unfold join_step, re_sub. apply sub_go_unmatched.
  intros sn' a b E.
  destruct (attempt join_re sn' b) as [st|] eqn:A; [exfalso|reflexivity].
  apply join_needs_brackets in A. destruct A as (x & y & -> & Hin).
  rewrite app_assoc in E. apply app_eq_app in E.
  rewrite forallb_forall in Hu, Hv.
  destruct E as [l [[E1 E2]|[E1 E2]]].
  - destruct l as [|c l].
    + simpl in E2. subst v. specialize (Hv _ (or_intror Hin)). discriminate.
    + simpl in E2. inversion E2; subst.
      assert (I : In "]"%char ((a ++ x) ++ "]"%char :: l)).
      { apply in_or_app. right. now left. }
      specialize (Hu _ I). discriminate.
  - subst v. assert (I : In "["%char (l ++ "]"%char :: y)).
    { apply in_or_app. right. now right. }
    specialize (Hv _ I). discriminate.
Qed.

(* ================================================================== *)
Lemma prose_quiet s : forallb prose s = true -> forallb quiet s = true.
Proof.
  apply forallb_weaken. intros c H. now apply andb_true_iff in H.
Qed.

Lemma prose_calm s : forallb prose s = true -> forallb calm s = true.
Proof.
  apply forallb_weaken. intros c H. now apply andb_true_iff in H.
Qed.

Lemma prose_not x c :
  mem c ("`$[]<*=" ++ [dquote]) = true -> forallb prose x = true ->
  forallb (fun y => negb (ch c y)) x = true.
Proof.
  intros Hc H. rewrite forallb_forall in *. intros y Hy. specialize (H y Hy).
  apply negb_true_iff. unfold ch.
  destruct (Ascii.eqb_spec y c); [subst y|reflexivity].
  unfold mem in Hc. simpl in Hc.
  repeat (apply orb_true_iff in Hc; destruct Hc as [Hc|Hc]);
    try discriminate; apply Ascii.eqb_eq in Hc; subst c; discriminate.
Qed.

Lemma escape_prose s :
  forallb prose s = true -> forallb prose (escape s) = true.
Proof. now apply escape_keeps. Qed.

(** * A code span in running text *)

Section Around.
Variables a x b : str.
Hypothesis Qa : forallb quiet a = true.
Hypothesis Qx : forallb quiet x = true.
Hypothesis Qb : forallb quiet b = true.

Local Abbreviation spanned_line := (a ++ "`" ++ x ++ "`" ++ b).

Lemma around_without d :
  mem d "$[" = true ->
  forallb (fun y => negb (ch d y)) spanned_line = true.
Proof.
  intros Hd. rewrite !forallb_app.
  assert (M : mem d "`$[]<" = true).
  { unfold mem in *. simpl in *.
    repeat (apply orb_true_iff in Hd; destruct Hd as [Hd|Hd]);
      try discriminate; apply Ascii.eqb_eq in Hd; subst d; reflexivity. }
  rewrite (quiet_not a d M Qa), (quiet_not x d M Qx), (quiet_not b d M Qb).
  unfold mem in Hd. simpl in Hd.
  repeat (apply orb_true_iff in Hd; destruct Hd as [Hd|Hd]);
    try discriminate; apply Ascii.eqb_eq in Hd; subst d; reflexivity.
Qed.

Lemma special_characters_around :
  special_characters spanned_line = escape a ++ "`" ++ x ++ "`" ++ escape b.
Proof.
  unfold special_characters, protect, restore, re_findall, re_sub.
  cbn [equations links codes masked].
  rewrite (findall_go_id equation_re (ch "$") _ [] eq_refl
             (around_without "$" eq_refl)).
  rewrite (findall_go_id link_re (ch "[") _ [] eq_refl
             (around_without "[" eq_refl)).
  rewrite (sub_go_id equation_re _ (ch "$") _ [] eq_refl
             (around_without "$" eq_refl)).
  rewrite (sub_go_id link_re _ (ch "[") _ [] eq_refl
             (around_without "[" eq_refl)).
  pass_findall code_re (ch "`"). pass_sub code_re (ch "`").
  rewrite findall_code_hit, sub_code_hit by assumption.
  rewrite (findall_go_id code_re (ch "`")) by side_pass.
  rewrite (sub_go_id code_re _ (ch "`")) by side_pass.
  cbn [expand]. rewrite app_nil_r.
  rewrite !escape_app.
  change (escape CODE_PLACEHOLDER) with CODE_PLACEHOLDER.
  assert (G : guard_brackets (escape a ++ CODE_PLACEHOLDER ++ escape b)
              = escape a ++ CODE_PLACEHOLDER ++ escape b).
  { unfold guard_brackets, re_sub.
    apply (sub_go_id bracket_re _ (ch "[")); [reflexivity|].
    rewrite !forallb_app.
    rewrite !(escape_keeps (fun c => negb (ch "[" c))) by side_pass.
    reflexivity. }
  rewrite G. unfold put_back. cbn [fold_left].
  unfold CODE_PLACEHOLDER.
  rewrite replace_first_pass
    by (apply escape_keeps; [reflexivity|now apply quiet_not]).
  rewrite replace_first_hit. now rewrite <- !app_assoc.
Qed.
End Around.

Lemma prose_escape_not x c :
  mem c ("`$[]<*=" ++ [dquote]) = true -> forallb prose x = true ->
  forallb (fun y => negb (ch c y)) (escape x) = true.
Proof.
  intros Hc H. apply (prose_not (escape x) c Hc). now apply escape_prose.
Qed.

Lemma key_prose k : loose_key k -> forallb prose k = true.
Proof.
  intros L. apply (forallb_weaken key_char); [|now apply loose_key_chars].
  intros c Hc. destruct (key_char_facts c Hc) as (Q & C & _).
  unfold prose. now rewrite Q, C.
Qed.

(** Solves the goals that say that a text put together from running text,
    escaped or not, and literals does not hold a given character. *)
Ltac no_markup :=
  rewrite ?forallb_app;
  repeat match goal with
         | H : forallb prose ?x = true |- _ =>
           first [ rewrite (prose_escape_not x) by (first [reflexivity|exact H])
                 | rewrite (prose_not x) by (first [reflexivity|exact H]) ]
         end;
  reflexivity.

(** X20. A citation key in backticks in running text becomes a citation:
    [format_text] turns the line a`k`b into a\cite{k}b with the running
    text [a] and [b] escaped and the key as it is. *)
Theorem key_in_backticks_becomes_a_citation a k b :
  forallb prose a = true -> loose_key k -> forallb prose b = true ->
  format_text [a ++ "`" ++ k ++ "`" ++ b]
  = Some [escape a ++ (backslash :: "cite{") ++ k ++ "}" ++ escape b].
Proof.
  intros Pa L Pb. pose proof (key_prose k L) as Pk.
  unfold format_text. cbn [map all_some]. unfold format_line.
  rewrite (special_characters_around a k b)
    by (now apply prose_quiet).
  (* the key becomes a double-bracket reference *)
  assert (C : citation_keys (escape a ++ "`" ++ k ++ "`" ++ escape b)
              = escape a ++ "[[" ++ k ++ "]]" ++ escape b).
  { unfold citation_keys, re_sub.
    rewrite (sub_go_pass code_key_re _ (ch "`") eq_refl (escape a))
      by no_markup.
    destruct (code_key_hit [TLit "[["; TGrp 1; TLit "]]"]
                (rev (escape a) ++ []) k (escape b) L) as (st & _ & G & S).
    rewrite S. rewrite (sub_go_id code_key_re _ (ch "`")) by no_markup.
    cbn [expand]. rewrite G. now rewrite <- !app_assoc. }
  rewrite C.
  (* nothing to join *)
  replace (escape a ++ "[[" ++ k ++ "]]" ++ escape b)
    with ((escape a ++ "[[" ++ k) ++ ("]]" ++ escape b))
    by (now rewrite <- !app_assoc).
  rewrite join_loop_fixed by (apply join_step_ordered; no_markup).
  (* the reference becomes a citation command *)
  assert (N : lower_citations ((escape a ++ "[[" ++ k) ++ "]]" ++ escape b)
              = escape a ++ (backslash :: "cite{") ++ k ++ "}" ++ escape b).
  { unfold lower_citations, re_sub. rewrite <- !app_assoc.
    rewrite (sub_go_pass note_key_re _ (ch "[") eq_refl (escape a))
      by no_markup.
    destruct (note_key_hit (command "cite") (rev (escape a) ++ []) k ""
                (escape b) L eq_refl) as (st & G & S); [no_markup|].
    cbn [app] in S. cbn [app]. rewrite S.
    rewrite (sub_go_id note_key_re _ (ch "[")) by no_markup.
    cbn [expand command]. rewrite G, app_nil_r.
    now rewrite <- !app_assoc. }
  rewrite N.
  destruct (later_stages_id
              (escape a ++ (backslash :: "cite{") ++ k ++ "}" ++ escape b))
    as (_ & _ & _ & R & F); try no_markup.
  now rewrite R, F.
Qed.

Lemma key_in_backticks_becomes_a_citation_witness :
  format_text ["as " ++ "`" ++ "smith2020" ++ "`" ++ " found in 50%"]
  = Some [escape "as " ++ (backslash :: "cite{") ++ "smith2020" ++ "}"
          ++ escape " found in 50%"].
Proof.
  refine (key_in_backticks_becomes_a_citation "as " "smith2020"
            " found in 50%" eq_refl _ eq_refl).
  exists "smith", "2"%char, "0"%char, "2"%char, "0".
  repeat (split; [first [reflexivity|discriminate]|]). reflexivity.
Defined.

(* ================================================================== *)
(** * A backtick span that a pattern does not take *)

(** A pattern that begins at a backtick and finds no match at the two
    backticks of the only span of a text leaves the text as it is. *)
Lemma sub_go_one_span r tpl sn pre x post :
  first_class r = Some (ch "`") ->
  forallb (fun y => negb (ch "`" y)) pre = true ->
  forallb (fun y => negb (ch "`" y)) x = true ->
  forallb (fun y => negb (ch "`" y)) post = true ->
  attempt r (rev pre ++ sn) ("`" ++ x ++ "`" ++ post) = None ->
  attempt r (rev x ++ "`"%char :: rev pre ++ sn) ("`" ++ post) = None ->
  sub_go r tpl sn (pre ++ "`" ++ x ++ "`" ++ post) 0
  = pre ++ "`" ++ x ++ "`" ++ post.
Proof.
  intros F Hpre Hx Hpost A1 A2.
  rewrite (sub_go_pass r tpl (ch "`") F pre) by assumption. f_equal.
  change ("`" ++ x ++ "`" ++ post) with ("`"%char :: x ++ "`" ++ post) in *.
  rewrite (sub_go_miss r) by exact A1. f_equal.
  rewrite (sub_go_pass r tpl (ch "`") F x) by assumption. f_equal.
  change ("`" ++ post) with ("`"%char :: post) in *.
  rewrite (sub_go_miss r) by exact A2. f_equal.
  now apply (sub_go_id r tpl (ch "`")).
Qed.

(** A match of the pattern of a key in backticks, or of a reference,
    reads two backticks. *)
Lemma ref_shape p sn rs st :
  attempt (ref_re p) sn rs = Some st ->
  exists x y, rs = "`"%char :: x ++ "`"%char :: y.
Proof.
  unfold attempt. intros H. apply exec_sound in H.
  destruct H as (st' & M & _).
  unfold ref_re, star_lazy in M. cbn [lit] in M.
  inversion M; subst; clear M.
  match goal with H : matches (Chr _ ;; Eps) _ _ |- _ =>
    inversion H; subst; clear H end.
  match goal with H : matches (Grp _ _ ;; _) _ _ |- _ =>
    inversion H; subst; clear H end.
  repeat match goal with
         | H : matches (Chr _) _ _ |- _ => inversion H; subst; clear H
         | H : matches Eps _ _ |- _ => inversion H; subst; clear H
         | H : matches (Grp _ _) _ _ |- _ => inversion H; subst; clear H
         | H : matches (Chr _ ;; Eps) _ _ |- _ => inversion H; subst; clear H
         end.
  match goal with H : matches (Seq _ _) _ _ |- _ =>
    destruct (matches_reads _ _ _ H) as (m & _ & Hm) end.
  simpl in *.
  repeat match goal with H : ch _ _ = true |- _ => apply ch_eq in H end.
  subst.
  match goal with H : rest ?s = _ :: _ |- _ => rewrite H end.
  eauto.
Qed.

Lemma no_second_backtick (post x y : str) :
  forallb (fun c => negb (ch "`" c)) post = true ->
  post = x ++ "`"%char :: y -> False.
Proof.
  intros H ->. rewrite forallb_app in H. apply andb_true_iff in H.
  destruct H as [_ H]. discriminate.
Qed.

Lemma ref_at_closing p sn post :
  forallb (fun c => negb (ch "`" c)) post = true ->
  attempt (ref_re p) sn ("`" ++ post) = None.
Proof.
  intros H. destruct (attempt (ref_re p) sn ("`" ++ post)) as [st|] eqn:A;
    [exfalso|reflexivity].
  apply ref_shape in A. destruct A as (x & y & E). inversion E.
  eapply no_second_backtick; eassumption.
Qed.

Lemma code_key_at_closing sn post :
  forallb (fun c => negb (ch "`" c)) post = true ->
  attempt code_key_re sn ("`" ++ post) = None.
Proof.
  intros H. destruct (attempt code_key_re sn ("`" ++ post)) as [st|] eqn:A;
    [exfalso|reflexivity].
  apply code_key_shape in A. destruct A as (s & _ & E & _). inversion E.
  eapply no_second_backtick; eassumption.
Qed.

Lemma code_key_not_key sn x post :
  forallb (fun c => negb (ch "`" c)) x = true -> ~ loose_key x ->
  attempt code_key_re sn ("`" ++ x ++ "`" ++ post) = None.
Proof.
  intros NB NL.
  destruct (attempt code_key_re sn ("`" ++ x ++ "`" ++ post)) as [st|] eqn:A;
    [exfalso|reflexivity].
  apply NL. destruct (code_key_shape _ _ _ A) as (s' & L' & Ers & _).
  simpl in Ers. inversion Ers as [Ers'].
  apply first_backtick in Ers'; [|assumption|now apply loose_no_backtick].
  destruct Ers' as [-> _]. assumption.
Qed.

Lemma ref_miss p sn x :
  startswith p x = false -> attempt (ref_re p) sn ("`" ++ x) = None.
Proof.
  intros H. unfold attempt, ref_re. cbn [lit exec rest app].
  unfold ch at 1. rewrite Ascii.eqb_refl.
  rewrite exec_lit. cbn [rest advance]. now rewrite H.
Qed.

Lemma startswith_before_backtick p : forall x post,
  forallb (fun c => negb (ch "`" c)) p = true ->
  startswith p x = false ->
  startswith p (x ++ "`"%char :: post) = false.
Proof.
  induction p as [|c p IH]; intros x post Hp H; [discriminate|].
  cbn [forallb] in Hp. apply andb_true_iff in Hp. destruct Hp as [Hc Hp].
  destruct x as [|d x]; cbn [app startswith] in *.
  - unfold ch in Hc. apply negb_true_iff in Hc.
    now rewrite Hc.
  - destruct (Ascii.eqb c d); [|reflexivity]. simpl in *. now apply IH.
Qed.

Lemma attempt_ref_fig sn k rs :
  forallb (fun c => negb (isspace c) && negb (ch "`" c)) k = true ->
  attempt (ref_re "fig:") sn ("`" ++ "fig:" ++ k ++ "`" ++ rs)
  = Some (MState ("`"%char :: rev k ++ ":gif`" ++ sn) rs [(1, "fig:" ++ k)]).
Proof.
  intros H. unfold attempt, ref_re, star_lazy. simpl.
  apply rep_lazy_pass.
  - apply (forallb_weaken
             (fun c => negb (isspace c) && negb (ch "`" c))); [|exact H].
    intros c Hc. now apply andb_true_iff in Hc.
  - intros a b E Hb. destruct b as [|d b]; [contradiction|]. simpl.
    pose proof (forallb_inside _ _ _ _ _ H E) as Hd. simpl in Hd.
    apply andb_true_iff in Hd. destruct Hd as [_ Hd].
    apply negb_true_iff in Hd. now rewrite Hd.
  - simpl. unfold capture, advance. simpl.
    rewrite (between_upto ("fig:" ++ k)) by rev_norm'. reflexivity.
Qed.

Lemma attempt_ref_eq sn k rs :
  forallb (fun c => negb (isspace c) && negb (ch "`" c)) k = true ->
  attempt (ref_re "eq:") sn ("`" ++ "eq:" ++ k ++ "`" ++ rs)
  = Some (MState ("`"%char :: rev k ++ ":qe`" ++ sn) rs [(1, "eq:" ++ k)]).
Proof.
  intros H. unfold attempt, ref_re, star_lazy. simpl.
  apply rep_lazy_pass.
  - apply (forallb_weaken
             (fun c => negb (isspace c) && negb (ch "`" c))); [|exact H].
    intros c Hc. now apply andb_true_iff in Hc.
  - intros a b E Hb. destruct b as [|d b]; [contradiction|]. simpl.
    pose proof (forallb_inside _ _ _ _ _ H E) as Hd. simpl in Hd.
    apply andb_true_iff in Hd. destruct Hd as [_ Hd].
    apply negb_true_iff in Hd. now rewrite Hd.
  - simpl. unfold capture, advance. simpl.
    rewrite (between_upto ("eq:" ++ k)) by rev_norm'. reflexivity.
Qed.

Lemma attempt_monospace sn x rs :
  forallb quiet x = true ->
  attempt monospace_re sn ("`" ++ x ++ "`" ++ rs)
  = Some (MState ("`"%char :: rev x ++ "`"%char :: sn) rs [(1, x)]).
Proof.
  intros Q. unfold attempt, monospace_re, star_lazy. simpl.
  apply rep_lazy_pass.
  - now apply quiet_dot.
  - closing_fails x "`"%char Q.
  - simpl. unfold capture, advance. simpl.
    rewrite (between_upto x) by rev_norm'. reflexivity.
Qed.

Lemma label_prose k : forallb label_char k = true -> forallb prose k = true.
Proof. apply forallb_weaken. intros c H. now apply andb_true_iff in H. Qed.

Lemma label_ref k :
  forallb label_char k = true ->
  forallb (fun c => negb (isspace c) && negb (ch "`" c)) k = true.
Proof.
  intros H. pose proof (prose_not k "`" eq_refl (label_prose k H)) as N.
  rewrite forallb_forall in *. intros c Hc.
  specialize (H c Hc). specialize (N c Hc).
  unfold label_char in H. apply andb_true_iff in H. destruct H as [_ H].
  now rewrite H, N.
Qed.

Section Reference.
Variables a k b : str.
Hypothesis Pa : forallb prose a = true.
Hypothesis Pk : forallb label_char k = true.
Hypothesis Pb : forallb prose b = true.

Let Pk' : forallb prose k = true := label_prose k Pk.

(** The stages before the references leave a reference in backticks as
    it is, and escape the text around it. *)
Lemma reference_reaches_its_stage p :
  p = "fig:" \/ p = "eq:" ->
  exists line,
    special_characters (a ++ "`" ++ (p ++ k) ++ "`" ++ b) = line /\
    citation_keys line = line /\
    join_loop (S (length line)) line = Some line /\
    lower_citations line = line /\
    line = escape a ++ "`" ++ (p ++ k) ++ "`" ++ escape b.
Proof.
  intros Hp.
  assert (Pp : forallb prose p = true) by (destruct Hp; subst; reflexivity).
  assert (Px : forallb prose (p ++ k) = true)
    by (rewrite forallb_app, Pp, Pk'; reflexivity).
  assert (NL : ~ loose_key (p ++ k)).
  { intros L. apply loose_key_chars in L.
    destruct Hp; subst; simpl in L; discriminate. }
  eexists. split; [|split; [|split; [|split; [|reflexivity]]]].
  - apply special_characters_around; now apply prose_quiet.
  - unfold citation_keys, re_sub.
    apply sub_go_one_span; try reflexivity; try no_markup.
    + apply code_key_not_key; [no_markup|assumption].
    + apply code_key_at_closing. no_markup.
  - apply join_loop_fixed. apply join_step_no_bracket. no_markup.
  - unfold lower_citations, re_sub.
    apply (sub_go_id note_key_re _ (ch "[")); [reflexivity|no_markup].
Qed.

Lemma reference_fig :
  format_line (a ++ "`" ++ ("fig:" ++ k) ++ "`" ++ b)
  = Some (escape a ++ (backslash :: "ref{") ++ "fig:" ++ k ++ "}"
          ++ escape b).
Proof.
  destruct (reference_reaches_its_stage "fig:" (or_introl eq_refl))
    as (line & Sp & C & J & N & E).
  unfold format_line. rewrite Sp, C, J, N, E.
  assert (R : lower_references
                (escape a ++ "`" ++ ("fig:" ++ k) ++ "`" ++ escape b)
              = escape a ++ (backslash :: "ref{") ++ "fig:" ++ k ++ "}"
                ++ escape b).
  { unfold lower_references, re_sub.
    rewrite (sub_go_pass (ref_re "fig:") _ (ch "`") eq_refl (escape a))
      by no_markup.
    pose proof (attempt_ref_fig (rev (escape a) ++ []) k (escape b)
                  (label_ref k Pk)) as A.
    replace ("`" ++ ("fig:" ++ k) ++ "`" ++ escape b)
      with (("`" ++ "fig:" ++ k ++ "`") ++ escape b)
      by (now rewrite <- !app_assoc).
    rewrite (sub_go_hit_at (ref_re "fig:") _ (rev (escape a) ++ [])
               ("`" ++ "fig:" ++ k ++ "`") (escape b) _
               ltac:(discriminate)
               ltac:(rewrite <- !app_assoc; exact A)
               ltac:(rev_norm') eq_refl).
    rewrite (sub_go_id (ref_re "fig:") _ (ch "`")) by no_markup.
    cbn [expand command group groups assoc Nat.eqb seen].
    rewrite app_nil_r, <- !app_assoc.
    apply (sub_go_id (ref_re "eq:") _ (ch "`")); [reflexivity|].
    change (forallb (fun y => negb (ch "`" y))
              (escape a ++ (backslash :: "ref{") ++ "fig:" ++ k ++ "}"
               ++ escape b) = true).
    no_markup. }
  rewrite R.
  destruct (later_stages_id
              (escape a ++ (backslash :: "ref{") ++ "fig:" ++ k ++ "}"
               ++ escape b))
    as (_ & _ & _ & _ & F); try no_markup.
  now rewrite F.
Qed.

Lemma reference_eq :
  format_line (a ++ "`" ++ ("eq:" ++ k) ++ "`" ++ b)
  = Some (escape a ++ (backslash :: "ref{") ++ "eq:" ++ k ++ "}"
          ++ escape b).
Proof.
  destruct (reference_reaches_its_stage "eq:" (or_intror eq_refl))
    as (line & Sp & C & J & N & E).
  unfold format_line. rewrite Sp, C, J, N, E.
  assert (R : lower_references
                (escape a ++ "`" ++ ("eq:" ++ k) ++ "`" ++ escape b)
              = escape a ++ (backslash :: "ref{") ++ "eq:" ++ k ++ "}"
                ++ escape b).
  { unfold lower_references, re_sub.
    rewrite (sub_go_one_span (ref_re "fig:") _ [] (escape a) ("eq:" ++ k)
               (escape b)); try reflexivity; try no_markup.
    2: { apply ref_at_closing. no_markup. }
    rewrite (sub_go_pass (ref_re "eq:") _ (ch "`") eq_refl (escape a))
      by no_markup.
    pose proof (attempt_ref_eq (rev (escape a) ++ []) k (escape b)
                  (label_ref k Pk)) as A.
    replace ("`" ++ ("eq:" ++ k) ++ "`" ++ escape b)
      with (("`" ++ "eq:" ++ k ++ "`") ++ escape b)
      by (now rewrite <- !app_assoc).
    rewrite (sub_go_hit_at (ref_re "eq:") _ (rev (escape a) ++ [])
               ("`" ++ "eq:" ++ k ++ "`") (escape b) _
               ltac:(discriminate)
               ltac:(rewrite <- !app_assoc; exact A)
               ltac:(rev_norm') eq_refl).
    rewrite (sub_go_id (ref_re "eq:") _ (ch "`")) by no_markup.
    cbn [expand command group groups assoc Nat.eqb seen].
    now rewrite app_nil_r, <- !app_assoc. }
  rewrite R.
  destruct (later_stages_id
              (escape a ++ (backslash :: "ref{") ++ "eq:" ++ k ++ "}"
               ++ escape b))
    as (_ & _ & _ & _ & F); try no_markup.
  now rewrite F.
Qed.
End Reference.

(** X21. A reference in backticks in running text, "fig:" or "eq:" and a
    key without white space, becomes a reference: [format_text] turns the
    line a`fig:k`b into a\ref{fig:k}b, and likewise for "eq:", with the
    running text [a] and [b] escaped. *)
Theorem reference_in_backticks_becomes_a_ref a k b :
  forallb prose a = true -> forallb label_char k = true ->
  forallb prose b = true ->
  format_text [a ++ "`fig:" ++ k ++ "`" ++ b]
  = Some [escape a ++ (backslash :: "ref{fig:") ++ k ++ "}" ++ escape b] /\
  format_text [a ++ "`eq:" ++ k ++ "`" ++ b]
  = Some [escape a ++ (backslash :: "ref{eq:") ++ k ++ "}" ++ escape b].
Proof.
  intros Pa Pk Pb. unfold format_text. cbn [map all_some]. split.
  - change (a ++ "`fig:" ++ k ++ "`" ++ b)
      with (a ++ "`" ++ ("fig:" ++ k) ++ "`" ++ b).
    now rewrite (reference_fig a k b Pa Pk Pb).
  - change (a ++ "`eq:" ++ k ++ "`" ++ b)
      with (a ++ "`" ++ ("eq:" ++ k) ++ "`" ++ b).
    now rewrite (reference_eq a k b Pa Pk Pb).
Qed.

Lemma reference_in_backticks_becomes_a_ref_witness :
  format_text ["see " ++ "`fig:" ++ "a_1" ++ "`" ++ " (50%)"]
  = Some [escape "see " ++ (backslash :: "ref{fig:") ++ "a_1" ++ "}"
          ++ escape " (50%)"].
Proof.
  exact (proj1 (reference_in_backticks_becomes_a_ref "see " "a_1" " (50%)"
                  eq_refl eq_refl eq_refl)).
Defined.

(** X22. A code span in running text that is neither a citation key nor a
    reference becomes monospace text: [format_text] turns the line a`x`b
    into a\texttt{x}b with the running text [a] and [b] escaped, and the
    content of the span not escaped. *)
Theorem code_span_becomes_monospace a x b :
  forallb prose a = true -> forallb prose x = true ->
  forallb prose b = true ->
  ~ loose_key x -> startswith "fig:" x = false -> startswith "eq:" x = false ->
  format_text [a ++ "`" ++ x ++ "`" ++ b]
  = Some [escape a ++ (backslash :: "texttt{") ++ x ++ "}" ++ escape b].
Proof.
  intros Pa Px Pb NL NF NE.
  unfold format_text. cbn [map all_some]. unfold format_line.
  rewrite (special_characters_around a x b) by (now apply prose_quiet).
  assert (C : citation_keys (escape a ++ "`" ++ x ++ "`" ++ escape b)
              = escape a ++ "`" ++ x ++ "`" ++ escape b).
  { unfold citation_keys, re_sub.
    apply sub_go_one_span; try reflexivity; try no_markup.
    - apply code_key_not_key; [no_markup|assumption].
    - apply code_key_at_closing. no_markup. }
  rewrite C.
  rewrite join_loop_fixed by (apply join_step_no_bracket; no_markup).
  assert (N : lower_citations (escape a ++ "`" ++ x ++ "`" ++ escape b)
              = escape a ++ "`" ++ x ++ "`" ++ escape b).
  { unfold lower_citations, re_sub.
    apply (sub_go_id note_key_re _ (ch "[")); [reflexivity|no_markup]. }
  rewrite N.
  assert (R : lower_references (escape a ++ "`" ++ x ++ "`" ++ escape b)
              = escape a ++ "`" ++ x ++ "`" ++ escape b).
  { unfold lower_references, re_sub.
    rewrite (sub_go_one_span (ref_re "fig:") _ [] (escape a) x (escape b));
      try reflexivity; try no_markup.
    - apply sub_go_one_span; try reflexivity; try no_markup.
      + apply ref_miss. now apply startswith_before_backtick.
      + apply ref_at_closing. no_markup.
    - apply ref_miss. now apply startswith_before_backtick.
    - apply ref_at_closing. no_markup. }
  rewrite R. f_equal. f_equal.
  unfold text_formatting, re_sub.
  rewrite (sub_go_pass monospace_re _ (ch "`") eq_refl (escape a))
    by no_markup.
  pose proof (attempt_monospace (rev (escape a) ++ []) x (escape b)
                (prose_quiet x Px)) as A.
  hit_with A.
  rewrite (sub_go_id monospace_re _ (ch "`")) by no_markup.
  cbn [expand command group groups assoc Nat.eqb seen].
  rewrite app_nil_r, <- !app_assoc.
  assert (S : forallb (fun y => negb (ch "*" y))
                (escape a ++ (backslash :: "texttt{") ++ x ++ "}"
                 ++ escape b) = true) by no_markup.
  assert (E : forallb (fun y => negb (ch "=" y))
                (escape a ++ (backslash :: "texttt{") ++ x ++ "}"
                 ++ escape b) = true) by no_markup.
  change (escape a ++ (backslash :: "texttt" ++ "{") ++ x ++ "}" ++ escape b)
    with (escape a ++ (backslash :: "texttt{") ++ x ++ "}" ++ escape b).
  rewrite (sub_go_id quoted_italic_re _ (ch "*") _ [] eq_refl S).
  rewrite (sub_go_id italic_re _ (ch "*") _ [] eq_refl S).
  rewrite (sub_go_id bold_re _ (ch "*") _ [] eq_refl S).
  apply (sub_go_id highlight_re _ (ch "=") _ [] eq_refl E).
Qed.

Lemma code_span_becomes_monospace_witness :
  format_text ["run " ++ "`" ++ "ls -l a_b" ++ "`" ++ " twice"]
  = Some [escape "run " ++ (backslash :: "texttt{") ++ "ls -l a_b" ++ "}"
          ++ escape " twice"].
Proof.
  refine (code_span_becomes_monospace "run " "ls -l a_b" " twice"
            eq_refl eq_refl eq_refl _ eq_refl eq_refl).
  intros K. apply loose_key_chars in K. discriminate K.
Defined.
